(** * AliceVision: LO-RANSAC line kernel and image-processing pipeline

    A shallow embedding of
    - [src/aliceVision/robustEstimation/loRansac_test.cpp]
      (struct [LineKernelLoRansac]: [FitLS], [computeWeights]; the
      assertions and the constants of [lineFittingTest]), and
    - [src/software/utils/main_imageProcessing.cpp]
      ([ProcessingParams], the stream operators of the three filter
      parameter structures, [imageRGBAToCvMatBGR], [cvMatBGRToImageRGBA],
      [processImage]),
    together with a model of the LO-RANSAC engine ([LORansac.hpp], not part
    of the sources at hand) written from its specification.

    Part I holds the definitions, Part II the theorems. *)

From Stdlib Require Import ZArith QArith Qminmax Lia Bool SpecFloat.
From Stdlib Require Import Strings.Ascii Strings.String DecimalString.
From stdpp Require Import base option list.


(* ===================================================================== *)
(** * Part I. Definitions                                                 *)
(* ===================================================================== *)

(** ** C++ floating-point values

    [double] is IEEE 754 binary64 and [float] is binary32. The values are
    those of [SpecFloat]: the two zeros, the two infinities, one NaN and the
    finite values [(-1)^s * m * 2^e]. Every operation rounds to nearest,
    ties to even, with gradual underflow and overflow to an infinity. *)

Definition double : Type := spec_float.
Definition float : Type := spec_float.

Global Instance Q_inhabited : Inhabited Q := populate 0%Q.

Global Instance spec_float_inhabited : Inhabited spec_float :=
  populate (S754_zero false).

(** [is_double x]: [x] is a value of binary64, that is a zero, an
    infinity, the NaN or a finite value whose mantissa and exponent are
    those of the format; [is_float] is the same for binary32. *)
Definition is_double (x : spec_float) : bool := valid_binary 53 1024 x.
Definition is_float (x : spec_float) : bool := valid_binary 24 128 x.

(** [a < b]; every ordered comparison with a NaN is false. *)
Definition flt (a b : spec_float) : bool := SFltb a b.

(** [a == b]: the two zeros are equal, a NaN equals nothing. *)
Definition feqb (a b : spec_float) : bool := SFeqb a b.

(** [a != b] (true as soon as one side is a NaN). *)
Definition fneb (a b : spec_float) : bool := negb (SFeqb a b).

(** [a <= b]. *)
Definition fle (a b : spec_float) : bool := SFleb a b.

(** [a > b]. *)
Definition fgt (a b : spec_float) : bool := SFltb b a.

(** [a >= b]. *)
Definition fge (a b : spec_float) : bool := SFleb b a.

(** The arithmetic of [double]. *)
Definition fmul (a b : double) : double := SFmul 53 1024 a b.
Definition fadd (a b : double) : double := SFadd 53 1024 a b.
Definition fsub (a b : double) : double := SFsub 53 1024 a b.
Definition fdiv (a b : double) : double := SFdiv 53 1024 a b.

(** The product of two [float]. *)
Definition fmulf (a b : float) : float := SFmul 24 128 a b.

(** The conversion of an integer to [double] and to [float]; it rounds
    when the integer has more bits than the significand. *)
Definition double_of_Z (z : Z) : double := binary_normalize 53 1024 z 0 false.
Definition float_of_Z (z : Z) : float := binary_normalize 24 128 z 0 false.

(** The literals [n/d] of the sources ([0.001] is [double_literal 1 1000],
    [0.5f] is [float_literal 1 2]): [n] and [d] are exact in the format and
    the division rounds once, so the value is the one nearest to [n/d]. *)
Definition double_literal (n d : Z) : double :=
  SFdiv 53 1024 (double_of_Z n) (double_of_Z d).
Definition float_literal (n d : Z) : float :=
  SFdiv 24 128 (float_of_Z n) (float_of_Z d).

(** The conversion of a [float] to [double], which is exact, and of a
    [double] to [float], which rounds. *)
Definition double_of_float (x : float) : double :=
  match x with
  | S754_finite s m e => binary_round 53 1024 s m e
  | _ => x
  end.

Definition float_of_double (x : double) : float :=
  match x with
  | S754_finite s m e => binary_round 24 128 s m e
  | _ => x
  end.

(** The integral part of a value that is zero or positive and finite. A
    negative value above [-1] converts to [0] as well; the conversion of
    any other value to an unsigned integer type is undefined in C++ and is
    [0] here. *)
Definition truncate (x : spec_float) : Z :=
  match x with
  | S754_finite false m e =>
      if (0 <=? e)%Z then (Zpos m * 2 ^ e)%Z else (Zpos m / 2 ^ (- e))%Z
  | _ => 0%Z
  end.

(** [std::max(a, b)], which is [(a < b) ? b : a]. *)
Definition std_max (a b : double) : double := if flt a b then b else a.

(** [std::pow(x, n)] for a non-negative integral exponent, as repeated
    multiplication: [std::pow(x, 2)] is the correctly rounded square
    [x * x], which is what compilers emit for the constant exponent [2].
    C++ does not require [std::pow] to round correctly; the two floors
    below are powers of two from which the statements about
    [computeWeights] do not depend on the last bit of the square. *)
Fixpoint std_pow (x : double) (n : nat) : double :=
  match n with
  | O => double_of_Z 1
  | S O => x
  | S n' => fmul x (std_pow x n')
  end.

(** A value is a zero when it is [+0] or [-0]; it is a non-negative real
    number when it is a zero or a positive finite value. *)
Definition is_zero (x : spec_float) : Prop :=
  match x with S754_zero _ => True | _ => False end.

Definition nonneg_real (x : spec_float) : Prop :=
  match x with
  | S754_zero _ | S754_finite false _ _ => True
  | _ => False
  end.

(** A value above zero: the positive infinity or a positive finite
    value. *)
Definition positive_value (x : spec_float) : Prop :=
  match x with
  | S754_infinity false | S754_finite false _ _ => True
  | _ => False
  end.

(** [above k x]: [x] is the positive infinity or a positive finite value
    whose exponent is at least [k]. *)
Definition above (k : Z) (x : spec_float) : Prop :=
  x = S754_infinity false
  \/ exists m e, x = S754_finite false m e /\ (k <= e)%Z.

(** The smallest [eps] from which the square of [max(eps, x)] cannot
    underflow to zero, [2^-537], and the smallest from which its inverse
    cannot overflow, [2^-511]. *)
Definition square_floor : double := S754_finite false 4503599627370496 (-589).
Definition inverse_floor : double := S754_finite false 4503599627370496 (-563).

(** ** Outcomes of a call

    A C++ call either returns, fails an [assert], throws, or reads outside a
    buffer. *)

Inductive failure : Type :=
  | AssertionFailed
  | InvalidArgument (what : string)
  | OutOfBounds.

Inductive result (A : Type) : Type :=
  | Ok (a : A)
  | Err (e : failure).
Arguments Ok {A} a.
Arguments Err {A} e.

Global Instance result_ret : MRet result := fun A a => Ok a.

Global Instance result_bind : MBind result := fun A B k r =>
  match r with
  | Ok a => k a
  | Err e => Err e
  end.

Definition of_option {A : Type} (o : option A) (e : failure) : result A :=
  match o with
  | Some a => Ok a
  | None => Err e
  end.

(** ** The line kernel of the LO-RANSAC test *)

Module LineKernelLoRansac.

(** [Vec2]; a line model is [(a, b)]. *)
Definition Vec2 : Type := (double * double)%type.
Definition Model : Type := Vec2.

(** [Mat2X]: a 2 x n matrix, kept as its list of columns. *)
Definition Mat2X : Type := list Vec2.

(** What the kernel inherits from [LineKernel] and calls in [LineSolver]
    and [numeric.hpp]: the observations [xs_], the residual [Error], the
    column extraction and the two solvers, which append to [lines]. *)
Class LineKernel : Type := {
  xs_ : Mat2X;
  Error : nat -> Model -> double;
  ExtractColumns : Mat2X -> list nat -> Mat2X;
  Solve : Mat2X -> list Vec2 -> list Vec2;
  SolveWeightedLS : Mat2X -> list Vec2 -> list double -> list Vec2
}.

Definition MINIMUM_SAMPLES : nat := 2.
Definition MINIMUM_LSSAMPLES : nat := 2.

(** [FitLS(samples, lines, weights)]; [weights = None] is the null
    pointer. The result is the content of [*lines] after the call. *)
Definition FitLS `{K : LineKernel} (samples : list nat) (lines : list Vec2)
    (weights : option (list double)) : result (list Vec2) :=
  if negb (MINIMUM_SAMPLES <=? length samples)%nat then Err AssertionFailed
  else
    let sampled_xs := ExtractColumns xs_ samples in
    match weights with
    | Some w => Ok (SolveWeightedLS sampled_xs lines w)
    | None => Ok (Solve sampled_xs lines)
    end.

(** [std::vector<double>::resize(n)]: keeps the first [n] elements and
    pads with zeros. *)
Definition resize (v : list double) (n : nat) : list double :=
  take n v ++ replicate (n - length v) (S754_zero false).

(** The default value of the parameter [eps]. *)
Definition default_eps : double := double_literal 1 1000.

(** The body of the loop of [computeWeights], at index [sample]. *)
Definition computeWeights_body `{K : LineKernel} (model : Model)
    (inliers : list nat) (eps : double)
    (vec_weights : list double) (sample : nat) : list double :=
  let idx := inliers !!! sample in
  let vec_weights := <[sample := Error idx model]> vec_weights in
  <[sample := fdiv (double_of_Z 1)
                (std_pow (std_max eps (vec_weights !!! sample)) 2)]>
    vec_weights.

(** [computeWeights(model, inliers, vec_weights, eps)]; the result is the
    content of [vec_weights] after the call. *)
Definition computeWeights `{K : LineKernel} (model : Model) (inliers : list nat)
    (vec_weights : list double) (eps : double) : list double :=
  let numInliers := length inliers in
  let vec_weights := resize vec_weights numInliers in
  foldl (computeWeights_body model inliers eps) vec_weights (seq 0 numInliers).

(** The divisor of the weight of observation [idx]. *)
Definition weightDivisor `{K : LineKernel} (model : Model) (eps : double)
    (idx : nat) : double :=
  std_pow (std_max eps (Error idx model)) 2.

(** The weight [1 / max(eps, Error(idx, model))^2]. *)
Definition inverseSquareWeight `{K : LineKernel} (model : Model) (eps : double)
    (idx : nat) : double :=
  fdiv (double_of_Z 1) (weightDivisor model eps idx).

End LineKernelLoRansac.

(** ** The head of [lineFittingTest] *)

Module LineFittingTest.

(** The conversion of a [std::size_t] to [double]. *)
Definition double_of_size_t (n : nat) : double := double_of_Z (Z.of_nat n).

(** The conversion of a [double] to [std::size_t] drops the fraction; that
    of a value outside the range of [std::size_t] is undefined in C++ and
    is [0] here. *)
Definition size_t_of_double (x : double) : nat :=
  let z := truncate x in
  if (z <? 2 ^ 64)%Z then Z.to_nat z else O.

(** [std::numeric_limits<double>::epsilon()], which is [2^-52]. *)
Definition numeric_limits_epsilon : double :=
  S754_finite false 4503599627370496 (-104).

(** The three constants that [lineFittingTest] computes before it builds
    the kernel. *)
Record Constants : Type := {
  withNoise : bool;
  expectedInliers : nat;
  threshold : double
}.

(** [lineFittingTest], from its two assertions to the constants; the data
    generator, the call of [LO_RANSAC] and the drawing are not modelled.
    In [numPoints - (std::size_t) numPoints * outlierRatio] the cast
    applies to [numPoints] alone and the arithmetic is done in [double];
    in [3 * gaussianNoiseLevel] the integer is converted to [double]. *)
Definition lineFittingTest (numPoints : nat)
    (outlierRatio gaussianNoiseLevel : double) : result Constants :=
  if negb (fge outlierRatio (double_of_Z 0)
           && flt outlierRatio (double_of_Z 1))
  then Err AssertionFailed
  else if negb (fge gaussianNoiseLevel (double_of_Z 0))
  then Err AssertionFailed
  else
    let withNoise := fgt gaussianNoiseLevel numeric_limits_epsilon in
    let expectedInliers :=
      size_t_of_double
        (fsub (double_of_size_t numPoints)
              (fmul (double_of_size_t numPoints) outlierRatio)) in
    let threshold :=
      if withNoise then fmul (double_of_Z 3) gaussianNoiseLevel
      else double_literal 3 10 in
    Ok {| withNoise := withNoise; expectedInliers := expectedInliers;
          threshold := threshold |}.

End LineFittingTest.

(** ** The image-processing pipeline ([main_imageProcessing.cpp]) *)

Module ImageProcessing.

Record SharpenParams : Type := {
  sharpen_enabled : bool;
  sharpen_width : Z;
  sharpen_contrast : float;
  sharpen_threshold : float
}.

Record BilateralFilterParams : Type := {
  bilateral_enabled : bool;
  bilateral_distance : Z;
  bilateral_sigmaColor : float;
  bilateral_sigmaSpace : float
}.

Record ClaheFilterParams : Type := {
  clahe_enabled : bool;
  clahe_clipLimit : float;
  clahe_tileGridSize : Z
}.

Record ProcessingParams : Type := {
  reconstructedViewsOnly : bool;
  exposureCompensation : bool;
  scaleFactor : float;
  contrast : float;
  medianFilter : Z;
  fillHoles : bool;
  sharpen : SharpenParams;
  bilateralFilter : BilateralFilterParams;
  claheFilter : ClaheFilterParams
}.

(** The member initialisers of [ProcessingParams]. *)
Definition default_ProcessingParams : ProcessingParams := {|
  reconstructedViewsOnly := false;
  exposureCompensation := false;
  scaleFactor := float_of_Z 1;
  contrast := float_of_Z 1;
  medianFilter := 0;
  fillHoles := false;
  sharpen := {| sharpen_enabled := false; sharpen_width := 3;
                sharpen_contrast := float_of_Z 1;
                sharpen_threshold := float_of_Z 0 |};
  bilateralFilter := {| bilateral_enabled := false; bilateral_distance := 0;
                        bilateral_sigmaColor := float_of_Z 0;
                        bilateral_sigmaSpace := float_of_Z 0 |};
  claheFilter := {| clahe_enabled := false; clahe_clipLimit := float_of_Z 4;
                    clahe_tileGridSize := 8 |}
|}.

Definition with_medianFilter (p : ProcessingParams) (m : Z)
    : ProcessingParams := {|
  reconstructedViewsOnly := reconstructedViewsOnly p;
  exposureCompensation := exposureCompensation p;
  scaleFactor := scaleFactor p;
  contrast := contrast p;
  medianFilter := m;
  fillHoles := fillHoles p;
  sharpen := sharpen p;
  bilateralFilter := bilateralFilter p;
  claheFilter := claheFilter p
|}.

(** [image::RGBAfColor]. *)
Record RGBAfColor : Type := {
  r : float;
  g : float;
  b : float;
  a : float
}.

Global Instance RGBAfColor_inhabited : Inhabited RGBAfColor :=
  populate {| r := S754_zero false; g := S754_zero false;
              b := S754_zero false; a := S754_zero false |}.

(** [image::Image<image::RGBAfColor>]: a row-major pixel buffer. *)
Record Image : Type := {
  Width : nat;
  Height : nat;
  data : list RGBAfColor
}.

(** [Image(width, height)]. *)
Definition Image_create (width height : nat) : Image :=
  {| Width := width; Height := height;
     data := replicate (height * width) inhabitant |}.

(** [img(row, col)], read. *)
Definition Image_at (img : Image) (row col : nat) : result RGBAfColor :=
  of_option (data img !! (row * Width img + col)) OutOfBounds.

(** [img(row, col) = px]. *)
Definition Image_set (img : Image) (row col : nat) (px : RGBAfColor)
    : result Image :=
  if (row * Width img + col <? length (data img))%nat
  then Ok {| Width := Width img; Height := Height img;
             data := <[row * Width img + col := px]> (data img) |}
  else Err OutOfBounds.

(** The alpha plane of an image. *)
Definition alpha_channel (img : Image) : list float := a <$> data img.

(** [cv::Vec3f]. *)
Record Vec3f : Type := {
  v0 : float;
  v1 : float;
  v2 : float
}.

Global Instance Vec3f_inhabited : Inhabited Vec3f :=
  populate {| v0 := S754_zero false; v1 := S754_zero false;
              v2 := S754_zero false |}.

(** [cv::Mat] of type [CV_32FC3]. *)
Record Mat : Type := {
  rows : nat;
  cols : nat;
  mdata : list Vec3f
}.

(** A single-channel [cv::Mat]. *)
Record Mat1 : Type := {
  rows1 : nat;
  cols1 : nat;
  mdata1 : list float
}.

(** [cv::Mat(rows, cols, CV_32FC3)]. *)
Definition Mat_create (nrows ncols : nat) : Mat :=
  {| rows := nrows; cols := ncols;
     mdata := replicate (nrows * ncols) inhabitant |}.

(** [mat.ptr<cv::Vec3f>(row)[col]], read. *)
Definition Mat_at (mat : Mat) (row col : nat) : result Vec3f :=
  of_option (mdata mat !! (row * cols mat + col)) OutOfBounds.

(** [mat.ptr<cv::Vec3f>(row)[col] = v]. *)
Definition Mat_set (mat : Mat) (row col : nat) (v : Vec3f) : result Mat :=
  if (row * cols mat + col <? length (mdata mat))%nat
  then Ok {| rows := rows mat; cols := cols mat;
             mdata := <[row * cols mat + col := v]> (mdata mat) |}
  else Err OutOfBounds.

(** [for (i = 0; i < n; i++) body], on the state [s]. *)
Fixpoint for_each_index {S : Type} (idxs : list nat)
    (body : nat -> S -> result S) (s : S) : result S :=
  match idxs with
  | [] => Ok s
  | i :: rest => s' ← body i s; for_each_index rest body s'
  end.

Definition for_range {S : Type} (n : nat) (body : nat -> S -> result S)
    (s : S) : result S :=
  for_each_index (seq 0 n) body s.

Definition imageRGBAToCvMatBGR (img : Image) : result Mat :=
  let mat := Mat_create (Height img) (Width img) in
  for_range (Height img) (fun row mat =>
    for_range (Width img) (fun col mat =>
      imgPixel ← Image_at img row col;
      Mat_set mat row col
        {| v0 := b imgPixel; v1 := g imgPixel; v2 := r imgPixel |}) mat) mat.

Definition cvMatBGRToImageRGBA (matIn : Mat) (imageOut : Image)
    : result Image :=
  for_range (Height imageOut) (fun row imageOut =>
    for_range (Width imageOut) (fun col imageOut =>
      matPixel ← Mat_at matIn row col;
      old ← Image_at imageOut row col;
      Image_set imageOut row col
        {| r := v2 matPixel; g := v1 matPixel; b := v0 matPixel;
           a := a old |}) imageOut) imageOut.

(** How the program was built. *)
Class BuildConfig : Type := {
  OIIO_VERSION_ge_2_0_0 : bool;
  ALICEVISION_HAVE_OPENCV : bool
}.

(** The algorithms of OpenImageIO that [processImage] calls. Each one
    fills the destination buffer (first argument) from the source buffer
    (second argument). *)
Class ImageBufAlgo : Type := {
  resample : Image -> Image -> Image;
  resize : Image -> Image -> Image;
  contrast_remap : Image -> Image -> float -> float -> float -> float ->
                   float -> Image;
  median_filter : Image -> Image -> Z -> Image;
  unsharp_mask : Image -> Image -> string -> Z -> float -> float -> Image;
  fillholes_pushpull : Image -> Image -> Image
}.

Inductive ColorConversionCodes : Type :=
  | COLOR_LBGR2Lab
  | COLOR_Lab2LBGR.

Inductive MatDepth : Type :=
  | CV_16U
  | CV_32F.

(** The functions of OpenCV that [processImage] calls. *)
Class OpenCV : Type := {
  cv_bilateralFilter : Mat -> Mat -> Z -> float -> float -> Mat;
  cvtColor : Mat -> ColorConversionCodes -> Mat;
  extractChannel : Mat -> nat -> Mat1;
  convertTo : Mat1 -> MatDepth -> double -> Mat1;
  CLAHE_apply : float -> Z -> Mat1 -> Mat1;
  insertChannel : Mat1 -> Mat -> nat -> Mat
}.

(** [std::for_each(L.begin<float>(), L.end<float>(), f)]. *)
Definition Mat1_for_each (f : float -> float) (m : Mat1) : Mat1 :=
  {| rows1 := rows1 m; cols1 := cols1 m; mdata1 := f <$> mdata1 m |}.

(** [(unsigned int)(floor(x))]: the integral part of [x]; the conversion
    of a value outside the range of [unsigned int] is undefined in C++ and
    is [0] here. *)
Definition floor_to_unsigned (x : float) : nat :=
  let z := truncate x in
  if (z <? 2 ^ 32)%Z then Z.to_nat z else O.

(** [float(n)] for an [unsigned int]. *)
Definition float_of_unsigned (n : nat) : float := float_of_Z (Z.of_nat n).

Definition scaleStage `{Oiio : ImageBufAlgo} (pParams : ProcessingParams)
    (image : Image) : Image :=
  if fneb (scaleFactor pParams) (float_of_Z 1) then
    let w := Width image in
    let h := Height image in
    let nw :=
      floor_to_unsigned (fmulf (float_of_unsigned w) (scaleFactor pParams)) in
    let nh :=
      floor_to_unsigned (fmulf (float_of_unsigned h) (scaleFactor pParams)) in
    let rescaled := Image_create nw nh in
    let rescaled := resample rescaled image in
    let rescaled := resize rescaled image in
    rescaled
  else image.

Definition contrastStage `{Cfg : BuildConfig} `{Oiio : ImageBufAlgo}
    (pParams : ProcessingParams) (image : Image) : Image :=
  if OIIO_VERSION_ge_2_0_0 && fneb (contrast pParams) (float_of_Z 1) then
    let filtered := Image_create (Width image) (Height image) in
    contrast_remap filtered image (float_of_Z 0) (float_of_Z 1)
      (float_of_Z 0) (float_of_Z 1) (contrast pParams)
  else image.

Definition medianStage `{Oiio : ImageBufAlgo} (pParams : ProcessingParams)
    (image : Image) : Image :=
  if (3 <=? medianFilter pParams)%Z then
    let filtered := Image_create (Width image) (Height image) in
    median_filter filtered image (medianFilter pParams)
  else image.

Definition sharpenStage `{Oiio : ImageBufAlgo} (pParams : ProcessingParams)
    (image : Image) : Image :=
  if sharpen_enabled (sharpen pParams) then
    let filtered := Image_create (Width image) (Height image) in
    unsharp_mask filtered image "gaussian"
      (sharpen_width (sharpen pParams))
      (sharpen_contrast (sharpen pParams))
      (sharpen_threshold (sharpen pParams))
  else image.

Definition bilateralStage `{Cfg : BuildConfig} `{Cv : OpenCV}
    (pParams : ProcessingParams) (image : Image) : result Image :=
  if bilateral_enabled (bilateralFilter pParams) then
    if ALICEVISION_HAVE_OPENCV then
      openCVMatIn ← imageRGBAToCvMatBGR image;
      let openCVMatOut := Mat_create (Width image) (Height image) in
      let openCVMatOut :=
        cv_bilateralFilter openCVMatIn openCVMatOut
          (bilateral_distance (bilateralFilter pParams))
          (bilateral_sigmaColor (bilateralFilter pParams))
          (bilateral_sigmaSpace (bilateralFilter pParams)) in
      cvMatBGRToImageRGBA openCVMatOut image
    else
      Err (InvalidArgument
        "Unsupported mode! If you intended to use a bilateral filter, please add OpenCV support.")
  else Ok image.

Definition claheStage `{Cfg : BuildConfig} `{Cv : OpenCV}
    (pParams : ProcessingParams) (image : Image) : result Image :=
  if clahe_enabled (claheFilter pParams) then
    if ALICEVISION_HAVE_OPENCV then
      BGRMat ← imageRGBAToCvMatBGR image;
      let labImg := cvtColor BGRMat COLOR_LBGR2Lab in
      let L := extractChannel labImg 0 in
      let L := Mat1_for_each (fun pixel =>
                 float_of_double
                   (fdiv (double_of_float pixel) (double_of_Z 100))) L in
      let L := convertTo L CV_16U (double_of_Z 65535) in
      let L := CLAHE_apply (clahe_clipLimit (claheFilter pParams))
                 (clahe_tileGridSize (claheFilter pParams)) L in
      let L := convertTo L CV_32F (double_literal 1 65535) in
      let L := Mat1_for_each (fun pixel =>
                 float_of_double
                   (fmul (double_of_float pixel) (double_of_Z 100))) L in
      let labImg := insertChannel L labImg 0 in
      let BGRMat := cvtColor labImg COLOR_Lab2LBGR in
      cvMatBGRToImageRGBA BGRMat image
    else
      Err (InvalidArgument
        "Unsupported mode! If you intended to use a Clahe filter, please add OpenCV support.")
  else Ok image.

Definition fillHolesStage `{Oiio : ImageBufAlgo} (pParams : ProcessingParams)
    (image : Image) : Image :=
  if fillHoles pParams then
    let filtered := Image_create (Width image) (Height image) in
    fillholes_pushpull filtered image
  else image.

(** [processImage(image, pParams)]; the result is the content of [image]
    after the call. *)
Definition processImage `{Cfg : BuildConfig} `{Oiio : ImageBufAlgo} `{Cv : OpenCV}
    (image : Image) (pParams : ProcessingParams) : result Image :=
  let image := scaleStage pParams image in
  let image := contrastStage pParams image in
  let image := medianStage pParams image in
  let image := sharpenStage pParams image in
  image ← bilateralStage pParams image;
  image ← claheStage pParams image;
  Ok (fillHolesStage pParams image).

End ImageProcessing.

(** ** The LO-RANSAC engine

    [LORansac.hpp], [ScoreEvaluator.hpp] and the random sampler are not among
    the sources at hand: the test only calls [LO_RANSAC]. The engine below is
    written from the specification of the engine (its sections 4 and 6),
    over real residuals and thresholds as the specification has them. *)

Module LORansac.

(** Modelled from the spec: the Problem Kernel interface of section 4.1
    ([LineKernel.hpp] and the kernels of the library are missing).
    [FitLS] answers [None] for a rank-deficient subset (the
    [RefitDegeneracy] of section 7). *)
Class ProblemKernel (Model : Type) : Type := {
  MINIMUM_SAMPLES : nat;
  MINIMUM_LSSAMPLES : nat;
  FitMinimal : list nat -> list Model;
  FitLS : list nat -> option (list Q) -> option Model;
  Error : nat -> Model -> Q;
  ComputeWeights : Model -> list nat -> Q -> list Q
}.

(** Modelled from the spec: the caller-owned random generator of section
    4.2 ([std::mt19937] in the test); [draw rng bound] is one sequential
    draw, meant to lie in [[0, bound)], and the advanced state. *)
Class RandomGenerator (RandomState : Type) : Type := {
  draw : RandomState -> nat -> nat * RandomState
}.

(** Modelled from the spec: what section 4 leaves to the implementation
    ([LORansac.hpp] is missing): the number of trials
    [T = log(1-p) / log(1-ε^m)] of section 4.4 as an integer, the bounded
    number of IRLS rounds of section 4.5 and the [epsilon] handed to
    [ComputeWeights]. *)
Class EngineConfig : Type := {
  requiredTrials : Q -> Q -> nat -> nat;
  localOptimizationRounds : nat;
  weightEpsilon : Q
}.

(** Modelled from the spec: the one fatal error of section 7. *)
Inductive EngineError : Type :=
  | InsufficientDataError.

Inductive outcome (A : Type) : Type :=
  | Done (a : A)
  | Fail (e : EngineError).
Arguments Done {A} a.
Arguments Fail {A} e.

(** Modelled from the spec: the hypothesis of section 3, the tuple
    (Model, Inlier Set, Score). *)
Record hypothesis (Model : Type) : Type := {
  hModel : Model;
  hInliers : list nat;
  hScore : nat
}.
Arguments hModel {Model} h.
Arguments hInliers {Model} h.
Arguments hScore {Model} h.

(** Modelled from the spec: the state of the outer loop of section 4.4,
    the best hypothesis so far and the generator. *)
Record LoopState (Model RandomState : Type) : Type := {
  best : option (hypothesis Model);
  rng : RandomState
}.
Arguments best {Model RandomState} l.
Arguments rng {Model RandomState} l.

(** Modelled from the spec: the result of [estimate] (section 6). The
    specification leaves open what is returned when no sample ever gave a
    model (section 9); [NoHypothesis] stands for that case. *)
Inductive EstimateResult (Model RandomState : Type) : Type :=
  | Estimated (bestModel : Model) (inlierIndices : list nat)
              (rng' : RandomState)
  | NoHypothesis (rng' : RandomState)
  | Failed (e : EngineError).
Arguments Estimated {Model RandomState} bestModel inlierIndices rng'.
Arguments NoHypothesis {Model RandomState} rng'.
Arguments Failed {Model RandomState} e.

Section Engine.
Context {Model RandomState : Type}.
Context `{K : ProblemKernel Model} `{G : RandomGenerator RandomState}.
Context `{C : EngineConfig}.

(** Modelled from the spec: the Random Sampler of section 4.2
    ([UniformSample] is missing), as a partial Fisher-Yates shuffle:
    each round removes one index from the pool of the indices not drawn
    yet. *)
Fixpoint partialFisherYates (k : nat) (pool : list nat)
    (g : RandomState) : list nat * RandomState :=
  match k with
  | O => ([], g)
  | S k' =>
      let '(x, g') := draw g (length pool) in
      let j := (x mod length pool)%nat in
      match pool !! j with
      | Some i =>
          let '(rest, g'') := partialFisherYates k' (delete j pool) g' in
          (i :: rest, g'')
      | None => ([], g')
      end
  end.

Definition Sample (N k : nat) (g : RandomState)
    : outcome (list nat * RandomState) :=
  if (N <? k)%nat then Fail InsufficientDataError
  else Done (partialFisherYates k (seq 0 N) g).

(** Modelled from the spec: the Score Evaluator of section 4.3
    ([ScoreEvaluator.hpp] is missing). *)
Definition inlierSet (N : nat) (tau : Q) (model : Model) : list nat :=
  List.filter (fun i => Qle_bool (Error i model) tau) (seq 0 N).

Definition scoreModel (N : nat) (tau : Q) (model : Model)
    : hypothesis Model :=
  {| hModel := model;
     hInliers := inlierSet N tau model;
     hScore := length (inlierSet N tau model) |}.

(** Modelled from the spec: the IRLS refit of section 4.5. *)
Fixpoint irls (rounds N : nat) (tau : Q) (h : hypothesis Model)
    : hypothesis Model :=
  match rounds with
  | O => h
  | S rounds' =>
      if (length (hInliers h) <? MINIMUM_LSSAMPLES)%nat then h
      else
        let weights := ComputeWeights (hModel h) (hInliers h) weightEpsilon in
        match FitLS (hInliers h) (Some weights) with
        | None => h
        | Some refitted =>
            let h' := scoreModel N tau refitted in
            if bool_decide (hInliers h' = hInliers h) then h'
            else irls rounds' N tau h'
        end
  end.

(** Modelled from the spec: the last sentence of section 4.5, the refined
    model replaces the trial-best only if its re-scored quality is not
    worse. *)
Definition localOptimization (N : nat) (tau : Q) (trial : hypothesis Model)
    : hypothesis Model :=
  let refined := irls localOptimizationRounds N tau trial in
  if (hScore trial <=? hScore refined)%nat then refined else trial.

(** Modelled from the spec: the invariant of section 3, a hypothesis
    replaces the best only if its score is strictly greater. *)
Definition exceeds (h : hypothesis Model)
    (b : option (hypothesis Model)) : bool :=
  match b with
  | None => true
  | Some h0 => (hScore h0 <? hScore h)%nat
  end.

(** Modelled from the spec: step 3 of an iteration (section 4.4), for one
    candidate model. *)
Definition considerCandidate (N : nat) (tau : Q)
    (b : option (hypothesis Model)) (candidate : Model)
    : option (hypothesis Model) :=
  let trial := scoreModel N tau candidate in
  if exceeds trial b then
    let refined := localOptimization N tau trial in
    if exceeds refined b then Some refined else b
  else b.

(** Modelled from the spec: steps 1 to 3 of an iteration (section 4.4). *)
Definition iteration (N : nat) (tau : Q)
    (st : LoopState Model RandomState)
    : outcome (LoopState Model RandomState) :=
  match Sample N MINIMUM_SAMPLES (rng st) with
  | Fail e => Fail e
  | Done (sample, g') =>
      let models := FitMinimal sample in
      Done {| best := foldl (considerCandidate N tau) (best st) models;
              rng := g' |}
  end.

(** Modelled from the spec: the inlier ratio [ε = |inliers| / N] of
    section 4.4. *)
Definition inlierRatio (N : nat) (h : hypothesis Model) : Q :=
  Z.of_nat (hScore h) # Pos.of_nat N.

(** Modelled from the spec: step 4 of section 4.4, the loop stops when the
    counter reaches [maxIterations], or exceeds [min(T, maxIterations)]
    once the inlier ratio is positive. *)
Definition terminated (N maxIterations : nat) (p : Q) (counter : nat)
    (b : option (hypothesis Model)) : bool :=
  (maxIterations <=? counter)%nat ||
  match b with
  | Some h =>
      (0 <? hScore h)%nat &&
      (Nat.min (requiredTrials p (inlierRatio N h) MINIMUM_SAMPLES)
               maxIterations <? counter)%nat
  | None => false
  end.

(** Modelled from the spec: the outer loop of section 4.4; [budget] counts
    the iterations left under the hard cap, so
    [budget + counter = maxIterations] throughout. *)
Fixpoint outerLoop (budget : nat) (N : nat) (tau : Q)
    (maxIterations : nat) (p : Q) (counter : nat)
    (st : LoopState Model RandomState)
    : outcome (LoopState Model RandomState) :=
  match budget with
  | O => Done st
  | S budget' =>
      if terminated N maxIterations p counter (best st) then Done st
      else
        match iteration N tau st with
        | Fail e => Fail e
        | Done st' =>
            outerLoop budget' N tau maxIterations p (S counter) st'
        end
  end.

(** Modelled from the spec: the entry point of section 6
    ([LO_RANSAC] is missing). *)
Definition estimate (N : nat) (tau : Q) (g : RandomState)
    (maxIterations : nat) (targetConfidence : Q)
    : EstimateResult Model RandomState :=
  if (N <? MINIMUM_SAMPLES)%nat then Failed InsufficientDataError
  else
    match outerLoop maxIterations N tau maxIterations targetConfidence 0
            {| best := None; rng := g |} with
    | Fail e => Failed e
    | Done st =>
        match best st with
        | Some h => Estimated (hModel h) (hInliers h) (rng st)
        | None => NoHypothesis (rng st)
        end
    end.

(** The inlier set of a hypothesis is the one the Score Evaluator
    derives from its model. *)
Definition consistent (N : nat) (tau : Q) (h : hypothesis Model) : Prop :=
  hInliers h = inlierSet N tau (hModel h).

Definition best_consistent (N : nat) (tau : Q)
    (b : option (hypothesis Model)) : Prop :=
  forall h, b = Some h -> consistent N tau h.

End Engine.

End LORansac.

(** ** Concrete instances

    Small instances on which the definitions above are run. *)

Module Examples.

Import LineKernelLoRansac.

Definition Qsquare (x : Q) : Q := x * x.

(** The squared vertical distance of a point to the line [y = a x + b]. *)
Definition pointToLineError (lineEq : Vec2) (xy : Vec2) : double :=
  let d := fsub xy.2 (fadd (fmul lineEq.1 xy.1) lineEq.2) in
  fmul d d.

(** Two points of the line [y = -2 x + 6.3] and one point off it. *)
Definition line_points : Mat2X :=
  [ (double_of_Z 0, double_literal 63 10);
    (double_of_Z 1, double_literal 43 10);
    (double_of_Z 2, double_of_Z 10) ].

Definition line_model : Model := (double_of_Z (-2), double_literal 63 10).

Definition line_kernel : LineKernel := {|
  xs_ := line_points;
  Error := fun idx model => pointToLineError model (line_points !!! idx);
  ExtractColumns := fun m samples => (fun i => m !!! i) <$> samples;
  Solve := fun _ lines => lines;
  SolveWeightedLS := fun _ lines _ => lines
|}.

Import ImageProcessing.

Definition build_with_opencv : BuildConfig :=
  {| OIIO_VERSION_ge_2_0_0 := true; ALICEVISION_HAVE_OPENCV := true |}.

(** Filters that return their source. *)
Definition copy_filters : ImageBufAlgo := {|
  resample := fun dst src => src;
  resize := fun dst src => src;
  contrast_remap := fun dst src _ _ _ _ _ => src;
  median_filter := fun dst src _ => src;
  unsharp_mask := fun dst src _ _ _ _ => src;
  fillholes_pushpull := fun dst src => src
|}.

Definition gray : Vec3f :=
  {| v0 := float_literal 1 2; v1 := float_literal 1 2;
     v2 := float_literal 1 2 |}.

(** An OpenCV whose bilateral filter paints every pixel gray and whose
    colour conversions exchange the first and the last channel. *)
Definition toy_opencv : OpenCV := {|
  cv_bilateralFilter := fun src dst _ _ _ =>
    {| rows := rows src; cols := cols src;
       mdata := (fun _ => gray) <$> mdata src |};
  cvtColor := fun src _ =>
    {| rows := rows src; cols := cols src;
       mdata := (fun v => {| v0 := v2 v; v1 := v1 v; v2 := v0 v |})
                  <$> mdata src |};
  extractChannel := fun src _ =>
    {| rows1 := rows src; cols1 := cols src; mdata1 := v0 <$> mdata src |};
  convertTo := fun m _ _ => m;
  CLAHE_apply := fun _ _ m => m;
  insertChannel := fun _ dst _ => dst
|}.

Definition pixel (x : Z) (alpha : float) : RGBAfColor :=
  {| r := float_of_Z x; g := float_of_Z (x + 1); b := float_of_Z (x + 2);
     a := alpha |}.

(** A 2 x 2 image with four different alpha values. *)
Definition checker : Image :=
  {| Width := 2; Height := 2;
     data := [ pixel 0 (float_literal 1 4); pixel 10 (float_literal 1 2);
               pixel 20 (float_literal 3 4); pixel 30 (float_of_Z 1) ] |}.

Definition with_bilateral_and_clahe : ProcessingParams := {|
  reconstructedViewsOnly := false;
  exposureCompensation := false;
  scaleFactor := float_of_Z 1;
  contrast := float_of_Z 1;
  medianFilter := 0;
  fillHoles := false;
  sharpen := sharpen default_ProcessingParams;
  bilateralFilter := {| bilateral_enabled := true; bilateral_distance := 5;
                        bilateral_sigmaColor := float_of_Z 1;
                        bilateral_sigmaSpace := float_of_Z 1 |};
  claheFilter := {| clahe_enabled := true; clahe_clipLimit := float_of_Z 4;
                    clahe_tileGridSize := 8 |}
|}.

Import LORansac.

(** Five observations, four of them on the line [y = 2 x + 1]. *)
Definition observations : list (Q * Q) :=
  [ (0, 1); (1, 3); (2, 5); (3, 7); (4, 0) ]%Q.

Definition residual (p : Q * Q) (m : Q * Q) : Q :=
  Qred (Qsquare (p.2 - (m.1 * p.1 + m.2))).

Local Open Scope Q_scope.

Definition Qsum (l : list Q) : Q := foldr Qplus 0%Q l.

(** The line through two observations, none if they share their
    abscissa. *)
Definition line_through (p1 p2 : Q * Q) : list (Q * Q) :=
  if Qeq_bool p1.1 p2.1 then []
  else
    let slope := Qred ((p2.2 - p1.2) / (p2.1 - p1.1)) in
    [ (slope, Qred (p1.2 - slope * p1.1)) ].

(** The weighted least-squares line, none if the system is singular. *)
Definition weighted_line (pts : list (Q * Q)) (ws : list Q)
    : option (Q * Q) :=
  let pw := zip pts ws in
  let sw := Qsum ((fun x => x.2) <$> pw) in
  let sx := Qsum ((fun x => x.2 * x.1.1) <$> pw) in
  let sy := Qsum ((fun x => x.2 * x.1.2) <$> pw) in
  let sxx := Qsum ((fun x => x.2 * x.1.1 * x.1.1) <$> pw) in
  let sxy := Qsum ((fun x => x.2 * x.1.1 * x.1.2) <$> pw) in
  let det := Qred (sw * sxx - sx * sx) in
  if Qeq_bool det 0 then None
  else
    let slope := Qred ((sw * sxy - sx * sy) / det) in
    Some (slope, Qred ((sy - slope * sx) / sw)).

Local Close Scope Q_scope.

Definition toy_kernel : ProblemKernel (Q * Q) := {|
  MINIMUM_SAMPLES := 2;
  MINIMUM_LSSAMPLES := 2;
  FitMinimal := fun sample =>
    match sample with
    | [i; j] =>
        match observations !! i, observations !! j with
        | Some p1, Some p2 => line_through p1 p2
        | _, _ => []
        end
    | _ => []
    end;
  FitLS := fun indices weights =>
    let pts := (fun i => observations !!! i) <$> indices in
    weighted_line pts
      (default (replicate (length indices) 1%Q) weights);
  Error := fun i m => residual (observations !!! i) m;
  ComputeWeights := fun m inliers eps =>
    (fun i => Qred (1 / Qsquare (Qmax eps (residual (observations !!! i) m))))
      <$> inliers
|}.

(** A linear congruential generator on its seed. *)
Definition lcg_next (seed : N) : N :=
  ((seed * 1103515245 + 12345) mod 2147483648)%N.

Definition lcg_value (seed : N) (bound : nat) : nat :=
  N.to_nat ((lcg_next seed / 65536) mod N.of_nat bound)%N.

Definition lcg : RandomGenerator N := {|
  draw := fun seed bound => (lcg_value seed bound, lcg_next seed)
|}.

Definition toy_config : EngineConfig := {|
  requiredTrials := fun p ε m => 4;
  localOptimizationRounds := 3;
  weightEpsilon := 1 # 1000
|}.

End Examples.

(** ** The properties of [computeWeights], as predicates on one call *)

Module WeightClaims.

Import LineKernelLoRansac.

(** Every inlier gets the weight [1 / max(eps, Error)^2], and no
    division is by zero. *)
Definition inverse_square_weights `{K : LineKernel} (model : Model)
    (inliers : list nat) (vec_weights : list double) (eps : double)
    : Prop :=
  computeWeights model inliers vec_weights eps
    = inverseSquareWeight model eps <$> inliers
  /\ Forall (fun idx => ~ is_zero (weightDivisor model eps idx)) inliers.

(** The weight vector is as long as the inlier list and holds
    non-negative real numbers. *)
Definition nonneg_weight_vector `{K : LineKernel} (model : Model)
    (inliers : list nat) (vec_weights : list double) (eps : double)
    : Prop :=
  length (computeWeights model inliers vec_weights eps) = length inliers
  /\ Forall nonneg_real (computeWeights model inliers vec_weights eps).

End WeightClaims.

(** ** Frame conditions of the image pipeline *)

Module ImageClaims.

Import ImageProcessing.

(** The buffer of an image holds [Height * Width] pixels. *)
Definition Image_wf (img : Image) : Prop :=
  length (data img) = Height img * Width img.

Definition Mat_wf (mat : Mat) : Prop :=
  length (mdata mat) = rows mat * cols mat.

Definition Mat_same_size (m m' : Mat) : Prop :=
  rows m' = rows m /\ cols m' = cols m.

(** [image'] has the size and the alpha plane of [image]. *)
Definition same_alpha (image image' : Image) : Prop :=
  Width image' = Width image
  /\ Height image' = Height image
  /\ alpha_channel image' = alpha_channel image.

(** What OpenCV documents of the sizes of its results: the destination of
    [bilateralFilter] and [cvtColor] has the size of the source, and
    [insertChannel] keeps the size of its destination. *)
Class OpenCV_sizes `{Cv : OpenCV} : Prop := {
  cv_bilateralFilter_size src dst d sc ss :
    Mat_wf src ->
    Mat_wf (cv_bilateralFilter src dst d sc ss)
    /\ Mat_same_size src (cv_bilateralFilter src dst d sc ss);
  cvtColor_size src code :
    Mat_wf src ->
    Mat_wf (cvtColor src code) /\ Mat_same_size src (cvtColor src code);
  insertChannel_size ch dst coi :
    Mat_wf dst ->
    Mat_wf (insertChannel ch dst coi)
    /\ Mat_same_size dst (insertChannel ch dst coi)
}.

End ImageClaims.

(** ** Reading and writing the filter parameters
    ([operator>>] and [operator<<] of [main_imageProcessing.cpp]) *)

Module ParamsIO.

Import ImageProcessing.

Notation "a +++ b" := (String.append a b)
  (at level 60, right associativity) : string_scope.

Local Open Scope string_scope.

(** The exceptions the stream operators throw. *)
Inductive exception : Type :=
  | invalid_argument (what : string)
  | bad_lexical_cast.

(** [std::istream]: the characters not read yet and the fail bit. *)
Record istream : Type := {
  buffer : string;
  failbit : bool
}.

(** [std::ostream]: the characters written and the [boolalpha] flag. *)
Record ostream : Type := {
  written : string;
  boolalpha : bool
}.

(** The conversions between numbers and text of Boost and of the stream
    library: [boost::lexical_cast<int>], [boost::lexical_cast<float>]
    ([None] when they throw) and the characters that the insertion of an
    [int] and of a [float] writes under the format flags of the stream. *)
Class NumberText : Type := {
  lexical_cast_int : string -> option Z;
  lexical_cast_float : string -> option float;
  put_int : Z -> string;
  put_float : float -> string
}.

(** [std::isspace] in the classic locale: the space and the characters
    9 to 13. *)
Definition isspace (c : ascii) : bool :=
  let n := nat_of_ascii c in
  (n =? 32)%nat || ((9 <=? n)%nat && (n <=? 13)%nat).

Fixpoint skipws (s : string) : string :=
  match s with
  | EmptyString => EmptyString
  | String c s' => if isspace c then skipws s' else s
  end.

(** The longest prefix without white space, and what follows it. *)
Fixpoint read_word (s : string) : string * string :=
  match s with
  | EmptyString => (EmptyString, EmptyString)
  | String c s' =>
      if isspace c then (EmptyString, s)
      else let '(w, rest) := read_word s' in (String c w, rest)
  end.

(** [in >> token] for a [std::string]: on a stream that has failed nothing
    is read; otherwise leading white space is skipped and a word is read,
    and the fail bit is set when the word is empty. *)
Definition extract_string (i : istream) : string * istream :=
  if failbit i then (EmptyString, i)
  else
    let '(w, rest) := read_word (skipws (buffer i)) in
    (w, {| buffer := rest;
           failbit := match w with EmptyString => true | _ => false end |}).

(** [boost::algorithm::is_any_of(set)]. *)
Fixpoint is_any_of (set : string) (c : ascii) : bool :=
  match set with
  | EmptyString => false
  | String d set' => Ascii.eqb c d || is_any_of set' c
  end.

(** [boost::split(result, input, pred)], without token compression: a
    field ends at each separator, so an empty input gives one empty
    field. *)
Fixpoint split (pred : ascii -> bool) (input : string) : list string :=
  match input with
  | EmptyString => [EmptyString]
  | String c rest =>
      if pred c then EmptyString :: split pred rest
      else
        match split pred rest with
        | field :: fields => String c field :: fields
        | [] => [String c EmptyString]
        end
  end.

(** [std::tolower] in the classic locale. *)
Definition tolower (c : ascii) : ascii :=
  let n := nat_of_ascii c in
  if (65 <=? n)%nat && (n <=? 90)%nat then ascii_of_nat (n + 32) else c.

Fixpoint to_lower_copy (s : string) : string :=
  match s with
  | EmptyString => EmptyString
  | String c s' => String (tolower c) (to_lower_copy s')
  end.

Global Instance string_inhabited : Inhabited string := populate EmptyString.

(** The state after a call of [operator>>]: the stream, the parameters
    (assigned field by field, so an exception leaves the fields assigned
    before it) and the exception thrown, if any. *)
Record extraction (A : Type) : Type := {
  stream : istream;
  value : A;
  thrown : option exception
}.
Arguments stream {A} e.
Arguments value {A} e.
Arguments thrown {A} e.

Definition set_sharpen_enabled (p : SharpenParams) (x : bool) :=
  {| sharpen_enabled := x; sharpen_width := sharpen_width p;
     sharpen_contrast := sharpen_contrast p;
     sharpen_threshold := sharpen_threshold p |}.

Definition set_sharpen_width (p : SharpenParams) (x : Z) :=
  {| sharpen_enabled := sharpen_enabled p; sharpen_width := x;
     sharpen_contrast := sharpen_contrast p;
     sharpen_threshold := sharpen_threshold p |}.

Definition set_sharpen_contrast (p : SharpenParams) (x : float) :=
  {| sharpen_enabled := sharpen_enabled p; sharpen_width := sharpen_width p;
     sharpen_contrast := x; sharpen_threshold := sharpen_threshold p |}.

Definition set_sharpen_threshold (p : SharpenParams) (x : float) :=
  {| sharpen_enabled := sharpen_enabled p; sharpen_width := sharpen_width p;
     sharpen_contrast := sharpen_contrast p; sharpen_threshold := x |}.

(** [operator>>(std::istream&, SharpenParams&)]. *)
Definition read_SharpenParams `{NT : NumberText} (in_ : istream)
    (sParams : SharpenParams) : extraction SharpenParams :=
  let '(token, in_) := extract_string in_ in
  let splitParams := split (is_any_of ":") token in
  if negb (length splitParams =? 4)%nat then
    {| stream := in_; value := sParams;
       thrown := Some (invalid_argument
                   ("Failed to parse SharpenParams from: " +++ token)) |}
  else
    let sParams :=
      set_sharpen_enabled sParams
        (String.eqb (to_lower_copy (splitParams !!! 0%nat)) "true") in
    match lexical_cast_int (splitParams !!! 1%nat) with
    | None => {| stream := in_; value := sParams;
                 thrown := Some bad_lexical_cast |}
    | Some width =>
        let sParams := set_sharpen_width sParams width in
        match lexical_cast_float (splitParams !!! 2%nat) with
        | None => {| stream := in_; value := sParams;
                     thrown := Some bad_lexical_cast |}
        | Some contrast =>
            let sParams := set_sharpen_contrast sParams contrast in
            match lexical_cast_float (splitParams !!! 3%nat) with
            | None => {| stream := in_; value := sParams;
                         thrown := Some bad_lexical_cast |}
            | Some threshold =>
                {| stream := in_;
                   value := set_sharpen_threshold sParams threshold;
                   thrown := None |}
            end
        end
    end.

(** [os << b] for a [bool]. *)
Definition put_bool (os : ostream) (b : bool) : string :=
  if boolalpha os then (if b then "true" else "false")
  else (if b then "1" else "0").

Definition put (os : ostream) (text : string) : ostream :=
  {| written := written os +++ text; boolalpha := boolalpha os |}.

(** [operator<<(std::ostream&, const SharpenParams&)]. *)
Definition write_SharpenParams `{NT : NumberText} (os : ostream)
    (sParams : SharpenParams) : ostream :=
  let os := put os (put_bool os (sharpen_enabled sParams)) in
  let os := put os ":" in
  let os := put os (put_int (sharpen_width sParams)) in
  let os := put os ":" in
  let os := put os (put_float (sharpen_contrast sParams)) in
  let os := put os ":" in
  put os (put_float (sharpen_threshold sParams)).

Definition set_bilateral_enabled (p : BilateralFilterParams) (x : bool) :=
  {| bilateral_enabled := x; bilateral_distance := bilateral_distance p;
     bilateral_sigmaColor := bilateral_sigmaColor p;
     bilateral_sigmaSpace := bilateral_sigmaSpace p |}.

Definition set_bilateral_distance (p : BilateralFilterParams) (x : Z) :=
  {| bilateral_enabled := bilateral_enabled p; bilateral_distance := x;
     bilateral_sigmaColor := bilateral_sigmaColor p;
     bilateral_sigmaSpace := bilateral_sigmaSpace p |}.

Definition set_bilateral_sigmaColor (p : BilateralFilterParams) (x : float) :=
  {| bilateral_enabled := bilateral_enabled p;
     bilateral_distance := bilateral_distance p;
     bilateral_sigmaColor := x;
     bilateral_sigmaSpace := bilateral_sigmaSpace p |}.

Definition set_bilateral_sigmaSpace (p : BilateralFilterParams) (x : float) :=
  {| bilateral_enabled := bilateral_enabled p;
     bilateral_distance := bilateral_distance p;
     bilateral_sigmaColor := bilateral_sigmaColor p;
     bilateral_sigmaSpace := x |}.

(** [operator>>(std::istream&, BilateralFilterParams&)]. *)
Definition read_BilateralFilterParams `{NT : NumberText} (in_ : istream)
    (bfParams : BilateralFilterParams) : extraction BilateralFilterParams :=
  let '(token, in_) := extract_string in_ in
  let splitParams := split (is_any_of ":") token in
  if negb (length splitParams =? 4)%nat then
    {| stream := in_; value := bfParams;
       thrown := Some (invalid_argument
                   ("Failed to parse BilateralFilterParams from: " +++ token)) |}
  else
    let bfParams :=
      set_bilateral_enabled bfParams
        (String.eqb (to_lower_copy (splitParams !!! 0%nat)) "true") in
    match lexical_cast_int (splitParams !!! 1%nat) with
    | None => {| stream := in_; value := bfParams;
                 thrown := Some bad_lexical_cast |}
    | Some distance =>
        let bfParams := set_bilateral_distance bfParams distance in
        match lexical_cast_float (splitParams !!! 2%nat) with
        | None => {| stream := in_; value := bfParams;
                     thrown := Some bad_lexical_cast |}
        | Some sigmaColor =>
            let bfParams := set_bilateral_sigmaColor bfParams sigmaColor in
            match lexical_cast_float (splitParams !!! 3%nat) with
            | None => {| stream := in_; value := bfParams;
                         thrown := Some bad_lexical_cast |}
            | Some sigmaSpace =>
                {| stream := in_;
                   value := set_bilateral_sigmaSpace bfParams sigmaSpace;
                   thrown := None |}
            end
        end
    end.

(** [operator<<(std::ostream&, const BilateralFilterParams&)]. *)
Definition write_BilateralFilterParams `{NT : NumberText} (os : ostream)
    (bfParams : BilateralFilterParams) : ostream :=
  let os := put os (put_bool os (bilateral_enabled bfParams)) in
  let os := put os ":" in
  let os := put os (put_int (bilateral_distance bfParams)) in
  let os := put os ":" in
  let os := put os (put_float (bilateral_sigmaColor bfParams)) in
  let os := put os ":" in
  put os (put_float (bilateral_sigmaSpace bfParams)).

Definition set_clahe_enabled (p : ClaheFilterParams) (x : bool) :=
  {| clahe_enabled := x; clahe_clipLimit := clahe_clipLimit p;
     clahe_tileGridSize := clahe_tileGridSize p |}.

Definition set_clahe_clipLimit (p : ClaheFilterParams) (x : float) :=
  {| clahe_enabled := clahe_enabled p; clahe_clipLimit := x;
     clahe_tileGridSize := clahe_tileGridSize p |}.

Definition set_clahe_tileGridSize (p : ClaheFilterParams) (x : Z) :=
  {| clahe_enabled := clahe_enabled p; clahe_clipLimit := clahe_clipLimit p;
     clahe_tileGridSize := x |}.

(** [operator>>(std::istream&, ClaheFilterParams&)]. *)
Definition read_ClaheFilterParams `{NT : NumberText} (in_ : istream)
    (cfParams : ClaheFilterParams) : extraction ClaheFilterParams :=
  let '(token, in_) := extract_string in_ in
  let splitParams := split (is_any_of ":") token in
  if negb (length splitParams =? 3)%nat then
    {| stream := in_; value := cfParams;
       thrown := Some (invalid_argument
                   ("Failed to parse ClaheFilterParams from: " +++ token)) |}
  else
    let cfParams :=
      set_clahe_enabled cfParams
        (String.eqb (to_lower_copy (splitParams !!! 0%nat)) "true") in
    match lexical_cast_float (splitParams !!! 1%nat) with
    | None => {| stream := in_; value := cfParams;
                 thrown := Some bad_lexical_cast |}
    | Some clipLimit =>
        let cfParams := set_clahe_clipLimit cfParams clipLimit in
        match lexical_cast_int (splitParams !!! 2%nat) with
        | None => {| stream := in_; value := cfParams;
                     thrown := Some bad_lexical_cast |}
        | Some tileGridSize =>
            {| stream := in_;
               value := set_clahe_tileGridSize cfParams tileGridSize;
               thrown := None |}
        end
    end.

(** [operator<<(std::ostream&, const ClaheFilterParams&)]. *)
Definition write_ClaheFilterParams `{NT : NumberText} (os : ostream)
    (cfParams : ClaheFilterParams) : ostream :=
  let os := put os (put_bool os (clahe_enabled cfParams)) in
  let os := put os ":" in
  let os := put os (put_float (clahe_clipLimit cfParams)) in
  let os := put os ":" in
  put os (put_int (clahe_tileGridSize cfParams)).

(** *** Vocabulary of the statements about the stream operators *)

(** The number of characters of [s] that satisfy [pred]. *)
Fixpoint count_chars (pred : ascii -> bool) (s : string) : nat :=
  match s with
  | EmptyString => O
  | String c s' => (if pred c then 1 else 0) + count_chars pred s'
  end.

(** A text without white space and without colon. *)
Definition plain_char (c : ascii) : bool :=
  negb (isspace c) && negb (is_any_of ":" c).

Fixpoint plain (s : string) : bool :=
  match s with
  | EmptyString => true
  | String c s' => plain_char c && plain s'
  end.

(** The sixteen spellings of [true] that differ by the case of their
    letters. *)
Definition spells_true (s : string) : Prop :=
  exists c1 c2 c3 c4,
    s = String c1 (String c2 (String c3 (String c4 EmptyString)))
    /\ (c1 = "t" \/ c1 = "T")%char /\ (c2 = "r" \/ c2 = "R")%char
    /\ (c3 = "u" \/ c3 = "U")%char /\ (c4 = "e" \/ c4 = "E")%char.

(** The text of a number is a plain word that the cast reads back. *)
Definition int_text_ok `{NT : NumberText} (z : Z) : Prop :=
  plain (put_int z) = true
  /\ lexical_cast_int (put_int z) = Some z.

Definition float_text_ok `{NT : NumberText} (x : float) : Prop :=
  plain (put_float x) = true
  /\ lexical_cast_float (put_float x) = Some x.

(** A stream on which nothing was written yet. *)
Definition fresh_ostream (alpha : bool) : ostream :=
  {| written := EmptyString; boolalpha := alpha |}.

(** A stream that holds [text]. *)
Definition istream_of (text : string) : istream :=
  {| buffer := text; failbit := false |}.

End ParamsIO.

(** ** Vocabulary of the statements about the image conversions *)

Module ImageSpecs.

Import ImageProcessing.

(** The BGR triple of a pixel; the alpha is dropped. *)
Definition bgr_of_rgba (px : RGBAfColor) : Vec3f :=
  {| v0 := b px; v1 := g px; v2 := r px |}.

(** The pixel with the colour of a BGR triple and the alpha of [old]. *)
Definition rgba_of_bgr (v : Vec3f) (old : RGBAfColor) : RGBAfColor :=
  {| r := v2 v; g := v1 v; b := v0 v; a := a old |}.

(** The colour of a pixel, without its alpha. *)
Definition colour (px : RGBAfColor) : float * float * float :=
  (r px, g px, b px).

(** The four stages of [processImage] that call OpenImageIO are off. *)
Definition oiio_stages_off `{Cfg : BuildConfig} (pParams : ProcessingParams)
    : Prop :=
  fneb (scaleFactor pParams) (float_of_Z 1) = false
  /\ OIIO_VERSION_ge_2_0_0 && fneb (contrast pParams) (float_of_Z 1) = false
  /\ (medianFilter pParams < 3)%Z
  /\ sharpen_enabled (sharpen pParams) = false
  /\ fillHoles pParams = false.

End ImageSpecs.

(** ** More concrete instances *)

Module MoreExamples.

Import ImageProcessing ParamsIO.

Local Open Scope string_scope.

(** Decimal text for the integers, and a text for the three floats of the
    default parameters. *)
Definition toy_put_float (x : float) : string :=
  if feqb x (float_of_Z 0) then "0"
  else if feqb x (float_of_Z 1) then "1"
  else if feqb x (float_of_Z 4) then "4" else "?".

Definition toy_lexical_cast_float (s : string) : option float :=
  if String.eqb s "0" then Some (float_of_Z 0)
  else if String.eqb s "1" then Some (float_of_Z 1)
  else if String.eqb s "4" then Some (float_of_Z 4) else None.

Definition decimal_text : NumberText := {|
  lexical_cast_int := fun s => Z.of_int <$> NilZero.int_of_string s;
  lexical_cast_float := toy_lexical_cast_float;
  put_int := fun z => NilZero.string_of_int (Z.to_int z);
  put_float := toy_put_float
|}.

(** A 1 x 2 matrix. *)
Definition two_cells : Mat :=
  {| rows := 1; cols := 2;
     mdata := [ {| v0 := float_of_Z 1; v1 := float_of_Z 2;
                   v2 := float_of_Z 3 |};
                {| v0 := float_of_Z 4; v1 := float_of_Z 5;
                   v2 := float_of_Z 6 |} ] |}.

(** A 1 x 2 image. *)
Definition two_pixels : Image :=
  {| Width := 2; Height := 1;
     data := [ {| r := float_of_Z 7; g := float_of_Z 8; b := float_of_Z 9;
                  a := float_literal 1 2 |};
               {| r := float_of_Z 0; g := float_of_Z 0; b := float_of_Z 0;
                  a := float_of_Z 1 |} ] |}.

Definition build_without_opencv : BuildConfig :=
  {| OIIO_VERSION_ge_2_0_0 := true; ALICEVISION_HAVE_OPENCV := false |}.

Definition half_scale : ProcessingParams := {|
  reconstructedViewsOnly := false;
  exposureCompensation := false;
  scaleFactor := float_literal 1 2;
  contrast := float_of_Z 1;
  medianFilter := 0;
  fillHoles := false;
  sharpen := sharpen default_ProcessingParams;
  bilateralFilter := bilateralFilter default_ProcessingParams;
  claheFilter := claheFilter default_ProcessingParams
|}.

End MoreExamples.

(* ===================================================================== *)
(** * Part II. Theorems                                                   *)
(* ===================================================================== *)

(** ** Floating-point values: the magnitude of rounded results *)

Section Rounding_facts.
Variables prec emax : Z.
Hypothesis Hprec : (0 < prec)%Z.
Hypothesis Hemax : (2 <= emax)%Z.

Local Open Scope Z_scope.

Lemma digits2_pos_size (p : positive) : digits2_pos p = Pos.size p.
Proof. induction p; simpl; congruence. Qed.

Lemma Zdigits2_log2 (m : Z) : 0 < m -> Zdigits2 m = Z.log2 m + 1.
Proof.
  destruct m as [|p|p]; try lia. intros _. simpl.
  rewrite digits2_pos_size. destruct p; simpl; lia.
Qed.

Lemma Zdigits2_nonneg (m : Z) : 0 <= Zdigits2 m.
Proof. destruct m; simpl; lia. Qed.

Lemma shr_1_m (r : shr_record) :
  0 <= shr_m r -> shr_m (shr_1 r) = shr_m r / 2.
Proof.
  destruct r as [m rb sb]. cbn [shr_m]. intros Hm.
  destruct m as [|[p|p|]|p]; cbn [shr_1 shr_m]; try lia.
  - reflexivity.
  - apply Z.div_unique with 1; lia.
  - apply Z.div_unique with 0; lia.
  - reflexivity.
Qed.

Lemma pow2_xO (p : positive) : 2 ^ Zpos p~0 = 2 ^ Zpos p * 2 ^ Zpos p.
Proof.
  replace (Zpos p~0) with (Zpos p + Zpos p) by lia.
  apply Z.pow_add_r; lia.
Qed.

Lemma pow2_xI (p : positive) : 2 ^ Zpos p~1 = 2 * (2 ^ Zpos p * 2 ^ Zpos p).
Proof.
  replace (Zpos p~1) with (1 + (Zpos p + Zpos p)) by lia.
  rewrite Z.pow_add_r, Z.pow_add_r by lia. reflexivity.
Qed.

Lemma iter_pos_shr_m (p : positive) :
  forall r, 0 <= shr_m r ->
  shr_m (SpecFloat.iter_pos shr_1 p r) = shr_m r / 2 ^ Zpos p.
Proof.
  induction p as [p IH|p IH|]; intros r Hr; cbn [SpecFloat.iter_pos].
  - assert (H1 : 0 <= shr_m (shr_1 r))
      by (rewrite shr_1_m by exact Hr; apply Z.div_pos; lia).
    assert (H2 : 0 <= shr_m (SpecFloat.iter_pos shr_1 p (shr_1 r)))
      by (rewrite IH by exact H1; apply Z.div_pos; lia).
    rewrite IH, IH, shr_1_m by assumption.
    rewrite !Z.div_div by lia. rewrite pow2_xI. reflexivity.
  - assert (H2 : 0 <= shr_m (SpecFloat.iter_pos shr_1 p r))
      by (rewrite IH by exact Hr; apply Z.div_pos; lia).
    rewrite IH, IH by assumption.
    rewrite Z.div_div by lia. rewrite pow2_xO. reflexivity.
  - rewrite shr_1_m by exact Hr. reflexivity.
Qed.

Lemma shr_record_of_loc_m (m : Z) (l : location) :
  shr_m (shr_record_of_loc m l) = m.
Proof. destruct l as [|[]]; reflexivity. Qed.

(** [shr] divides the mantissa by [2^n] and adds [n] to the exponent, for
    [n] positive, and does nothing otherwise. *)
Lemma shr_spec (r : shr_record) (e n : Z) :
  0 <= shr_m r ->
  shr_m (fst (shr r e n)) = shr_m r / 2 ^ Z.max n 0
  /\ snd (shr r e n) = e + Z.max n 0.
Proof.
  intros Hr. destruct n as [|p|p]; cbn [shr fst snd].
  - rewrite Z.max_id. change (2 ^ 0) with 1. rewrite Z.div_1_r. lia.
  - rewrite Z.max_l by lia. split; [apply iter_pos_shr_m, Hr|reflexivity].
  - rewrite Z.max_r by lia. change (2 ^ 0) with 1. rewrite Z.div_1_r. lia.
Qed.

Lemma shr_fexp_spec (m e : Z) (l : location) :
  0 <= m ->
  shr_m (fst (shr_fexp prec emax m e l))
    = m / 2 ^ Z.max (fexp prec emax (Zdigits2 m + e) - e) 0
  /\ snd (shr_fexp prec emax m e l)
     = e + Z.max (fexp prec emax (Zdigits2 m + e) - e) 0.
Proof.
  intros Hm. unfold shr_fexp.
  pose proof (shr_spec (shr_record_of_loc m l) e
                (fexp prec emax (Zdigits2 m + e) - e)) as H.
  rewrite shr_record_of_loc_m in H. exact (H Hm).
Qed.

Lemma round_nearest_even_bounds (m : Z) (l : location) :
  m <= round_nearest_even m l <= m + 1.
Proof.
  destruct l as [|[]]; cbn [round_nearest_even]; try lia.
  destruct (Z.even m); lia.
Qed.

Lemma log2_div_pow2 (m n : Z) :
  0 < m -> 0 <= n <= Z.log2 m ->
  0 < m / 2 ^ n /\ Z.log2 (m / 2 ^ n) = Z.log2 m - n.
Proof.
  intros Hm Hn. split.
  - apply Z.div_str_pos. split; [apply Z.pow_pos_nonneg; lia|].
    apply Z.le_trans with (2 ^ Z.log2 m).
    + apply Z.pow_le_mono_r; lia.
    + apply Z.log2_spec, Hm.
  - rewrite <- Z.shiftr_div_pow2 by lia.
    rewrite Z.log2_shiftr by exact Hm. lia.
Qed.

Lemma log2_div_pow2_le (m n : Z) :
  0 <= m -> 0 <= n -> Zdigits2 (m / 2 ^ n) <= Z.max 0 (Zdigits2 m - n).
Proof.
  intros Hm Hn. destruct (Z.eq_dec m 0) as [->|Hne].
  - rewrite Z.div_0_l by (apply Z.pow_nonzero; lia). simpl. lia.
  - assert (Hpos : 0 < m) by lia.
    destruct (Z.le_gt_cases n (Z.log2 m)) as [Hle|Hgt].
    + destruct (log2_div_pow2 m n Hpos (conj Hn Hle)) as [Hq Hl].
      rewrite !Zdigits2_log2 by assumption. lia.
    + rewrite Z.div_small; [simpl; lia|]. split; [lia|].
      apply Z.lt_le_trans with (2 ^ (Z.log2 m + 1)).
      * apply Z.log2_spec, Hpos.
      * apply Z.pow_le_mono_r; lia.
Qed.

Lemma Zdigits2_succ (m : Z) : 0 <= m -> Zdigits2 (m + 1) <= Zdigits2 m + 1.
Proof.
  intros Hm. destruct (Z.eq_dec m 0) as [->|Hne]; [simpl; lia|].
  rewrite !Zdigits2_log2 by lia.
  pose proof (Z.log2_succ_le m). unfold Z.succ in *. lia.
Qed.

Lemma Zdigits2_mono (a b : Z) : 0 <= a <= b -> Zdigits2 a <= Zdigits2 b.
Proof.
  intros [Ha Hab]. destruct (Z.eq_dec a 0) as [->|Hne].
  - apply Zdigits2_nonneg.
  - rewrite !Zdigits2_log2 by lia.
    pose proof (Z.log2_le_mono a b Hab). lia.
Qed.

(** Rounding a positive value at or above [2^emin] gives an infinity or a
    finite value whose leading bit is not below that of the value. *)
Lemma binary_round_aux_lower (sx : bool) (mx ex : Z) (lx : location) :
  0 < mx -> emin prec emax <= ex + Z.log2 mx ->
  binary_round_aux prec emax sx mx ex lx = S754_infinity sx
  \/ exists m e,
       binary_round_aux prec emax sx mx ex lx = S754_finite sx m e
       /\ ex + Z.log2 mx <= e + Z.log2 (Zpos m).
Proof.
  intros Hmx Hmag. unfold binary_round_aux.
  set (n := fexp prec emax (Zdigits2 mx + ex) - ex).
  pose proof (shr_fexp_spec mx ex lx ltac:(lia)) as H1. fold n in H1.
  destruct (shr_fexp prec emax mx ex lx) as [mrs1 e1].
  cbn [fst snd] in H1. destruct H1 as [Hm1 He1].
  assert (Hn : 0 <= Z.max n 0 <= Z.log2 mx).
  { split; [lia|]. unfold n, fexp. rewrite Zdigits2_log2 by exact Hmx.
    pose proof (Z.log2_nonneg mx). lia. }
  destruct (log2_div_pow2 mx (Z.max n 0) Hmx Hn) as [Hpos1 Hlog1].
  rewrite <- Hm1 in Hpos1, Hlog1.
  (* rounding *)
  set (m1 := round_nearest_even (shr_m mrs1) (loc_of_shr_record mrs1)).
  pose proof (round_nearest_even_bounds (shr_m mrs1) (loc_of_shr_record mrs1))
    as Hrne. fold m1 in Hrne.
  assert (Hm1pos : 0 < m1) by lia.
  assert (Hlog_m1 : Z.log2 (shr_m mrs1) <= Z.log2 m1)
    by (apply Z.log2_le_mono; lia).
  set (n2 := fexp prec emax (Zdigits2 m1 + e1) - e1).
  pose proof (shr_fexp_spec m1 e1 loc_Exact ltac:(lia)) as H2. fold n2 in H2.
  destruct (shr_fexp prec emax m1 e1 loc_Exact) as [mrs2 e2].
  cbn [fst snd] in H2. destruct H2 as [Hm2 He2].
  assert (Hn2 : 0 <= Z.max n2 0 <= Z.log2 m1).
  { split; [lia|]. unfold n2, fexp. rewrite Zdigits2_log2 by exact Hm1pos.
    pose proof (Z.log2_nonneg m1). lia. }
  destruct (log2_div_pow2 m1 (Z.max n2 0) Hm1pos Hn2) as [Hpos2 Hlog2].
  rewrite <- Hm2 in Hpos2, Hlog2.
  destruct (shr_m mrs2) as [|m|m] eqn:E; try lia.
  destruct (e2 <=? emax - prec); [right|left; reflexivity].
  exists m, e2. split; [reflexivity|]. lia.
Qed.

(** Rounding a non-negative value below [2^(emax-1)] gives a zero or a
    finite value. *)
Lemma binary_round_aux_finite (sx : bool) (mx ex : Z) (lx : location) :
  0 <= mx -> Zdigits2 mx + ex <= emax - 1 -> ex <= emax - prec ->
  binary_round_aux prec emax sx mx ex lx = S754_zero sx
  \/ exists m e, binary_round_aux prec emax sx mx ex lx = S754_finite sx m e.
Proof.
  intros Hmx Hmag Hex. unfold binary_round_aux.
  set (n := fexp prec emax (Zdigits2 mx + ex) - ex).
  pose proof (shr_fexp_spec mx ex lx Hmx) as H1. fold n in H1.
  destruct (shr_fexp prec emax mx ex lx) as [mrs1 e1].
  cbn [fst snd] in H1. destruct H1 as [Hm1 He1].
  assert (Hm1nn : 0 <= shr_m mrs1)
    by (rewrite Hm1; apply Z.div_pos; [lia|apply Z.pow_pos_nonneg; lia]).
  assert (Hd1 : Zdigits2 (shr_m mrs1) <= Z.max 0 (Zdigits2 mx - Z.max n 0))
    by (rewrite Hm1; apply log2_div_pow2_le; lia).
  assert (He1b : e1 <= emax - prec).
  { rewrite He1. unfold n, fexp, emin. lia. }
  set (m1 := round_nearest_even (shr_m mrs1) (loc_of_shr_record mrs1)).
  pose proof (round_nearest_even_bounds (shr_m mrs1) (loc_of_shr_record mrs1))
    as Hrne. fold m1 in Hrne.
  assert (Hdm1 : Zdigits2 m1 <= Zdigits2 (shr_m mrs1) + 1).
  { apply Z.le_trans with (Zdigits2 (shr_m mrs1 + 1)).
    - apply Zdigits2_mono. lia.
    - apply Zdigits2_succ, Hm1nn. }
  set (n2 := fexp prec emax (Zdigits2 m1 + e1) - e1).
  pose proof (shr_fexp_spec m1 e1 loc_Exact ltac:(lia)) as H2. fold n2 in H2.
  destruct (shr_fexp prec emax m1 e1 loc_Exact) as [mrs2 e2].
  cbn [fst snd] in H2. destruct H2 as [Hm2 He2].
  assert (Hm2nn : 0 <= shr_m mrs2)
    by (rewrite Hm2; apply Z.div_pos; [lia|apply Z.pow_pos_nonneg; lia]).
  assert (He2b : e2 <= emax - prec).
  { rewrite He2. unfold n2, fexp, emin.
    pose proof (Zdigits2_nonneg mx). lia. }
  destruct (shr_m mrs2) as [|m|m]; try lia.
  - left. reflexivity.
  - right. apply Z.leb_le in He2b. rewrite He2b. eauto.
Qed.

(** The square of a finite value at or above [2^(emin/2)] is an infinity or
    a positive finite value, whose leading bit is not below twice that of
    the value. *)
Lemma SFmul_square_lower (sx : bool) (mx : positive) (ex : Z) :
  emin prec emax <= 2 * (ex + Z.log2 (Zpos mx)) ->
  SFmul prec emax (S754_finite sx mx ex) (S754_finite sx mx ex)
    = S754_infinity false
  \/ exists m e,
       SFmul prec emax (S754_finite sx mx ex) (S754_finite sx mx ex)
         = S754_finite false m e
       /\ 2 * (ex + Z.log2 (Zpos mx)) <= e + Z.log2 (Zpos m).
Proof.
  intros Hmag. cbn [SFmul]. rewrite xorb_nilpotent.
  pose proof (Z.log2_mul_below (Zpos mx) (Zpos mx) ltac:(lia) ltac:(lia))
    as Hlog.
  rewrite Pos2Z.inj_mul.
  destruct (binary_round_aux_lower false (Zpos mx * Zpos mx) (ex + ex)
              loc_Exact ltac:(lia) ltac:(lia)) as [H|(m & e & H & Hle)].
  - left. exact H.
  - right. exists m, e. split; [exact H|lia].
Qed.

(** The product of two positive finite values whose leading bits add up
    to [emin] at least is the positive infinity or a positive finite
    value. *)
Lemma SFmul_lower (mx : positive) (ex : Z) (my : positive) (ey : Z) :
  emin prec emax <= (ex + Z.log2 (Zpos mx)) + (ey + Z.log2 (Zpos my)) ->
  positive_value
    (SFmul prec emax (S754_finite false mx ex) (S754_finite false my ey)).
Proof.
  intros Hmag. cbn [SFmul xorb].
  pose proof (Z.log2_mul_below (Zpos mx) (Zpos my) ltac:(lia) ltac:(lia))
    as Hlog.
  rewrite Pos2Z.inj_mul.
  destruct (binary_round_aux_lower false (Zpos mx * Zpos my) (ex + ey)
              loc_Exact ltac:(lia) ltac:(lia)) as [H|(m & e & H & Hle)];
    rewrite H; exact I.
Qed.

Lemma shift_left_spec (m s : Z) :
  0 <= s ->
  match s with
  | 0 => m
  | Zpos _ => Z.shiftl m s
  | Zneg _ => 0
  end = m * 2 ^ s.
Proof.
  intros Hs. destruct s as [|p|p].
  - change (2 ^ 0) with 1. lia.
  - apply Z.shiftl_mul_pow2. lia.
  - lia.
Qed.

Lemma div_eucl_fst (a b : Z) : fst (Z.div_eucl a b) = a / b.
Proof. unfold Z.div. destruct (Z.div_eucl a b). reflexivity. Qed.

Lemma quotient_digits (a b k : Z) :
  0 <= a -> 0 < b -> a < b * 2 ^ k \/ (k < 0 /\ a < b) ->
  0 <= a / b /\ Zdigits2 (a / b) <= Z.max 0 k.
Proof.
  intros Ha Hb Hk. split; [apply Z.div_pos; lia|].
  destruct Hk as [Hk|[Hk Hab]].
  - destruct (Z.lt_ge_cases k 0) as [Hneg|Hnn].
    + rewrite (Z.pow_neg_r 2 k Hneg) in Hk. lia.
    + assert (Hq : a / b < 2 ^ k)
        by (apply Z.div_lt_upper_bound; [exact Hb|exact Hk]).
      destruct (Z.eq_dec (a / b) 0) as [->|Hne]; [simpl; lia|].
      assert (Hpos : 0 < a / b) by (pose proof (Z.div_pos a b Ha Hb); lia).
      rewrite Zdigits2_log2 by exact Hpos.
      apply Z.log2_lt_pow2 in Hq; [lia|exact Hpos].
  - rewrite Z.div_small by lia. simpl. lia.
Qed.

(** The quotient of two positive finite values whose leading bits are at
    most [emax - 2] apart is a zero or a positive finite value. *)
Lemma SFdiv_finite (m1 : positive) (e1 : Z) (m2 : positive) (e2 : Z) :
  (e1 + Z.log2 (Zpos m1)) - (e2 + Z.log2 (Zpos m2)) <= emax - 2 ->
  SFdiv prec emax (S754_finite false m1 e1) (S754_finite false m2 e2)
    = S754_zero false
  \/ exists m e,
       SFdiv prec emax (S754_finite false m1 e1) (S754_finite false m2 e2)
         = S754_finite false m e.
Proof.
  intros Hmag. cbn [SFdiv xorb]. unfold SFdiv_core_binary.
  rewrite !Zdigits2_log2 by lia.
  set (l1 := Z.log2 (Zpos m1)) in *. set (l2 := Z.log2 (Zpos m2)) in *.
  set (e' := Z.min (fexp prec emax (l1 + 1 + e1 - (l2 + 1 + e2))) (e1 - e2)).
  set (sh := e1 - e2 - e').
  assert (Hsh : 0 <= sh) by (unfold sh, e'; lia).
  set (m' := match sh with
             | 0 => Zpos m1
             | Zpos _ => Z.shiftl (Zpos m1) sh
             | Zneg _ => 0
             end).
  assert (Hm' : m' = Zpos m1 * 2 ^ sh).
  { unfold m'. apply shift_left_spec. exact Hsh. }
  pose proof (div_eucl_fst m' (Zpos m2)) as Hq.
  destruct (Z.div_eucl m' (Zpos m2)) as [q r]. cbn [fst] in Hq. subst q.
  assert (H1 : Zpos m1 < 2 ^ (l1 + 1)) by (apply Z.log2_spec; lia).
  assert (H2 : 2 ^ l2 <= Zpos m2) by (apply Z.log2_spec; lia).
  assert (Hl1 : 0 <= l1) by apply Z.log2_nonneg.
  assert (Hl2 : 0 <= l2) by apply Z.log2_nonneg.
  assert (Hm'nn : 0 <= m')
    by (rewrite Hm'; apply Z.mul_nonneg_nonneg; [lia|apply Z.pow_nonneg; lia]).
  set (k := l1 + 1 + sh - l2).
  destruct (quotient_digits m' (Zpos m2) k Hm'nn ltac:(lia)) as [Hq0 Hqd].
  { destruct (Z.lt_ge_cases k 0) as [Hneg|Hnn].
    - right. split; [exact Hneg|].
      apply Z.lt_le_trans with (2 ^ (l1 + 1 + sh)).
      + rewrite Hm', Z.pow_add_r by lia.
        apply Z.mul_lt_mono_pos_r; [apply Z.pow_pos_nonneg; lia|exact H1].
      + apply Z.le_trans with (2 ^ l2); [|exact H2].
        apply Z.pow_le_mono_r; unfold k in Hneg; lia.
    - left. apply Z.lt_le_trans with (2 ^ l2 * 2 ^ k).
      + rewrite <- Z.pow_add_r by lia.
        replace (l2 + k) with (l1 + 1 + sh) by (unfold k; lia).
        rewrite Hm', Z.pow_add_r by lia.
        apply Z.mul_lt_mono_pos_r; [apply Z.pow_pos_nonneg; lia|exact H1].
      + apply Z.mul_le_mono_nonneg_r; [apply Z.pow_nonneg; lia|exact H2]. }
  apply binary_round_aux_finite; [exact Hq0| |].
  - unfold k, sh in Hqd. unfold e', fexp, emin in *. lia.
  - unfold e', fexp, emin. lia.
Qed.

(** A valid finite value above the subnormal range has a full
    significand. *)
Lemma valid_normal (s : bool) (m : positive) (e : Z) :
  valid_binary prec emax (S754_finite s m e) = true ->
  emin prec emax < e ->
  Z.log2 (Zpos m) = prec - 1.
Proof.
  cbn [valid_binary]. unfold bounded, canonical_mantissa, fexp.
  intros Hv He. apply andb_prop in Hv as [Hc _].
  apply Z.eqb_eq in Hc.
  change (Zpos (digits2_pos m)) with (Zdigits2 (Zpos m)) in Hc.
  rewrite Zdigits2_log2 in Hc by lia. lia.
Qed.

Lemma above_weaken (k k' : Z) (x : spec_float) :
  k' <= k -> above k x -> above k' x.
Proof.
  intros Hk [->|(m & e & -> & He)]; [left; reflexivity|].
  right. exists m, e. split; [reflexivity|lia].
Qed.

(** What is not below a positive finite value is a NaN or above its
    exponent. *)
Lemma SFltb_false_above (mf : positive) (ef : Z) (x : spec_float) :
  SFltb x (S754_finite false mf ef) = false ->
  x = S754_nan \/ above ef x.
Proof.
  unfold SFltb. destruct x as [s|[|]| |[|] m e]; cbn [SFcompare];
    try discriminate.
  - intros _. right. left. reflexivity.
  - intros _. left. reflexivity.
  - destruct (Z.compare_spec e ef) as [->|Hlt|Hgt]; try discriminate.
    + intros _. right. right. exists m, ef. split; [reflexivity|lia].
    + intros _. right. right. exists m, e. split; [reflexivity|lia].
Qed.

Lemma SFleb_above (mf : positive) (ef : Z) (x : spec_float) :
  SFleb (S754_finite false mf ef) x = true -> above ef x.
Proof.
  unfold SFleb. destruct x as [s|[|]| |[|] m e]; cbn [SFcompare];
    try discriminate.
  - intros _. left. reflexivity.
  - destruct (Z.compare_spec ef e) as [->|Hlt|Hgt]; try discriminate.
    + intros _. right. exists m, e. split; [reflexivity|lia].
    + intros _. right. exists m, e. split; [reflexivity|lia].
Qed.

Lemma SFltb_above (k : Z) (a x : spec_float) :
  above k a -> SFltb a x = true -> above k x.
Proof.
  unfold SFltb. intros [->|(ma & ea & -> & Hk)].
  - destruct x as [s|[|]| |s m e]; cbn [SFcompare]; discriminate.
  - destruct x as [s|[|]| |[|] m e]; cbn [SFcompare]; try discriminate.
    + intros _. left. reflexivity.
    + destruct (Z.compare_spec ea e) as [->|Hlt|Hgt]; try discriminate.
      * intros _. right. exists m, e. split; [reflexivity|lia].
      * intros _. right. exists m, e. split; [reflexivity|lia].
Qed.

(** The square of a valid value above [k], for [k] beyond the subnormal
    range and [2 * (k + prec - 1)] within the exponent range, is not a
    zero: it is the positive infinity or a positive finite value whose
    leading bit is at least [2 * (k + prec - 1)]. *)
Lemma SFmul_square_above (k : Z) (x : spec_float) :
  emin prec emax < k ->
  emin prec emax <= 2 * (k + prec - 1) ->
  valid_binary prec emax x = true ->
  above k x ->
  SFmul prec emax x x = S754_infinity false
  \/ exists m e, SFmul prec emax x x = S754_finite false m e
                 /\ 2 * (k + prec - 1) <= e + Z.log2 (Zpos m).
Proof.
  intros Hk Hmag Hv [->|(mx & ex & -> & Hex)]; [left; reflexivity|].
  pose proof (valid_normal false mx ex Hv ltac:(lia)) as Hlog.
  destruct (SFmul_square_lower false mx ex ltac:(lia))
    as [H|(m & e & H & Hle)].
  - left. exact H.
  - right. exists m, e. split; [exact H|lia].
Qed.

(** The inverse of the positive infinity, or of a positive finite value
    whose leading bit is at least [2 - emax], is a zero or a positive
    finite value. *)
Lemma SFdiv_one_finite (m1 : positive) (e1 : Z) (d : spec_float) :
  e1 + Z.log2 (Zpos m1) = 0 ->
  d = S754_infinity false
  \/ (exists m e, d = S754_finite false m e
                  /\ 2 - emax <= e + Z.log2 (Zpos m)) ->
  SFdiv prec emax (S754_finite false m1 e1) d = S754_zero false
  \/ exists m e, SFdiv prec emax (S754_finite false m1 e1) d
                 = S754_finite false m e.
Proof.
  intros H1 [->|(m & e & -> & Hmag)]; [left; reflexivity|].
  apply SFdiv_finite. lia.
Qed.

End Rounding_facts.

(** ** Floating-point values: rounding never passes a value of the
    format *)

Section Rounding_upper.
Variables prec emax : Z.

Local Open Scope Z_scope.

(** One shift moves the lowest bit of the mantissa to the round bit and
    the round bit into the sticky bit. *)
Lemma shr_1_bits (r : shr_record) :
  0 <= shr_m r ->
  shr_r (shr_1 r) = Z.odd (shr_m r)
  /\ shr_s (shr_1 r) = shr_r r || shr_s r.
Proof.
  destruct r as [m rb sb]. cbn [shr_m shr_r shr_s]. intros Hm.
  destruct m as [|[p|p|]|p]; cbn [shr_1 shr_r shr_s]; try lia;
    split; reflexivity.
Qed.

(** A record that holds [M] shifted right by [k] bits, with its round and
    sticky bits off when no bit was lost, keeps that after one more
    shift. *)
Lemma exact_shift_step (M k : Z) (r : shr_record) :
  0 <= M -> 0 <= k ->
  shr_m r = M / 2 ^ k
  /\ (M mod 2 ^ k = 0 -> shr_r r = false /\ shr_s r = false) ->
  shr_m (shr_1 r) = M / 2 ^ (k + 1)
  /\ (M mod 2 ^ (k + 1) = 0 ->
      shr_r (shr_1 r) = false /\ shr_s (shr_1 r) = false).
Proof.
  intros HM Hk [Hm Hbits].
  assert (Hpow : 0 < 2 ^ k) by (apply Z.pow_pos_nonneg; lia).
  assert (Hmnn : 0 <= shr_m r) by (rewrite Hm; apply Z.div_pos; lia).
  destruct (shr_1_bits r Hmnn) as [Hr Hs].
  split.
  - rewrite shr_1_m by exact Hmnn. rewrite Hm, Z.div_div by lia.
    rewrite Z.pow_add_r by lia. reflexivity.
  - intros Hmod. rewrite Z.pow_add_r in Hmod by lia.
    change (2 ^ 1) with 2 in Hmod.
    apply Z.mod_divide in Hmod; [|lia]. destruct Hmod as [c Hc].
    assert (Hmodk : M mod 2 ^ k = 0).
    { apply Z.mod_divide; [lia|]. exists (c * 2). lia. }
    destruct (Hbits Hmodk) as [Hrb Hsb].
    rewrite Hr, Hs, Hrb, Hsb, Hm. split; [|reflexivity].
    replace M with (c * 2 * 2 ^ k) by lia.
    rewrite Z.div_mul by lia.
    rewrite Z.odd_mul. cbn. apply andb_false_r.
Qed.

Lemma exact_shift_iter (M : Z) (p : positive) :
  0 <= M ->
  forall (k : Z) (r : shr_record), 0 <= k ->
  shr_m r = M / 2 ^ k
  /\ (M mod 2 ^ k = 0 -> shr_r r = false /\ shr_s r = false) ->
  shr_m (SpecFloat.iter_pos shr_1 p r) = M / 2 ^ (k + Zpos p)
  /\ (M mod 2 ^ (k + Zpos p) = 0 ->
      shr_r (SpecFloat.iter_pos shr_1 p r) = false
      /\ shr_s (SpecFloat.iter_pos shr_1 p r) = false).
Proof.
  intros HM. induction p as [p IH|p IH|]; intros k r Hk H;
    cbn [SpecFloat.iter_pos].
  - replace (k + Zpos p~1) with (((k + 1) + Zpos p) + Zpos p) by lia.
    apply IH; [lia|]. apply IH; [lia|].
    apply exact_shift_step; assumption.
  - replace (k + Zpos p~0) with ((k + Zpos p) + Zpos p) by lia.
    apply IH; [lia|]. apply IH; assumption.
  - apply exact_shift_step; assumption.
Qed.

(** The first shift of [binary_round_aux] on an exact value. *)
Lemma shr_fexp_exact (M E : Z) :
  0 <= M ->
  let n := Z.max (fexp prec emax (Zdigits2 M + E) - E) 0 in
  shr_m (fst (shr_fexp prec emax M E loc_Exact)) = M / 2 ^ n
  /\ (M mod 2 ^ n = 0 ->
      loc_of_shr_record (fst (shr_fexp prec emax M E loc_Exact)) = loc_Exact)
  /\ snd (shr_fexp prec emax M E loc_Exact) = E + n.
Proof.
  intros HM n. unfold shr_fexp. fold n.
  assert (Hbase : shr_m (shr_record_of_loc M loc_Exact) = M / 2 ^ 0
                  /\ (M mod 2 ^ 0 = 0 ->
                      shr_r (shr_record_of_loc M loc_Exact) = false
                      /\ shr_s (shr_record_of_loc M loc_Exact) = false)).
  { cbn. rewrite Z.div_1_r. auto. }
  unfold n.
  destruct (fexp prec emax (Zdigits2 M + E) - E) as [|p|p] eqn:En;
    cbn [shr fst snd].
  - rewrite Z.max_id. destruct Hbase as [Hm Hb]. split; [exact Hm|].
    split; [|lia]. intros Hmod. cbn. reflexivity.
  - rewrite Z.max_l by lia.
    destruct (exact_shift_iter M p HM 0 _ ltac:(lia) Hbase) as [Hm Hb].
    rewrite Z.add_0_l in Hm, Hb. split; [exact Hm|]. split; [|reflexivity].
    intros Hmod. destruct (Hb Hmod) as [Hr Hs].
    destruct (SpecFloat.iter_pos shr_1 p (shr_record_of_loc M loc_Exact))
      as [m rb sb]. cbn in Hr, Hs. subst. reflexivity.
  - rewrite Z.max_r by lia. destruct Hbase as [Hm Hb]. split; [exact Hm|].
    split; [|lia]. intros Hmod. cbn. reflexivity.
Qed.

Lemma Zdigits2_mul_pow2 (m k : Z) :
  0 < m -> 0 <= k -> Zdigits2 (m * 2 ^ k) = Zdigits2 m + k.
Proof.
  intros Hm Hk.
  assert (0 < m * 2 ^ k) by (apply Z.mul_pos_pos; [lia|apply Z.pow_pos_nonneg; lia]).
  rewrite !Zdigits2_log2 by assumption.
  rewrite Z.log2_mul_pow2 by lia. lia.
Qed.

(** Rounding a positive value [M * 2^E] that is at most a value
    [my * 2^ey] of the format gives a zero or a finite value that is at
    most [my * 2^ey] as well. *)
Lemma binary_round_aux_upper (sx : bool) (M E : Z) (my : positive) (ey : Z) :
  0 < M ->
  fexp prec emax (Zdigits2 (Zpos my) + ey) = ey ->
  ey <= emax - prec ->
  E <= ey ->
  M <= Zpos my * 2 ^ (ey - E) ->
  binary_round_aux prec emax sx M E loc_Exact = S754_zero sx
  \/ exists m e,
       binary_round_aux prec emax sx M E loc_Exact = S754_finite sx m e
       /\ e <= ey /\ Zpos m <= Zpos my * 2 ^ (ey - e).
Proof.
  intros HM Hcan Hbnd HE Hle. unfold binary_round_aux.
  pose proof (shr_fexp_exact M E ltac:(lia)) as H1. cbn zeta in H1.
  set (n1 := Z.max (fexp prec emax (Zdigits2 M + E) - E) 0) in H1.
  destruct (shr_fexp prec emax M E loc_Exact) as [r1 e1].
  cbn [fst snd] in H1. destruct H1 as (Hq & Hexact & He1).
  assert (Hn1 : 0 <= n1) by (unfold n1; lia).
  assert (Hdig : Zdigits2 M <= Zdigits2 (Zpos my) + (ey - E)).
  { rewrite <- Zdigits2_mul_pow2 by lia. apply Zdigits2_mono. lia. }
  assert (He1le : e1 <= ey).
  { rewrite He1. unfold n1. unfold fexp in *. lia. }
  set (B := Zpos my * 2 ^ (ey - e1)).
  assert (Hpow1 : 0 < 2 ^ n1) by (apply Z.pow_pos_nonneg; lia).
  assert (HB : Zpos my * 2 ^ (ey - E) = B * 2 ^ n1).
  { unfold B. rewrite <- Z.mul_assoc, <- Z.pow_add_r by lia.
    f_equal. f_equal. lia. }
  assert (HBpos : 0 < B)
    by (unfold B; apply Z.mul_pos_pos; [lia|apply Z.pow_pos_nonneg; lia]).
  assert (Hqnn : 0 <= shr_m r1) by (rewrite Hq; apply Z.div_pos; lia).
  set (m1 := round_nearest_even (shr_m r1) (loc_of_shr_record r1)).
  assert (Hm1 : shr_m r1 <= m1 <= B).
  { pose proof (round_nearest_even_bounds (shr_m r1) (loc_of_shr_record r1))
      as Hrne. fold m1 in Hrne. split; [lia|].
    assert (HqB : shr_m r1 <= B).
    { rewrite Hq. apply Z.div_le_upper_bound; [lia|]. lia. }
    destruct (Z.eq_dec (shr_m r1) B) as [Heq|Hne]; [|lia].
    assert (Hmod : M mod 2 ^ n1 = 0).
    { pose proof (Z.div_mod M (2 ^ n1) ltac:(lia)) as Hdm.
      pose proof (Z.mod_pos_bound M (2 ^ n1) Hpow1) as Hmb.
      rewrite <- Hq, Heq in Hdm. lia. }
    unfold m1. rewrite (Hexact Hmod). cbn. lia. }
  pose proof (shr_fexp_spec prec emax m1 e1 loc_Exact ltac:(lia)) as H2.
  set (n2 := Z.max (fexp prec emax (Zdigits2 m1 + e1) - e1) 0) in H2.
  destruct (shr_fexp prec emax m1 e1 loc_Exact) as [r2 e2].
  cbn [fst snd] in H2. destruct H2 as [Hm2 He2].
  assert (Hn2 : 0 <= n2) by (unfold n2; lia).
  assert (Hdig1 : Zdigits2 m1 <= Zdigits2 (Zpos my) + (ey - e1)).
  { rewrite <- Zdigits2_mul_pow2 by lia. apply Zdigits2_mono. fold B. lia. }
  assert (He2le : e2 <= ey).
  { rewrite He2. unfold n2. unfold fexp in *. lia. }
  assert (Hpow2 : 0 < 2 ^ n2) by (apply Z.pow_pos_nonneg; lia).
  assert (HB2 : B = Zpos my * 2 ^ (ey - e2) * 2 ^ n2).
  { unfold B. rewrite <- Z.mul_assoc, <- Z.pow_add_r by lia.
    f_equal. f_equal. lia. }
  assert (Hm2le : shr_m r2 <= Zpos my * 2 ^ (ey - e2)).
  { rewrite Hm2. apply Z.div_le_upper_bound; [lia|]. lia. }
  assert (Hm2nn : 0 <= shr_m r2) by (rewrite Hm2; apply Z.div_pos; lia).
  destruct (shr_m r2) as [|m|m]; try lia.
  - left. reflexivity.
  - right. assert (Hb : (e2 <=? emax - prec) = true) by (apply Z.leb_le; lia).
    rewrite Hb. exists m, e2. split; [reflexivity|]. split; assumption.
Qed.

(** The mantissa of a valid finite value has at most [prec] bits, and its
    exponent is the one of the format. *)
Lemma valid_canonical (s : bool) (m : positive) (e : Z) :
  valid_binary prec emax (S754_finite s m e) = true ->
  fexp prec emax (Zdigits2 (Zpos m) + e) = e
  /\ e <= emax - prec
  /\ Zpos m < 2 ^ prec.
Proof.
  cbn [valid_binary]. unfold bounded, canonical_mantissa.
  intros Hv. apply andb_prop in Hv as [Hc Hb].
  apply Z.eqb_eq in Hc. apply Z.leb_le in Hb.
  change (Zpos (digits2_pos m)) with (Zdigits2 (Zpos m)) in Hc.
  split; [exact Hc|]. split; [exact Hb|].
  apply Z.log2_lt_pow2; [lia|].
  rewrite Zdigits2_log2 in Hc by lia. unfold fexp in Hc. lia.
Qed.

(** The product of a valid positive finite value and a positive finite
    factor that is at most one is a zero or a positive finite value that
    is at most the first operand. *)
Lemma SFmul_le_left (mx : positive) (ex : Z) (ms : positive) (es : Z) :
  valid_binary prec emax (S754_finite false mx ex) = true ->
  es <= 0 -> Zpos ms <= 2 ^ (- es) ->
  SFmul prec emax (S754_finite false mx ex) (S754_finite false ms es)
    = S754_zero false
  \/ exists m e,
       SFmul prec emax (S754_finite false mx ex) (S754_finite false ms es)
         = S754_finite false m e
       /\ e <= ex /\ Zpos m <= Zpos mx * 2 ^ (ex - e).
Proof.
  intros Hv Hes Hms. destruct (valid_canonical _ _ _ Hv) as (Hc & Hb & _).
  cbn [SFmul xorb]. rewrite Pos2Z.inj_mul.
  apply binary_round_aux_upper; try assumption; try lia.
  replace (ex - (ex + es)) with (- es) by lia.
  apply Z.mul_le_mono_nonneg_l; lia.
Qed.

Lemma iter_xO_pow2 (m d : positive) :
  Zpos (Pos.iter xO m d) = Zpos m * 2 ^ Zpos d.
Proof.
  rewrite (Pos.iter_swap_gen _ _ Zpos xO (Z.mul 2)) by reflexivity.
  change (Pos.iter (Z.mul 2) (Zpos m) d) with (Z.shiftl (Zpos m) (Zpos d)).
  apply Z.shiftl_mul_pow2. lia.
Qed.

(** [shl_align] keeps the value and lowers the exponent to the target
    when that is below. *)
Lemma shl_align_spec (mx : positive) (ex ex' : Z) :
  let d := Z.max (ex - ex') 0 in
  Zpos (fst (shl_align mx ex ex')) = Zpos mx * 2 ^ d
  /\ snd (shl_align mx ex ex') = ex - d.
Proof.
  unfold shl_align. destruct (ex' - ex) as [|p|p] eqn:E; cbn [fst snd].
  - replace (Z.max (ex - ex') 0) with 0 by lia.
    change (2 ^ 0) with 1. lia.
  - replace (Z.max (ex - ex') 0) with 0 by lia.
    change (2 ^ 0) with 1. lia.
  - replace (Z.max (ex - ex') 0) with (Zpos p) by lia.
    split; [apply iter_xO_pow2|lia].
Qed.

(** Normalising a positive value [mx * 2^ex] that is at most a value
    [my * 2^ey] of the format gives a zero or a finite value that is at
    most [my * 2^ey] as well. *)
Lemma binary_round_upper (sx : bool) (mx : positive) (ex : Z)
    (my : positive) (ey : Z) :
  fexp prec emax (Zdigits2 (Zpos my) + ey) = ey ->
  ey <= emax - prec ->
  ex <= ey ->
  Zpos mx <= Zpos my * 2 ^ (ey - ex) ->
  binary_round prec emax sx mx ex = S754_zero sx
  \/ exists m e,
       binary_round prec emax sx mx ex = S754_finite sx m e
       /\ e <= ey /\ Zpos m <= Zpos my * 2 ^ (ey - e).
Proof.
  intros Hcan Hbnd Hex Hle. unfold binary_round.
  pose proof (shl_align_spec mx ex
                (fexp prec emax (Zpos (digits2_pos mx) + ex))) as Hal.
  cbn zeta in Hal.
  set (d := Z.max (ex - fexp prec emax (Zpos (digits2_pos mx) + ex)) 0)
    in Hal.
  destruct (shl_align mx ex (fexp prec emax (Zpos (digits2_pos mx) + ex)))
    as [mz ez]. cbn [fst snd] in Hal. destruct Hal as [Hmz Hez].
  assert (Hd : 0 <= d) by (unfold d; lia).
  apply binary_round_aux_upper; try assumption; try lia.
  rewrite Hmz, Hez. replace (ey - (ex - d)) with ((ey - ex) + d) by lia.
  rewrite Z.pow_add_r, Z.mul_assoc by lia.
  apply Z.mul_le_mono_nonneg_r; [apply Z.pow_nonneg; lia|exact Hle].
Qed.

(** The difference of a valid positive finite value and a positive
    finite value that is at most the first is a zero or a positive finite
    value that is at most the first. *)
Lemma SFsub_le_left (mx : positive) (ex : Z) (m : positive) (e : Z) :
  valid_binary prec emax (S754_finite false mx ex) = true ->
  e <= ex -> Zpos m <= Zpos mx * 2 ^ (ex - e) ->
  SFsub prec emax (S754_finite false mx ex) (S754_finite false m e)
    = S754_zero false
  \/ exists m' e',
       SFsub prec emax (S754_finite false mx ex) (S754_finite false m e)
         = S754_finite false m' e'
       /\ e' <= ex /\ Zpos m' <= Zpos mx * 2 ^ (ex - e').
Proof.
  intros Hv He Hm. destruct (valid_canonical _ _ _ Hv) as (Hc & Hb & _).
  cbn [SFsub cond_Zopp]. rewrite Z.min_r by exact He.
  destruct (shl_align_spec mx ex e) as [Hx _].
  destruct (shl_align_spec m e e) as [Hy _].
  rewrite Hx, Hy. rewrite Z.sub_diag, Z.max_id.
  change (2 ^ 0) with 1. rewrite Z.mul_1_r.
  rewrite Z.max_l by lia.
  destruct (Zpos mx * 2 ^ (ex - e) - Zpos m) as [|D|D] eqn:ED; try lia.
  - left. reflexivity.
  - cbn [binary_normalize].
    apply binary_round_upper; try assumption. lia.
Qed.

End Rounding_upper.

Section Rounding_exact.
Variables prec emax : Z.
Hypothesis Hprec : (0 < prec)%Z.
Hypothesis Hemax : (prec <= emax)%Z.
Hypothesis Hemax2 : (2 <= emax)%Z.

Local Open Scope Z_scope.

(** Rounding a value of the format gives that value. *)
Lemma binary_round_aux_canonical (sx : bool) (m : positive) (e : Z) :
  fexp prec emax (Zdigits2 (Zpos m) + e) = e ->
  e <= emax - prec ->
  binary_round_aux prec emax sx (Zpos m) e loc_Exact = S754_finite sx m e.
Proof.
  intros Hc Hb. unfold binary_round_aux, shr_fexp.
  rewrite Hc, Z.sub_diag. cbn [shr shr_record_of_loc shr_m loc_of_shr_record
                               round_nearest_even].
  rewrite Hc, Z.sub_diag. cbn [shr shr_record_of_loc shr_m].
  apply Z.leb_le in Hb. rewrite Hb. reflexivity.
Qed.

(** The conversion of a positive integer below [2^prec] is exact: the
    result is a value of the format whose exponent is at most zero and
    whose mantissa is the integer shifted left. *)
Lemma binary_normalize_exact (z : Z) :
  0 < z < 2 ^ prec ->
  exists m e,
    binary_normalize prec emax z 0 false = S754_finite false m e
    /\ valid_binary prec emax (S754_finite false m e) = true
    /\ e <= 0 /\ Zpos m = z * 2 ^ (- e).
Proof.
  intros [Hz Hlt]. destruct z as [|p|p]; try lia.
  cbn [binary_normalize]. unfold binary_round.
  change (Zpos (digits2_pos p)) with (Zdigits2 (Zpos p)).
  pose proof (shl_align_spec p 0 (fexp prec emax (Zdigits2 (Zpos p) + 0)))
    as Hal. cbn zeta in Hal.
  set (d := Z.max (0 - fexp prec emax (Zdigits2 (Zpos p) + 0)) 0) in Hal.
  destruct (shl_align p 0 (fexp prec emax (Zdigits2 (Zpos p) + 0)))
    as [mz ez]. cbn [fst snd] in Hal. destruct Hal as [Hmz Hez].
  assert (Hd : 0 <= d) by (unfold d; lia).
  assert (Hdig : Zdigits2 (Zpos p) <= prec).
  { rewrite Zdigits2_log2 by lia.
    apply Z.log2_lt_pow2 in Hlt; lia. }
  assert (Hpnn : 0 <= Z.log2 (Zpos p)) by apply Z.log2_nonneg.
  assert (Hcan : fexp prec emax (Zdigits2 (Zpos mz) + ez) = ez).
  { rewrite Hmz, Zdigits2_mul_pow2 by lia. rewrite Hez.
    unfold d, fexp, emin in *.
    rewrite Zdigits2_log2 in * by lia. lia. }
  assert (Hb : ez <= emax - prec) by lia.
  exists mz, ez. split; [apply binary_round_aux_canonical; assumption|].
  split.
  - cbn [valid_binary]. unfold bounded, canonical_mantissa.
    change (Zpos (digits2_pos mz)) with (Zdigits2 (Zpos mz)).
    rewrite Hcan, Z.eqb_refl. apply Z.leb_le in Hb. rewrite Hb. reflexivity.
  - split; [lia|]. rewrite Hmz. f_equal. f_equal. lia.
Qed.

End Rounding_exact.

(** *** The integral part of a finite value *)

Lemma truncate_le (m : positive) (e : Z) (w : Z) :
  (e <= 0)%Z -> (0 <= w)%Z -> (Zpos m <= w * 2 ^ (- e))%Z ->
  (truncate (S754_finite false m e) <= w)%Z.
Proof.
  intros He Hw Hm. cbn [truncate].
  destruct (Z.leb_spec 0 e) as [H0|H0].
  - replace e with 0%Z in * by lia. change (2 ^ 0)%Z with 1%Z in *.
    change (2 ^ (- 0))%Z with 1%Z in Hm. lia.
  - apply Z.div_le_upper_bound; [apply Z.pow_pos_nonneg; lia|].
    rewrite Z.mul_comm. exact Hm.
Qed.

Lemma truncate_exact (m : positive) (e : Z) (w : Z) :
  (e <= 0)%Z -> Zpos m = (w * 2 ^ (- e))%Z ->
  truncate (S754_finite false m e) = w.
Proof.
  intros He Hm. cbn [truncate].
  destruct (Z.leb_spec 0 e) as [H0|H0].
  - replace e with 0%Z in * by lia. change (2 ^ 0)%Z with 1%Z.
    change (2 ^ (- 0))%Z with 1%Z in Hm. lia.
  - rewrite Hm. apply Z.div_mul.
    apply Z.pow_nonzero; lia.
Qed.

(** *** The two floors of [computeWeights] in binary64 *)

Lemma std_max_valid (eps x : double) :
  is_double eps = true -> is_double x = true ->
  is_double (std_max eps x) = true.
Proof. intros He Hx. unfold std_max. destruct (flt eps x); assumption. Qed.

Lemma std_max_above (k : Z) (eps x : double) :
  above k eps -> above k (std_max eps x).
Proof.
  intros He. unfold std_max, flt. destruct (SFltb eps x) eqn:E; [|exact He].
  exact (SFltb_above k eps x He E).
Qed.

Lemma std_max_nan (x : double) : std_max S754_nan x = S754_nan.
Proof. reflexivity. Qed.

Lemma std_pow_2 (x : double) : std_pow x 2 = fmul x x.
Proof. reflexivity. Qed.

(** With [eps] a NaN or at least [2^-537], the square of
    [max(eps, x)] is not a zero. *)
Lemma square_floor_nonzero (eps x : double) :
  is_double eps = true -> is_double x = true ->
  flt eps square_floor = false ->
  ~ is_zero (std_pow (std_max eps x) 2).
Proof.
  intros He Hx Hfloor. rewrite std_pow_2.
  destruct (SFltb_false_above _ _ _ Hfloor) as [->|Habove].
  - rewrite std_max_nan. cbn. tauto.
  - destruct (SFmul_square_above 53 1024 ltac:(lia) (-589)%Z (std_max eps x)
                ltac:(reflexivity) ltac:(vm_compute; discriminate)
                (std_max_valid eps x He Hx)
                (std_max_above (-589)%Z eps x Habove))
      as [H|(m & e & H & _)];
      unfold fmul; rewrite H; cbn; tauto.
Qed.

(** With [eps] at least [2^-511], the inverse of that square is a
    non-negative real number. *)
Lemma inverse_floor_nonneg (eps x : double) :
  is_double eps = true -> is_double x = true ->
  fle inverse_floor eps = true ->
  nonneg_real (fdiv (double_of_Z 1) (std_pow (std_max eps x) 2)).
Proof.
  intros He Hx Hfloor. rewrite std_pow_2.
  pose proof (SFleb_above _ _ _ Hfloor) as Habove.
  assert (Hd : fmul (std_max eps x) (std_max eps x) = S754_infinity false
               \/ exists m e, fmul (std_max eps x) (std_max eps x)
                              = S754_finite false m e
                              /\ (2 - 1024 <= e + Z.log2 (Zpos m))%Z).
  { destruct (SFmul_square_above 53 1024 ltac:(lia) (-563)%Z (std_max eps x)
                ltac:(reflexivity) ltac:(vm_compute; discriminate)
                (std_max_valid eps x He Hx)
                (std_max_above (-563)%Z eps x Habove))
      as [H|(m & e & H & Hmag)].
    - left. exact H.
    - right. exists m, e. split; [exact H|lia]. }
  change (double_of_Z 1) with (S754_finite false 4503599627370496 (-52)).
  destruct (SFdiv_one_finite 53 1024 ltac:(lia) ltac:(lia)
              4503599627370496 (-52)
              (fmul (std_max eps x) (std_max eps x)) ltac:(reflexivity) Hd)
    as [H|(m & e & H)];
    unfold fdiv; rewrite H; exact I.
Qed.

(** ** [LineKernelLoRansac]: [computeWeights] and [FitLS] *)

Section LineKernelLoRansac_facts.
Import LineKernelLoRansac WeightClaims.
Context `{K : LineKernel}.

Lemma length_resize (v : list double) (n : nat) : length (resize v n) = n.
Proof.
  unfold resize. rewrite length_app, length_take, length_replicate. lia.
Qed.

(** One round of the loop writes the weight of [inliers[sample]] at
    [sample] and nothing else. *)
Lemma computeWeights_body_insert (model : Model) (inliers : list nat)
    (eps : double) (w : list double) (sample : nat) :
  sample < length w ->
  computeWeights_body model inliers eps w sample
    = <[sample := inverseSquareWeight model eps (inliers !!! sample)]> w.
Proof.
  intros Hlt. unfold computeWeights_body, inverseSquareWeight, weightDivisor.
  rewrite list_lookup_total_insert_eq by exact Hlt.
  apply list_insert_insert_eq.
Qed.

(** After [k] rounds the first [k] cells hold the weights and the others
    are untouched. *)
Lemma computeWeights_loop (model : Model) (inliers : list nat)
    (eps : double) (w : list double) (k : nat) :
  length w = length inliers ->
  k <= length inliers ->
  foldl (computeWeights_body model inliers eps) w (seq 0 k)
    = (inverseSquareWeight model eps <$> take k inliers) ++ drop k w.
Proof.
  intros Hlen. induction k as [|k IH]; intros Hk.
  - simpl. rewrite drop_0. reflexivity.
  - rewrite seq_S, foldl_app, IH by lia. simpl.
    assert (Hin : is_Some (inliers !! k)) by (apply lookup_lt_is_Some; lia).
    destruct Hin as [idx Hidx].
    assert (Hw : is_Some (w !! k)) by (apply lookup_lt_is_Some; lia).
    destruct Hw as [x Hx].
    rewrite computeWeights_body_insert
      by (rewrite length_app, length_fmap, length_take, length_drop; lia).
    rewrite (take_S_r _ _ _ Hidx), fmap_app. simpl.
    rewrite (list_lookup_total_correct _ _ _ Hidx).
    rewrite (drop_S _ _ _ Hx).
    replace k with (length (inverseSquareWeight model eps <$> take k inliers) + 0)
      at 1 by (rewrite length_fmap, length_take; lia).
    rewrite insert_app_r. simpl. rewrite <- app_assoc. reflexivity.
Qed.

(** [computeWeights] is the map of the weight function over the inlier
    list, whatever [vec_weights] held before. *)
Lemma computeWeights_map (model : Model) (inliers : list nat)
    (vec_weights : list double) (eps : double) :
  computeWeights model inliers vec_weights eps
    = inverseSquareWeight model eps <$> inliers.
Proof.
  unfold computeWeights.
  rewrite computeWeights_loop by (rewrite ?length_resize; lia).
  rewrite firstn_all, drop_ge by (rewrite length_resize; lia).
  apply app_nil_r.
Qed.

(** C1 (amended). For every model, inlier list, previous content of the
    weight vector and [eps] that is a NaN or at least [2^-537] (the default
    [0.001] and the positive infinity are), [computeWeights] gives each
    inlier [idx] the binary64 weight [1 / max(eps, Error(idx, model))^2],
    the floor being applied before squaring, and no divisor is a zero. *)
Theorem computeWeights_inverse_square (model : Model) (inliers : list nat)
    (vec_weights : list double) (eps : double) :
  is_double eps = true ->
  forallb (fun idx => is_double (Error idx model)) inliers = true ->
  flt eps square_floor = false ->
  inverse_square_weights model inliers vec_weights eps.
Proof.
  intros Heps Herr Hfloor. split; [apply computeWeights_map|].
  apply Forall_forall. intros idx Hin. unfold weightDivisor.
  apply square_floor_nonzero; [exact Heps| |exact Hfloor].
  apply (proj1 (forallb_forall _ _) Herr), list_elem_of_In, Hin.
Qed.

(** C5 (amended). For every model, inlier list, previous content of the
    weight vector and [eps] that is at least [2^-511] (the default [0.001]
    and the positive infinity are), the weight vector that [computeWeights]
    leaves has the length of the inlier list and each of its entries is a
    non-negative real number: a zero or a positive finite binary64
    value. *)
Theorem computeWeights_nonneg (model : Model) (inliers : list nat)
    (vec_weights : list double) (eps : double) :
  is_double eps = true ->
  forallb (fun idx => is_double (Error idx model)) inliers = true ->
  fle inverse_floor eps = true ->
  nonneg_weight_vector model inliers vec_weights eps.
Proof.
  intros Heps Herr Hfloor.
  unfold nonneg_weight_vector. rewrite computeWeights_map. split.
  - apply length_fmap.
  - apply Forall_fmap, Forall_forall. intros idx Hin.
    unfold compose, inverseSquareWeight, weightDivisor.
    apply inverse_floor_nonneg; [exact Heps| |exact Hfloor].
    apply (proj1 (forallb_forall _ _) Herr), list_elem_of_In, Hin.
Qed.

(** The length part of C5 needs no assumption on [eps]. *)
Lemma computeWeights_length (model : Model) (inliers : list nat)
    (vec_weights : list double) (eps : double) :
  length (computeWeights model inliers vec_weights eps) = length inliers.
Proof. rewrite computeWeights_map. apply length_fmap. Qed.

(** C6. Whenever [FitLS] is called with at least [MINIMUM_LSSAMPLES]
    indices, its assertion holds: the call returns the solver's lines, the
    weighted solver's when weights are given. *)
Theorem FitLS_assertion_holds (samples : list nat) (lines : list Vec2)
    (weights : option (list double)) :
  MINIMUM_LSSAMPLES <= length samples ->
  FitLS samples lines weights <> Err AssertionFailed
  /\ FitLS samples lines weights
     = Ok (match weights with
           | Some w => SolveWeightedLS (ExtractColumns xs_ samples) lines w
           | None => Solve (ExtractColumns xs_ samples) lines
           end).
Proof.
  intros Hlen. unfold FitLS.
  assert (E : (MINIMUM_SAMPLES <=? length samples)%nat = true).
  { apply Nat.leb_le. unfold MINIMUM_SAMPLES, MINIMUM_LSSAMPLES in *. lia. }
  rewrite E. simpl. destruct weights; split; congruence.
Qed.

End LineKernelLoRansac_facts.

(** ** The constants of the two test cases *)

Section LineFittingTest_facts.
Import LineFittingTest.

(** Without noise both assertions hold, [300 - 300 * 0.3] is [210] and
    the threshold is [0.3]. *)
Example lineFittingTest_ideal :
  lineFittingTest 300 (double_literal 3 10) (double_of_Z 0)
  = Ok {| withNoise := false; expectedInliers := 210;
          threshold := double_literal 3 10 |}.
Proof. vm_compute. reflexivity. Qed.

(** With a noise of [0.01] the threshold is [3 * 0.01], which is the
    [double] nearest to [0.03]. *)
Example lineFittingTest_real :
  lineFittingTest 300 (double_literal 3 10) (double_literal 1 100)
  = Ok {| withNoise := true; expectedInliers := 210;
          threshold := double_literal 3 100 |}.
Proof. vm_compute. reflexivity. Qed.

(** The product and the difference round before the fraction is
    dropped: [100 - 100 * 0.55] gives [44] and [10 - 10 * 0.1] gives
    [9]. *)
Example lineFittingTest_rounding :
  lineFittingTest 100 (double_literal 55 100) (double_of_Z 0)
  = Ok {| withNoise := false; expectedInliers := 44;
          threshold := double_literal 3 10 |}
  /\ lineFittingTest 10 (double_literal 1 10) (double_of_Z 0)
     = Ok {| withNoise := false; expectedInliers := 9;
             threshold := double_literal 3 10 |}.
Proof. split; vm_compute; reflexivity. Qed.

(** An outlier ratio of [1], a negative noise level and a NaN in either
    place fail the assertions. *)
Example lineFittingTest_asserts :
  lineFittingTest 300 (double_of_Z 1) (double_of_Z 0) = Err AssertionFailed
  /\ lineFittingTest 300 (double_literal 3 10) (double_of_Z (-1))
     = Err AssertionFailed
  /\ lineFittingTest 300 S754_nan (double_of_Z 0) = Err AssertionFailed
  /\ lineFittingTest 300 (double_literal 3 10) S754_nan
     = Err AssertionFailed.
Proof. repeat split; vm_compute; reflexivity. Qed.

End LineFittingTest_facts.

(** ** The image pipeline: [processImage] *)

Section ImageProcessing_facts.
Import ImageProcessing ImageClaims.
Context `{Cfg : BuildConfig} `{Oiio : ImageBufAlgo} `{Cv : OpenCV}.

Lemma for_each_index_invariant {S : Type} (P : S -> Prop) (idxs : list nat)
    (body : nat -> S -> result S) :
  (forall i s s', P s -> body i s = Ok s' -> P s') ->
  forall s s', P s -> for_each_index idxs body s = Ok s' -> P s'.
Proof.
  intros Hbody. induction idxs as [|i rest IH]; intros s s' Hs Hrun.
  - simpl in Hrun. congruence.
  - simpl in Hrun. destruct (body i s) as [s1|e] eqn:E; simpl in Hrun.
    + apply (IH s1 s'); [|exact Hrun]. eapply Hbody; eassumption.
    + discriminate.
Qed.

Lemma for_each_index_total {S : Type} (P : S -> Prop) (idxs : list nat)
    (body : nat -> S -> result S) :
  (forall i s, i ∈ idxs -> P s -> exists s', body i s = Ok s' /\ P s') ->
  forall s, P s -> exists s', for_each_index idxs body s = Ok s' /\ P s'.
Proof.
  induction idxs as [|i rest IH]; intros Hbody s Hs.
  - exists s. split; [reflexivity|exact Hs].
  - destruct (Hbody i s) as (s1 & E & Hs1); [left|exact Hs|].
    destruct (IH (fun j t Hj => Hbody j t (list_elem_of_further _ _ _ Hj)) s1 Hs1)
      as (s' & Hrun & Hs').
    exists s'. split; [|exact Hs']. simpl. rewrite E. exact Hrun.
Qed.

(** Writing a pixel that carries the alpha already stored at its position
    changes neither the size nor the alpha plane. *)
Lemma Image_set_same_alpha (img img' : Image) (row col : nat)
    (old px : RGBAfColor) :
  Image_at img row col = Ok old ->
  a px = a old ->
  Image_set img row col px = Ok img' ->
  same_alpha img img'.
Proof.
  unfold Image_at, Image_set, same_alpha, alpha_channel.
  intros Hat Ha Hset.
  destruct (data img !! (row * Width img + col)) as [o|] eqn:E;
    simpl in Hat; [|discriminate].
  injection Hat as ->.
  destruct (row * Width img + col <? length (data img))%nat; [|discriminate].
  injection Hset as <-. simpl. repeat split.
  rewrite list_fmap_insert. apply list_insert_id.
  rewrite list_lookup_fmap, E, Ha. reflexivity.
Qed.

Lemma same_alpha_refl (img : Image) : same_alpha img img.
Proof. repeat split. Qed.

Lemma same_alpha_trans (i1 i2 i3 : Image) :
  same_alpha i1 i2 -> same_alpha i2 i3 -> same_alpha i1 i3.
Proof.
  unfold same_alpha. intros (?&?&?) (?&?&?). repeat split; congruence.
Qed.

(** The conversion back from a BGR matrix, whatever the matrix. *)
Lemma cvMatBGRToImageRGBA_same_alpha (matIn : Mat) (imageOut image' : Image) :
  cvMatBGRToImageRGBA matIn imageOut = Ok image' ->
  same_alpha imageOut image'.
Proof.
  unfold cvMatBGRToImageRGBA, for_range.
  apply (for_each_index_invariant (same_alpha imageOut));
    [|apply same_alpha_refl].
  intros row img1 img2 H1.
  apply (for_each_index_invariant (same_alpha imageOut)); [|exact H1].
  intros col img3 img4 H3 Hbody.
  destruct (Mat_at matIn row col) as [matPixel|] eqn:Em;
    simpl in Hbody; [|discriminate].
  destruct (Image_at img3 row col) as [old|] eqn:Eo;
    simpl in Hbody; [|discriminate].
  apply (same_alpha_trans _ img3); [exact H3|].
  eapply Image_set_same_alpha; [exact Eo| |exact Hbody]. reflexivity.
Qed.

Lemma bilateralStage_same_alpha (pParams : ProcessingParams)
    (image image' : Image) :
  bilateralStage pParams image = Ok image' -> same_alpha image image'.
Proof.
  unfold bilateralStage.
  destruct (bilateral_enabled _).
  - destruct ALICEVISION_HAVE_OPENCV; [|discriminate].
    destruct (imageRGBAToCvMatBGR image); simpl; [|discriminate].
    apply cvMatBGRToImageRGBA_same_alpha.
  - intros [= <-]. apply same_alpha_refl.
Qed.

Lemma claheStage_same_alpha (pParams : ProcessingParams)
    (image image' : Image) :
  claheStage pParams image = Ok image' -> same_alpha image image'.
Proof.
  unfold claheStage.
  destruct (clahe_enabled _).
  - destruct ALICEVISION_HAVE_OPENCV; [|discriminate].
    destruct (imageRGBAToCvMatBGR image); simpl; [|discriminate].
    apply cvMatBGRToImageRGBA_same_alpha.
  - intros [= <-]. apply same_alpha_refl.
Qed.

Lemma cell_in_range (row col h w : nat) :
  row < h -> col < w -> row * w + col < h * w.
Proof. intros. nia. Qed.

(** On a well-formed image the conversion to a BGR matrix returns a
    matrix of the size of the image. *)
Lemma imageRGBAToCvMatBGR_total (img : Image) :
  Image_wf img ->
  exists mat, imageRGBAToCvMatBGR img = Ok mat
    /\ Mat_wf mat /\ rows mat = Height img /\ cols mat = Width img.
Proof.
  intros Hwf. unfold Image_wf in Hwf.
  set (P := fun m : Mat => rows m = Height img /\ cols m = Width img
              /\ length (mdata m) = Height img * Width img).
  assert (H0 : P (Mat_create (Height img) (Width img))).
  { unfold P. simpl. rewrite length_replicate. auto. }
  destruct (for_each_index_total P (seq 0 (Height img))
    (fun row mat => for_range (Width img) (fun col mat =>
       imgPixel ← Image_at img row col;
       Mat_set mat row col
         {| v0 := b imgPixel; v1 := g imgPixel; v2 := r imgPixel |}) mat))
    with (s := Mat_create (Height img) (Width img)) as (mat & Hrun & Hm);
    [|exact H0|].
  - intros row m Hrow Hm. apply elem_of_seq in Hrow.
    apply (for_each_index_total P); [|exact Hm].
    intros col m' Hcol (Hr & Hc & Hl). apply elem_of_seq in Hcol.
    pose proof (cell_in_range row col (Height img) (Width img)
                  ltac:(lia) ltac:(lia)) as Hidx.
    unfold Image_at.
    destruct (lookup_lt_is_Some_2 (data img) (row * Width img + col)
                ltac:(lia)) as [px ->].
    simpl. unfold Mat_set. rewrite Hc, Hl.
    apply Nat.ltb_lt in Hidx. rewrite Hidx.
    eexists. split; [reflexivity|].
    unfold P. simpl. rewrite length_insert. auto.
  - exists mat. split; [exact Hrun|].
    destruct Hm as (Hr & Hc & Hl). unfold Mat_wf.
    rewrite Hr, Hc. auto.
Qed.

(** On a well-formed image and a matrix of its size the conversion back
    returns. *)
Lemma cvMatBGRToImageRGBA_total (matIn : Mat) (imageOut : Image) :
  Image_wf imageOut -> Mat_wf matIn ->
  rows matIn = Height imageOut -> cols matIn = Width imageOut ->
  exists image', cvMatBGRToImageRGBA matIn imageOut = Ok image'.
Proof.
  intros Hwf Hmwf Hr Hc. unfold Image_wf in Hwf. unfold Mat_wf in Hmwf.
  set (P := fun im : Image => Width im = Width imageOut
              /\ length (data im) = Height imageOut * Width imageOut).
  destruct (for_each_index_total P (seq 0 (Height imageOut))
    (fun row imageOut0 => for_range (Width imageOut0) (fun col imageOut1 =>
       matPixel ← Mat_at matIn row col;
       old ← Image_at imageOut1 row col;
       Image_set imageOut1 row col
         {| r := v2 matPixel; g := v1 matPixel; b := v0 matPixel;
            a := a old |}) imageOut0))
    with (s := imageOut) as (image' & Hrun & _);
    [|split; [reflexivity|exact Hwf]|].
  - intros row im Hrow Him. apply elem_of_seq in Hrow.
    unfold for_range. destruct Him as [Hw Hl]. rewrite Hw.
    apply (for_each_index_total P); [|split; assumption].
    intros col im' Hcol (Hw' & Hl'). apply elem_of_seq in Hcol.
    pose proof (cell_in_range row col (Height imageOut) (Width imageOut)
                  ltac:(lia) ltac:(lia)) as Hidx.
    unfold Mat_at. rewrite Hc.
    destruct (lookup_lt_is_Some_2 (mdata matIn)
                (row * Width imageOut + col) ltac:(lia)) as [mp ->].
    simpl. unfold Image_at. rewrite Hw'.
    destruct (lookup_lt_is_Some_2 (data im')
                (row * Width imageOut + col) ltac:(lia)) as [old ->].
    simpl. unfold Image_set. rewrite Hw', Hl'.
    apply Nat.ltb_lt in Hidx. rewrite Hidx.
    eexists. split; [reflexivity|].
    unfold P. simpl. rewrite length_insert. auto.
  - exists image'. exact Hrun.
Qed.

(** With OpenCV built in, both stages return on a well-formed image. *)
Lemma bilateralStage_total `{!OpenCV_sizes} (pParams : ProcessingParams)
    (image : Image) :
  ALICEVISION_HAVE_OPENCV = true -> Image_wf image ->
  exists image', bilateralStage pParams image = Ok image'.
Proof.
  intros Hcv Hwf. unfold bilateralStage. rewrite Hcv.
  destruct (bilateral_enabled _); [|eexists; reflexivity].
  destruct (imageRGBAToCvMatBGR_total image Hwf) as (mat & -> & Hm & Hr & Hc).
  simpl.
  edestruct (cv_bilateralFilter_size mat) as [Hwf' [Hr' Hc']]; [exact Hm|].
  apply cvMatBGRToImageRGBA_total; [exact Hwf|exact Hwf'| |].
  - rewrite Hr'. exact Hr.
  - rewrite Hc'. exact Hc.
Qed.

Lemma claheStage_total `{!OpenCV_sizes} (pParams : ProcessingParams)
    (image : Image) :
  ALICEVISION_HAVE_OPENCV = true -> Image_wf image ->
  exists image', claheStage pParams image = Ok image'.
Proof.
  intros Hcv Hwf. unfold claheStage. rewrite Hcv.
  destruct (clahe_enabled _); [|eexists; reflexivity].
  destruct (imageRGBAToCvMatBGR_total image Hwf) as (mat & -> & Hm & Hr & Hc).
  simpl.
  destruct (cvtColor_size mat COLOR_LBGR2Lab Hm) as [Hwf1 [Hr1 Hc1]].
  match goal with |- context [insertChannel ?l ?d ?c] =>
    destruct (insertChannel_size l d c Hwf1) as [Hwf2 [Hr2 Hc2]];
    destruct (cvtColor_size (insertChannel l d c) COLOR_Lab2LBGR Hwf2)
      as [Hwf3 [Hr3 Hc3]]
  end.
  apply cvMatBGRToImageRGBA_total; [exact Hwf|exact Hwf3| |]; congruence.
Qed.

(** The alpha plane read pixel by pixel. *)
Lemma same_alpha_pixel (image image' : Image) (row col : nat)
    (px px' : RGBAfColor) :
  same_alpha image image' ->
  Image_at image row col = Ok px ->
  Image_at image' row col = Ok px' ->
  a px' = a px.
Proof.
  unfold same_alpha, alpha_channel, Image_at. intros (Hw & _ & Ha) H1 H2.
  rewrite Hw in H2.
  assert (E : (a <$> data image') !! (row * Width image + col)
              = (a <$> data image) !! (row * Width image + col))
    by (rewrite Ha; reflexivity).
  rewrite !list_lookup_fmap in E.
  destruct (data image !! _); simpl in H1; [|discriminate].
  destruct (data image' !! _); simpl in H2; [|discriminate].
  simpl in E. congruence.
Qed.

(** C9. With a default-constructed [ProcessingParams], [processImage]
    returns the image it was given: same width, same height, same pixels.
    A [medianFilter] of 1 or 2 acts as a [medianFilter] of 0, with the
    default parameters and with any others. *)
Theorem processImage_default_unchanged (image : Image)
    (pParams : ProcessingParams) :
  processImage image default_ProcessingParams = Ok image
  /\ processImage image (with_medianFilter default_ProcessingParams 1)
     = Ok image
  /\ processImage image (with_medianFilter default_ProcessingParams 2)
     = Ok image
  /\ processImage image (with_medianFilter pParams 1)
     = processImage image (with_medianFilter pParams 0)
  /\ processImage image (with_medianFilter pParams 2)
     = processImage image (with_medianFilter pParams 0).
Proof.
  assert (Hdef : forall m, (m < 3)%Z ->
    processImage image (with_medianFilter default_ProcessingParams m)
    = Ok image).
  { intros m Hm. unfold processImage, scaleStage, contrastStage, medianStage,
      sharpenStage, bilateralStage, claheStage, fillHolesStage. simpl.
    rewrite andb_false_r.
    destruct (3 <=? m)%Z eqn:E; [apply Z.leb_le in E; lia|]. reflexivity. }
  split; [apply (Hdef 0%Z); lia|].
  split; [apply Hdef; lia|].
  split; [apply Hdef; lia|].
  unfold processImage, medianStage. simpl. split; reflexivity.
Qed.

(** C10. The bilateral and CLAHE stages of [processImage], and the
    conversion [cvMatBGRToImageRGBA] they end with, return an image with
    the size and the alpha plane of the image they were given: each
    pixel is written with the alpha it already held. *)
Theorem bilateral_clahe_keep_alpha (pParams : ProcessingParams)
    (image image' : Image) :
  (forall matIn, cvMatBGRToImageRGBA matIn image = Ok image' ->
                 same_alpha image image')
  /\ (bilateralStage pParams image = Ok image' -> same_alpha image image')
  /\ (claheStage pParams image = Ok image' -> same_alpha image image').
Proof.
  split; [|split].
  - intros matIn. apply cvMatBGRToImageRGBA_same_alpha.
  - apply bilateralStage_same_alpha.
  - apply claheStage_same_alpha.
Qed.

End ImageProcessing_facts.

(** ** The LO-RANSAC engine *)

Section Engine_facts.
Import LORansac.
Context {Model RandomState : Type}.
Context `{K : ProblemKernel Model} `{G : RandomGenerator RandomState}.
Context `{C : EngineConfig}.

Lemma scoreModel_consistent (N : nat) (tau : Q) (m : Model) :
  consistent N tau (scoreModel N tau m).
Proof. reflexivity. Qed.

Lemma irls_consistent (rounds N : nat) (tau : Q) (h : hypothesis Model) :
  consistent N tau h -> consistent N tau (irls rounds N tau h).
Proof.
  revert h. induction rounds as [|rounds IH]; intros h Hh; simpl.
  - exact Hh.
  - destruct (length (hInliers h) <? MINIMUM_LSSAMPLES)%nat; [exact Hh|].
    destruct (FitLS _ _) as [refitted|]; [|exact Hh].
    case_bool_decide.
    + apply scoreModel_consistent.
    + apply IH, scoreModel_consistent.
Qed.

Lemma localOptimization_consistent (N : nat) (tau : Q)
    (trial : hypothesis Model) :
  consistent N tau trial -> consistent N tau (localOptimization N tau trial).
Proof.
  intros Ht. unfold localOptimization.
  destruct (_ <=? _)%nat; [apply irls_consistent|]; exact Ht.
Qed.

Lemma considerCandidate_consistent (N : nat) (tau : Q)
    (b : option (hypothesis Model)) (candidate : Model) :
  best_consistent N tau b ->
  best_consistent N tau (considerCandidate N tau b candidate).
Proof.
  intros Hb. unfold considerCandidate.
  destruct (exceeds (scoreModel N tau candidate) b); [|exact Hb].
  destruct (exceeds _ b); [|exact Hb].
  intros h [= <-].
  apply localOptimization_consistent, scoreModel_consistent.
Qed.

Lemma candidates_consistent (N : nat) (tau : Q) (models : list Model)
    (b : option (hypothesis Model)) :
  best_consistent N tau b ->
  best_consistent N tau (foldl (considerCandidate N tau) b models).
Proof.
  revert b. induction models as [|m models IH]; intros b Hb; simpl.
  - exact Hb.
  - apply IH, considerCandidate_consistent, Hb.
Qed.

Lemma iteration_consistent (N : nat) (tau : Q)
    (st st' : LoopState Model RandomState) :
  best_consistent N tau (best st) ->
  iteration N tau st = Done st' ->
  best_consistent N tau (best st').
Proof.
  intros Hb. unfold iteration.
  destruct (Sample N MINIMUM_SAMPLES (rng st)) as [[sample g']|e];
    [|discriminate].
  intros [= <-]. simpl. apply candidates_consistent, Hb.
Qed.

Lemma outerLoop_consistent (budget N : nat) (tau : Q) (maxIterations : nat)
    (p : Q) (counter : nat) (st st' : LoopState Model RandomState) :
  best_consistent N tau (best st) ->
  outerLoop budget N tau maxIterations p counter st = Done st' ->
  best_consistent N tau (best st').
Proof.
  revert counter st. induction budget as [|budget IH];
    intros counter st Hb; simpl.
  - intros [= <-]. exact Hb.
  - destruct (terminated _ _ _ _ _); [intros [= <-]; exact Hb|].
    destruct (iteration N tau st) as [st1|e] eqn:E; [|discriminate].
    apply IH. eapply iteration_consistent; eassumption.
Qed.

(** The inlier set that [estimate] returns is the Score Evaluator's set
    for the model it returns. *)
Lemma estimate_inlierSet (N : nat) (tau : Q) (g g' : RandomState)
    (maxIterations : nat) (p : Q) (bestModel : Model)
    (inlierIndices : list nat) :
  estimate N tau g maxIterations p = Estimated bestModel inlierIndices g' ->
  inlierIndices = inlierSet N tau bestModel.
Proof.
  unfold estimate.
  destruct (N <? MINIMUM_SAMPLES)%nat; [discriminate|].
  destruct (outerLoop _ _ _ _ _ _ _) as [st|e] eqn:E; [|discriminate].
  destruct (best st) as [h|] eqn:Eb; [|discriminate].
  intros [= <- <- _].
  eapply outerLoop_consistent; [|exact E|exact Eb].
  intros h0. simpl. discriminate.
Qed.

Lemma elem_of_inlierSet (N : nat) (tau : Q) (m : Model) (i : nat) :
  i ∈ inlierSet N tau m <-> i < N /\ (Error i m <= tau)%Q.
Proof.
  unfold inlierSet.
  rewrite list_elem_of_In, filter_In, in_seq, Qle_bool_iff.
  intuition lia.
Qed.

(** C4. When [estimate] returns a model and an inlier set, the set holds
    exactly the indices [i] of [[0, N)] with
    [Error(i, bestModel) <= threshold]: a returned index satisfies the
    bound, and an index of [[0, N)] that is not returned exceeds it. *)
Theorem estimate_inliers_exact (N : nat) (tau : Q) (g g' : RandomState)
    (maxIterations : nat) (p : Q) (bestModel : Model)
    (inlierIndices : list nat) :
  estimate N tau g maxIterations p = Estimated bestModel inlierIndices g' ->
  (forall i, i ∈ inlierIndices -> i < N /\ (Error i bestModel <= tau)%Q)
  /\ (forall i, i < N -> i ∉ inlierIndices -> (tau < Error i bestModel)%Q).
Proof.
  intros Hrun. apply estimate_inlierSet in Hrun as ->. split.
  - intros i Hi. apply elem_of_inlierSet. exact Hi.
  - intros i Hi Hnot. apply Qnot_le_lt. intros Hle.
    apply Hnot, elem_of_inlierSet. split; assumption.
Qed.

(** C7. With fewer observations than [MINIMUM_SAMPLES], [estimate] fails
    with [InsufficientDataError], which carries no model and no inlier
    set; the Random Sampler fails with the same error when asked for more
    indices than there are observations. *)
Theorem insufficient_data_fails (N k : nat) (tau : Q) (g : RandomState)
    (maxIterations : nat) (p : Q) :
  (N < MINIMUM_SAMPLES ->
     estimate N tau g maxIterations p = Failed InsufficientDataError)
  /\ (N < k -> Sample N k g = Fail InsufficientDataError).
Proof.
  split; intros Hlt.
  - unfold estimate. apply Nat.ltb_lt in Hlt. rewrite Hlt. reflexivity.
  - unfold Sample. apply Nat.ltb_lt in Hlt. rewrite Hlt. reflexivity.
Qed.

(** The partial Fisher-Yates shuffle draws [k] distinct indices of the
    pool. *)
Lemma partialFisherYates_distinct (k : nat) (pool : list nat)
    (g : RandomState) :
  NoDup pool -> k <= length pool ->
  length (partialFisherYates k pool g).1 = k
  /\ NoDup (partialFisherYates k pool g).1
  /\ (partialFisherYates k pool g).1 ⊆ pool.
Proof.
  revert pool g. induction k as [|k IH]; intros pool g Hnd Hk; simpl.
  - split; [reflexivity|]. split; [constructor|]. apply list_subseteq_nil.
  - destruct (draw g (length pool)) as [x g1].
    assert (Hj : x mod length pool < length pool)
      by (apply Nat.mod_upper_bound; lia).
    destruct (lookup_lt_is_Some_2 pool _ Hj) as [i Hi]. rewrite Hi.
    pose proof (delete_Permutation pool _ i Hi) as Hperm.
    assert (Hnd' : NoDup (i :: delete (x mod length pool) pool))
      by (rewrite <- Hperm; exact Hnd).
    apply NoDup_cons in Hnd' as [Hi_fresh Hnd_rest].
    specialize (IH (delete (x mod length pool) pool) g1 Hnd_rest).
    destruct (partialFisherYates k _ g1) as [rest g2]. simpl in *.
    destruct IH as (Hlen & Hnd2 & Hsub);
      [rewrite length_delete by (eexists; exact Hi); lia|].
    split; [lia|]. split.
    + apply NoDup_cons. split; [|exact Hnd2].
      intros Hin. apply Hi_fresh, Hsub, Hin.
    + intros y Hy. apply elem_of_cons in Hy as [->|Hy].
      * eapply list_elem_of_lookup_2, Hi.
      * eapply list_elem_of_delete_inv, Hsub, Hy.
Qed.

(** The Random Sampler returns [k] distinct indices of [[0, N)] as soon
    as [k <= N]. *)
Lemma Sample_distinct (N k : nat) (g : RandomState) :
  k <= N ->
  exists sample g', Sample N k g = Done (sample, g')
    /\ length sample = k /\ NoDup sample /\ (forall i, i ∈ sample -> i < N).
Proof.
  intros Hk. unfold Sample.
  destruct (N <? k)%nat eqn:E; [apply Nat.ltb_lt in E; lia|].
  destruct (partialFisherYates_distinct k (seq 0 N) g (NoDup_seq 0 N))
    as (Hlen & Hnd & Hsub); [rewrite length_seq; exact Hk|].
  destruct (partialFisherYates k (seq 0 N) g) as [sample g'].
  exists sample, g'. simpl in *. repeat split; try assumption.
  intros i Hi. apply Hsub, elem_of_seq in Hi. lia.
Qed.

(** With enough observations the sampler cannot fail inside the loop, so
    [estimate] returns a hypothesis or none; it never fails. *)
Lemma outerLoop_returns (budget N : nat) (tau : Q) (maxIterations : nat)
    (p : Q) (counter : nat) (st : LoopState Model RandomState) :
  MINIMUM_SAMPLES <= N ->
  exists st', outerLoop budget N tau maxIterations p counter st = Done st'.
Proof.
  intros HN. revert counter st.
  induction budget as [|budget IH]; intros counter st; simpl.
  - eexists. reflexivity.
  - destruct (terminated _ _ _ _ _); [eexists; reflexivity|].
    unfold iteration.
    destruct (Sample_distinct N MINIMUM_SAMPLES (rng st) HN)
      as (sample & g' & -> & _).
    apply IH.
Qed.

Lemma estimate_returns (N : nat) (tau : Q) (g : RandomState)
    (maxIterations : nat) (p : Q) (e : EngineError) :
  MINIMUM_SAMPLES <= N ->
  estimate N tau g maxIterations p <> Failed e.
Proof.
  intros HN. unfold estimate.
  destruct (N <? MINIMUM_SAMPLES)%nat eqn:E; [apply Nat.ltb_lt in E; lia|].
  destruct (outerLoop_returns maxIterations N tau maxIterations p 0
              {| best := None; rng := g |} HN) as [st ->].
  destruct (best st); discriminate.
Qed.

End Engine_facts.

(** ** Concrete runs *)

Section LineKernel_runs.
Import LineKernelLoRansac WeightClaims Examples.

(** With the default [eps], the three observations of [line_points] get
    their inverse-square weights. *)
Lemma computeWeights_inverse_square_witness :
  is_double default_eps = true
  /\ forallb (fun idx => is_double (Error (LineKernel:=line_kernel) idx
                                       line_model)) [0; 1; 2] = true
  /\ flt default_eps square_floor = false
  /\ inverse_square_weights (K:=line_kernel) line_model [0; 1; 2]
       [double_of_Z 5] default_eps.
Proof.
  split; [reflexivity|]. split; [reflexivity|]. split; [reflexivity|].
  apply computeWeights_inverse_square; reflexivity.
Defined.

(** With [eps = 0] and an observation on the line, the divisor is zero
    and the weight is infinite: the claim C1, stated for every [eps],
    fails there. *)
Lemma computeWeights_zero_eps_divides_by_zero :
  weightDivisor (K:=line_kernel) line_model (S754_zero false) 0
    = S754_zero false
  /\ computeWeights (K:=line_kernel) line_model [0] [] (S754_zero false)
     = [S754_infinity false]
  /\ ~ inverse_square_weights (K:=line_kernel) line_model [0] []
         (S754_zero false).
Proof.
  split; [vm_compute; reflexivity|].
  split; [vm_compute; reflexivity|].
  intros [_ Hnz]. apply Forall_cons in Hnz as [Hnz _]. apply Hnz.
  vm_compute. exact I.
Qed.

Lemma computeWeights_nonneg_witness :
  is_double default_eps = true
  /\ forallb (fun idx => is_double (Error (LineKernel:=line_kernel) idx
                                       line_model)) [2; 0] = true
  /\ fle inverse_floor default_eps = true
  /\ nonneg_weight_vector (K:=line_kernel) line_model [2; 0] [] default_eps.
Proof.
  split; [reflexivity|]. split; [reflexivity|]. split; [reflexivity|].
  apply computeWeights_nonneg; reflexivity.
Defined.

(** With [eps = 0] the weights of the two observations on the line are
    infinite, not real numbers: the claim C5, stated for every [eps],
    fails there. *)
Lemma computeWeights_zero_eps_infinite_weights :
  computeWeights (K:=line_kernel) line_model [0; 1] [] (S754_zero false)
    = [S754_infinity false; S754_infinity false]
  /\ ~ nonneg_weight_vector (K:=line_kernel) line_model [0; 1] []
         (S754_zero false).
Proof.
  assert (E : computeWeights (K:=line_kernel) line_model [0; 1] []
                (S754_zero false)
              = [S754_infinity false; S754_infinity false])
    by (vm_compute; reflexivity).
  split; [exact E|].
  intros [_ Hnn]. rewrite E in Hnn.
  apply Forall_cons in Hnn as [Hinf _]. exact Hinf.
Qed.

(** What the weights are at the default [eps]: a million on the line,
    whatever the vector held before. *)
Example computeWeights_default_run :
  computeWeights (K:=line_kernel) line_model [0; 1]
    [double_of_Z 9; double_of_Z 9; double_of_Z 9] default_eps
  = [double_of_Z 1000000; double_of_Z 1000000].
Proof. vm_compute. reflexivity. Qed.

(** A positive [eps] is not enough. At [eps = 2^-538] the square of the
    floor underflows to zero and the weight of an observation on the line
    is infinite; at [eps = 2^-537] the square is the smallest positive
    [double]. *)
Example computeWeights_square_underflows :
  weightDivisor (K:=line_kernel) line_model
    (S754_finite false 4503599627370496 (-590)) 0 = S754_zero false
  /\ computeWeights (K:=line_kernel) line_model [0] []
       (S754_finite false 4503599627370496 (-590)) = [S754_infinity false]
  /\ weightDivisor (K:=line_kernel) line_model square_floor 0
     = S754_finite false 1 (-1074).
Proof. repeat split; vm_compute; reflexivity. Qed.

(** At [eps = 2^-512] the square is not zero but its inverse overflows;
    at [eps = 2^-511] the weight is [2^1022]. *)
Example computeWeights_inverse_overflows :
  weightDivisor (K:=line_kernel) line_model
    (S754_finite false 4503599627370496 (-564)) 0
    = S754_finite false 1125899906842624 (-1074)
  /\ computeWeights (K:=line_kernel) line_model [0] []
       (S754_finite false 4503599627370496 (-564)) = [S754_infinity false]
  /\ computeWeights (K:=line_kernel) line_model [0] [] inverse_floor
     = [S754_finite false 4503599627370496 970].
Proof. repeat split; vm_compute; reflexivity. Qed.

(** With an infinite [eps] every weight is zero; with a NaN every weight
    is a NaN. *)
Example computeWeights_infinite_eps :
  computeWeights (K:=line_kernel) line_model [0; 2] [] (S754_infinity false)
    = [S754_zero false; S754_zero false]
  /\ computeWeights (K:=line_kernel) line_model [0; 2] [] S754_nan
     = [S754_nan; S754_nan].
Proof. split; vm_compute; reflexivity. Qed.

Lemma FitLS_assertion_holds_witness :
  MINIMUM_LSSAMPLES <= length [0; 2]
  /\ FitLS (K:=line_kernel) [0; 2] []
       (Some [double_of_Z 1; double_of_Z 1]) <> Err AssertionFailed
  /\ FitLS (K:=line_kernel) [0; 2] []
       (Some [double_of_Z 1; double_of_Z 1]) = Ok [].
Proof.
  assert (Hlen : MINIMUM_LSSAMPLES <= length [0; 2])
    by (unfold MINIMUM_LSSAMPLES; simpl; lia).
  split; [exact Hlen|].
  exact (FitLS_assertion_holds (K:=line_kernel) [0; 2] []
           (Some [double_of_Z 1; double_of_Z 1]) Hlen).
Defined.

(** Below [MINIMUM_SAMPLES] the assertion of [FitLS] fails. *)
Example FitLS_one_sample :
  FitLS (K:=line_kernel) [0] [] None = Err AssertionFailed.
Proof. reflexivity. Qed.

End LineKernel_runs.

Section Image_runs.
Import ImageProcessing ImageClaims Examples.

Global Instance toy_opencv_sizes : OpenCV_sizes (Cv:=toy_opencv).
Proof.
  split; intros; unfold Mat_wf, Mat_same_size in *; simpl;
    rewrite ?length_fmap; auto.
Qed.

(** The two stages repaint the checker image and keep its four alpha
    values. *)
Lemma bilateral_clahe_keep_alpha_witness :
  exists image1 image2,
    bilateralStage (Cfg:=build_with_opencv) (Cv:=toy_opencv)
      with_bilateral_and_clahe checker = Ok image1
    /\ claheStage (Cfg:=build_with_opencv) (Cv:=toy_opencv)
         with_bilateral_and_clahe checker = Ok image2
    /\ data image1 <> data checker
    /\ same_alpha checker image1 /\ same_alpha checker image2.
Proof.
  destruct (bilateralStage_total (Cfg:=build_with_opencv) (Cv:=toy_opencv)
              with_bilateral_and_clahe checker eq_refl eq_refl)
    as [image1 H1].
  destruct (claheStage_total (Cfg:=build_with_opencv) (Cv:=toy_opencv)
              with_bilateral_and_clahe checker eq_refl eq_refl)
    as [image2 H2].
  exists image1, image2.
  split; [exact H1|]. split; [exact H2|]. split.
  - vm_compute in H1. injection H1 as <-. simpl. discriminate.
  - split.
    + exact (proj1 (proj2 (bilateral_clahe_keep_alpha
               (Cfg:=build_with_opencv) (Cv:=toy_opencv)
               with_bilateral_and_clahe checker image1)) H1).
    + exact (proj2 (proj2 (bilateral_clahe_keep_alpha
               (Cfg:=build_with_opencv) (Cv:=toy_opencv)
               with_bilateral_and_clahe checker image2)) H2).
Defined.

(** The whole pipeline on the checker image with the two stages on. *)
Example processImage_checker_run :
  processImage (Cfg:=build_with_opencv) (Oiio:=copy_filters)
    (Cv:=toy_opencv) checker with_bilateral_and_clahe
  = Ok {| Width := 2; Height := 2;
          data := [ {| r := float_literal 1 2; g := float_literal 1 2;
                       b := float_literal 1 2; a := float_literal 1 4 |};
                    {| r := float_literal 1 2; g := float_literal 1 2;
                       b := float_literal 1 2; a := float_literal 1 2 |};
                    {| r := float_literal 1 2; g := float_literal 1 2;
                       b := float_literal 1 2; a := float_literal 3 4 |};
                    {| r := float_literal 1 2; g := float_literal 1 2;
                       b := float_literal 1 2; a := float_of_Z 1 |} ] |}.
Proof. vm_compute. reflexivity. Qed.

(** The new width is computed in [float]: for a width of [1563] and a
    scale of [0.9373f] the product rounds to [1465]. *)
Example scaleStage_rounds_in_float :
  floor_to_unsigned
    (fmulf (float_of_unsigned 1563) (float_literal 9373 10000)) = 1465.
Proof. vm_compute. reflexivity. Qed.

End Image_runs.

Section Engine_runs.
Import LORansac Examples.

Local Open Scope Q_scope.

(** A run on the five observations: the line [y = 2 x + 1] and its four
    inliers. *)
Lemma estimate_inliers_exact_witness :
  estimate (K:=toy_kernel) (G:=lcg) (C:=toy_config) 5 (1 # 100) 42%N 10
    (99 # 100) = Estimated (2, 1) [0; 1; 2; 3]%nat 1535244752%N
  /\ (forall i, i ∈ [0; 1; 2; 3]%nat ->
        (i < 5)%nat /\ Error (ProblemKernel:=toy_kernel) i (2, 1) <= 1 # 100)
  /\ (forall i, (i < 5)%nat -> i ∉ [0; 1; 2; 3]%nat ->
        1 # 100 < Error (ProblemKernel:=toy_kernel) i (2, 1)).
Proof.
  assert (Hrun : estimate (K:=toy_kernel) (G:=lcg) (C:=toy_config) 5
                   (1 # 100) 42%N 10 (99 # 100)
                 = Estimated (2, 1) [0; 1; 2; 3]%nat 1535244752%N)
    by (vm_compute; reflexivity).
  split; [exact Hrun|].
  exact (estimate_inliers_exact (K:=toy_kernel) (G:=lcg) (C:=toy_config)
           _ _ _ _ _ _ _ _ Hrun).
Defined.

Lemma insufficient_data_fails_witness :
  (1 < MINIMUM_SAMPLES (ProblemKernel:=toy_kernel))%nat
  /\ estimate (K:=toy_kernel) (G:=lcg) (C:=toy_config) 1 (1 # 100) 7%N 10
       (99 # 100) = Failed InsufficientDataError
  /\ Sample (G:=lcg) 1 2 7%N = Fail InsufficientDataError.
Proof.
  assert (H1 : (1 < MINIMUM_SAMPLES (ProblemKernel:=toy_kernel))%nat)
    by (simpl; lia).
  split; [exact H1|]. split.
  - exact (proj1 (insufficient_data_fails (K:=toy_kernel) (G:=lcg)
             (C:=toy_config) 1 2 (1 # 100) 7%N 10 (99 # 100)) H1).
  - exact (proj2 (insufficient_data_fails (K:=toy_kernel) (G:=lcg)
             (C:=toy_config) 1 2 (1 # 100) 7%N 10 (99 # 100)) H1).
Defined.

End Engine_runs.

(** ** The stream operators of the filter parameters *)

Section ParamsIO_facts.
Import ImageProcessing ParamsIO.
Local Open Scope string_scope.
Context `{NT : NumberText}.

Lemma length_split (pred : ascii -> bool) (s : string) :
  length (split pred s) = S (count_chars pred s).
Proof.
  induction s as [|c s IH]; simpl; [reflexivity|].
  destruct (pred c); simpl; [rewrite IH; reflexivity|].
  destruct (split pred s) as [|field fields]; simpl in *; [discriminate|].
  exact IH.
Qed.

Lemma append_assoc (s1 s2 s3 : string) :
  (s1 +++ s2) +++ s3 = s1 +++ (s2 +++ s3).
Proof. induction s1 as [|c s1 IH]; simpl; [reflexivity|]. rewrite IH. reflexivity. Qed.

Lemma count_chars_append (pred : ascii -> bool) (s1 s2 : string) :
  count_chars pred (s1 +++ s2) = count_chars pred s1 + count_chars pred s2.
Proof. induction s1 as [|c s1 IH]; simpl; [reflexivity|]. rewrite IH. lia. Qed.

Lemma plain_counts (s : string) :
  plain s = true ->
  count_chars isspace s = 0 /\ count_chars (is_any_of ":") s = 0.
Proof.
  induction s as [|c s IH]; cbn [plain count_chars]; [auto|].
  unfold plain_char. intros H.
  apply andb_true_iff in H as [Hc Hs]. apply andb_true_iff in Hc as [H1 H2].
  apply negb_true_iff in H1, H2. destruct (IH Hs) as [-> ->].
  rewrite H1, H2. auto.
Qed.

Lemma skipws_no_space (s : string) :
  count_chars isspace s = 0 -> skipws s = s.
Proof. destruct s as [|c s]; simpl; [reflexivity|]. destruct (isspace c); [discriminate|reflexivity]. Qed.

Lemma read_word_no_space (s : string) :
  count_chars isspace s = 0 -> read_word s = (s, EmptyString).
Proof.
  induction s as [|c s IH]; simpl; [reflexivity|].
  destruct (isspace c); [discriminate|]. simpl. intros H.
  rewrite (IH H). reflexivity.
Qed.

Lemma split_no_separator (pred : ascii -> bool) (s : string) :
  count_chars pred s = 0 -> split pred s = [s].
Proof.
  induction s as [|c s IH]; simpl; [reflexivity|].
  destruct (pred c); [discriminate|]. simpl. intros H.
  rewrite (IH H). reflexivity.
Qed.

Lemma split_field (pred : ascii -> bool) (field rest : string) (sep : ascii) :
  count_chars pred field = 0 -> pred sep = true ->
  split pred (field +++ String sep rest) = field :: split pred rest.
Proof.
  intros Hf Hsep. induction field as [|c field IH]; simpl in *.
  - rewrite Hsep. reflexivity.
  - destruct (pred c); [discriminate|]. simpl in Hf.
    rewrite (IH Hf). reflexivity.
Qed.

Lemma tolower_t (c : ascii) :
  tolower c = "t"%char <-> (c = "t" \/ c = "T")%char.
Proof.
  destruct c as [[] [] [] [] [] [] [] []]; vm_compute;
    (split; [intros H; try discriminate H; auto
            |intros [H|H]; try discriminate H; reflexivity]).
Qed.

Lemma tolower_r (c : ascii) :
  tolower c = "r"%char <-> (c = "r" \/ c = "R")%char.
Proof.
  destruct c as [[] [] [] [] [] [] [] []]; vm_compute;
    (split; [intros H; try discriminate H; auto
            |intros [H|H]; try discriminate H; reflexivity]).
Qed.

Lemma tolower_u (c : ascii) :
  tolower c = "u"%char <-> (c = "u" \/ c = "U")%char.
Proof.
  destruct c as [[] [] [] [] [] [] [] []]; vm_compute;
    (split; [intros H; try discriminate H; auto
            |intros [H|H]; try discriminate H; reflexivity]).
Qed.

Lemma tolower_e (c : ascii) :
  tolower c = "e"%char <-> (c = "e" \/ c = "E")%char.
Proof.
  destruct c as [[] [] [] [] [] [] [] []]; vm_compute;
    (split; [intros H; try discriminate H; auto
            |intros [H|H]; try discriminate H; reflexivity]).
Qed.

(** The flag test [to_lower_copy(field) == "true"] accepts the sixteen
    spellings of the word and nothing else. *)
Lemma to_lower_true (s : string) :
  String.eqb (to_lower_copy s) "true" = true <-> spells_true s.
Proof.
  rewrite String.eqb_eq. split.
  - intros H.
    destruct s as [|c1 [|c2 [|c3 [|c4 [|c5 s]]]]]; simpl in H;
      try discriminate H.
    injection H as H1 H2 H3 H4.
    exists c1, c2, c3, c4. split; [reflexivity|].
    apply tolower_t in H1. apply tolower_r in H2.
    apply tolower_u in H3. apply tolower_e in H4. auto.
  - intros (c1 & c2 & c3 & c4 & -> & H1 & H2 & H3 & H4). simpl.
    apply tolower_t in H1. apply tolower_r in H2.
    apply tolower_u in H3. apply tolower_e in H4.
    rewrite H1, H2, H3, H4. reflexivity.
Qed.

(** X1. Each of the three [operator>>] throws [invalid_argument] exactly
    when the word it reads does not have the number of colon-separated
    fields of its structure (4, 4 and 3): then the message ends with the
    word and the parameters are left as they were, whatever the fields
    hold; with the right number of fields no [invalid_argument] is
    thrown. *)
Theorem read_params_field_count (in_ : istream) (sParams : SharpenParams)
    (bfParams : BilateralFilterParams) (cfParams : ClaheFilterParams) :
  let token := (extract_string in_).1 in
  let rest := (extract_string in_).2 in
  let colons := count_chars (is_any_of ":") token in
  (colons <> 3 ->
     read_SharpenParams in_ sParams
     = {| stream := rest; value := sParams;
          thrown := Some (invalid_argument
                      ("Failed to parse SharpenParams from: " +++ token)) |})
  /\ (colons = 3 -> forall what,
        thrown (read_SharpenParams in_ sParams)
        <> Some (invalid_argument what))
  /\ (colons <> 3 ->
        read_BilateralFilterParams in_ bfParams
        = {| stream := rest; value := bfParams;
             thrown := Some (invalid_argument
                         ("Failed to parse BilateralFilterParams from: "
                          +++ token)) |})
  /\ (colons = 3 -> forall what,
        thrown (read_BilateralFilterParams in_ bfParams)
        <> Some (invalid_argument what))
  /\ (colons <> 2 ->
        read_ClaheFilterParams in_ cfParams
        = {| stream := rest; value := cfParams;
             thrown := Some (invalid_argument
                         ("Failed to parse ClaheFilterParams from: "
                          +++ token)) |})
  /\ (colons = 2 -> forall what,
        thrown (read_ClaheFilterParams in_ cfParams)
        <> Some (invalid_argument what)).
Proof.
  unfold read_SharpenParams, read_BilateralFilterParams,
    read_ClaheFilterParams.
  destruct (extract_string in_) as [token rest]. cbn [fst snd].
  rewrite length_split.
  repeat split.
  - intros Hc.
    destruct (Nat.eqb_spec (S (count_chars (is_any_of ":") token)) 4);
      [lia|reflexivity].
  - intros Hc what. rewrite Hc. cbn [Nat.eqb negb].
    repeat (match goal with
            | |- context [match ?x with Some _ => _ | None => _ end] =>
                destruct x
            end); discriminate.
  - intros Hc.
    destruct (Nat.eqb_spec (S (count_chars (is_any_of ":") token)) 4);
      [lia|reflexivity].
  - intros Hc what. rewrite Hc. cbn [Nat.eqb negb].
    repeat (match goal with
            | |- context [match ?x with Some _ => _ | None => _ end] =>
                destruct x
            end); discriminate.
  - intros Hc.
    destruct (Nat.eqb_spec (S (count_chars (is_any_of ":") token)) 3);
      [lia|reflexivity].
  - intros Hc what. rewrite Hc. cbn [Nat.eqb negb].
    repeat (match goal with
            | |- context [match ?x with Some _ => _ | None => _ end] =>
                destruct x
            end); discriminate.
Qed.

(** X2. When the word has the right number of fields, each [operator>>]
    sets the flag [enabled] to true exactly when the first field is one of
    the sixteen spellings of [true] in upper and lower case; any other
    first field, [1] or [yes] or the empty field, clears it without an
    error, also when a later field is then rejected. *)
Theorem read_params_flag (in_ : istream) (sParams : SharpenParams)
    (bfParams : BilateralFilterParams) (cfParams : ClaheFilterParams) :
  let fields := split (is_any_of ":") (extract_string in_).1 in
  (length fields = 4 ->
     (sharpen_enabled (value (read_SharpenParams in_ sParams)) = true
      <-> spells_true (fields !!! 0%nat)))
  /\ (length fields = 4 ->
       (bilateral_enabled (value (read_BilateralFilterParams in_ bfParams))
        = true <-> spells_true (fields !!! 0%nat)))
  /\ (length fields = 3 ->
       (clahe_enabled (value (read_ClaheFilterParams in_ cfParams)) = true
        <-> spells_true (fields !!! 0%nat))).
Proof.
  unfold read_SharpenParams, read_BilateralFilterParams,
    read_ClaheFilterParams.
  destruct (extract_string in_) as [token rest]. cbn [fst snd].
  cbv zeta.
  split; [|split]; intros Hlen; rewrite Hlen; cbn [Nat.eqb negb];
    rewrite <- to_lower_true;
    repeat (match goal with
            | |- context [match ?x with Some _ => _ | None => _ end] =>
                destruct x
            end); cbn; apply iff_refl.
Qed.

Lemma extract_word (text : string) :
  count_chars isspace text = 0 -> text <> EmptyString ->
  extract_string (istream_of text)
  = (text, {| buffer := EmptyString; failbit := false |}).
Proof.
  intros Hsp Hne. unfold extract_string, istream_of. cbn [failbit buffer].
  rewrite (skipws_no_space _ Hsp), (read_word_no_space _ Hsp).
  destruct text; [contradiction|reflexivity].
Qed.

Lemma append_not_empty (s1 s2 : string) :
  s1 <> EmptyString -> s1 +++ s2 <> EmptyString.
Proof. destruct s1; [contradiction|discriminate]. Qed.

(** A word made of plain fields joined by colons is read whole and split
    into its fields. *)
Lemma extract_fields3 (f0 f1 f2 : string) :
  plain f0 = true -> plain f1 = true -> plain f2 = true ->
  f0 <> EmptyString ->
  let text := f0 +++ String ":" (f1 +++ String ":" f2) in
  extract_string (istream_of text)
  = (text, {| buffer := EmptyString; failbit := false |})
  /\ split (is_any_of ":") text = [f0; f1; f2].
Proof.
  intros H0 H1 H2 Hne text.
  apply plain_counts in H0 as [S0 C0]. apply plain_counts in H1 as [S1 C1].
  apply plain_counts in H2 as [S2 C2]. split.
  - apply extract_word; [|apply append_not_empty, Hne].
    unfold text. rewrite !count_chars_append. cbn [count_chars].
    rewrite !count_chars_append. cbn [count_chars].
    rewrite S0, S1, S2. reflexivity.
  - unfold text.
    rewrite (split_field _ f0 _ ":" C0 eq_refl).
    rewrite (split_field _ f1 _ ":" C1 eq_refl).
    rewrite (split_no_separator _ f2 C2). reflexivity.
Qed.

Lemma extract_fields4 (f0 f1 f2 f3 : string) :
  plain f0 = true -> plain f1 = true -> plain f2 = true ->
  plain f3 = true -> f0 <> EmptyString ->
  let text := f0 +++ String ":" (f1 +++ String ":" (f2 +++ String ":" f3)) in
  extract_string (istream_of text)
  = (text, {| buffer := EmptyString; failbit := false |})
  /\ split (is_any_of ":") text = [f0; f1; f2; f3].
Proof.
  intros H0 H1 H2 H3 Hne text.
  apply plain_counts in H0 as [S0 C0]. apply plain_counts in H1 as [S1 C1].
  apply plain_counts in H2 as [S2 C2]. apply plain_counts in H3 as [S3 C3].
  split.
  - apply extract_word; [|apply append_not_empty, Hne].
    unfold text. rewrite !count_chars_append. cbn [count_chars].
    rewrite !count_chars_append. cbn [count_chars].
    rewrite !count_chars_append. cbn [count_chars].
    rewrite S0, S1, S2, S3. reflexivity.
  - unfold text.
    rewrite (split_field _ f0 _ ":" C0 eq_refl).
    rewrite (split_field _ f1 _ ":" C1 eq_refl).
    rewrite (split_field _ f2 _ ":" C2 eq_refl).
    rewrite (split_no_separator _ f3 C3). reflexivity.
Qed.

Lemma put_bool_plain (os : ostream) (flag : bool) :
  plain (put_bool os flag) = true /\ put_bool os flag <> EmptyString.
Proof.
  unfold put_bool. destruct (boolalpha os), flag; split;
    try reflexivity; discriminate.
Qed.

(** What the flag test answers on the text of a flag. *)
Lemma put_bool_read (alpha flag : bool) (text : string) :
  String.eqb (to_lower_copy (put_bool {| written := text; boolalpha := alpha |} flag))
    "true" = alpha && flag.
Proof. destruct alpha, flag; reflexivity. Qed.

(** X3. Reading back with [operator>>] what [operator<<] wrote on a fresh
    stream restores every number whose text is a plain word that the cast
    reads back, consumes the whole text and throws nothing; the flag
    [enabled] comes back true only if it was true and the stream wrote
    it as a word ([boolalpha]). Written as [0] or [1], the default of a
    stream, it always comes back false. *)
Theorem write_read_params (alpha : bool)
    (sParams sOld : SharpenParams)
    (bfParams bfOld : BilateralFilterParams)
    (cfParams cfOld : ClaheFilterParams) :
  (int_text_ok (sharpen_width sParams) ->
   float_text_ok (sharpen_contrast sParams) ->
   float_text_ok (sharpen_threshold sParams) ->
   read_SharpenParams
     (istream_of (written (write_SharpenParams (fresh_ostream alpha) sParams)))
     sOld
   = {| stream := {| buffer := EmptyString; failbit := false |};
        value := set_sharpen_enabled sParams
                   (alpha && sharpen_enabled sParams);
        thrown := None |})
  /\ (int_text_ok (bilateral_distance bfParams) ->
      float_text_ok (bilateral_sigmaColor bfParams) ->
      float_text_ok (bilateral_sigmaSpace bfParams) ->
      read_BilateralFilterParams
        (istream_of
           (written (write_BilateralFilterParams (fresh_ostream alpha) bfParams)))
        bfOld
      = {| stream := {| buffer := EmptyString; failbit := false |};
           value := set_bilateral_enabled bfParams
                      (alpha && bilateral_enabled bfParams);
           thrown := None |})
  /\ (float_text_ok (clahe_clipLimit cfParams) ->
      int_text_ok (clahe_tileGridSize cfParams) ->
      read_ClaheFilterParams
        (istream_of
           (written (write_ClaheFilterParams (fresh_ostream alpha) cfParams)))
        cfOld
      = {| stream := {| buffer := EmptyString; failbit := false |};
           value := set_clahe_enabled cfParams
                      (alpha && clahe_enabled cfParams);
           thrown := None |}).
Proof.
  split; [|split].
  - intros [P1 L1] [P2 L2] [P3 L3].
    unfold write_SharpenParams, put, fresh_ostream, read_SharpenParams.
    cbn [written boolalpha String.append].
    rewrite !append_assoc. cbn [String.append].
    match goal with
    | |- context [put_bool ?os ?flag] =>
        pose proof (extract_fields4 (put_bool os flag) _ _ _
                      (proj1 (put_bool_plain os flag)) P1 P2 P3
                      (proj2 (put_bool_plain os flag))) as Hx
    end.
    cbv zeta in Hx. destruct Hx as [Hword Hsplit].
    rewrite Hword. cbv beta iota zeta. rewrite Hsplit.
    cbn [length Nat.eqb negb lookup_total list_lookup_total].
    rewrite L1, L2, L3, put_bool_read.
    destruct sParams; reflexivity.
  - intros [P1 L1] [P2 L2] [P3 L3].
    unfold write_BilateralFilterParams, put, fresh_ostream,
      read_BilateralFilterParams.
    cbn [written boolalpha String.append].
    rewrite !append_assoc. cbn [String.append].
    match goal with
    | |- context [put_bool ?os ?flag] =>
        pose proof (extract_fields4 (put_bool os flag) _ _ _
                      (proj1 (put_bool_plain os flag)) P1 P2 P3
                      (proj2 (put_bool_plain os flag))) as Hx
    end.
    cbv zeta in Hx. destruct Hx as [Hword Hsplit].
    rewrite Hword. cbv beta iota zeta. rewrite Hsplit.
    cbn [length Nat.eqb negb lookup_total list_lookup_total].
    rewrite L1, L2, L3, put_bool_read.
    destruct bfParams; reflexivity.
  - intros [P1 L1] [P2 L2].
    unfold write_ClaheFilterParams, put, fresh_ostream,
      read_ClaheFilterParams.
    cbn [written boolalpha String.append].
    rewrite !append_assoc. cbn [String.append].
    match goal with
    | |- context [put_bool ?os ?flag] =>
        pose proof (extract_fields3 (put_bool os flag) _ _
                      (proj1 (put_bool_plain os flag)) P1 P2
                      (proj2 (put_bool_plain os flag))) as Hx
    end.
    cbv zeta in Hx. destruct Hx as [Hword Hsplit].
    rewrite Hword. cbv beta iota zeta. rewrite Hsplit.
    cbn [length Nat.eqb negb lookup_total list_lookup_total].
    rewrite L1, L2, put_bool_read.
    destruct cfParams; reflexivity.
Qed.

End ParamsIO_facts.

(** ** The conversions between images and BGR matrices *)

Section Conversion_facts.
Import ImageProcessing ImageClaims ImageSpecs.

(** A loop over [start, start + len) that keeps an invariant indexed by
    the loop counter returns, in a state that satisfies the invariant at
    the end of the range. *)
Lemma for_each_index_steps {S : Type} (P : nat -> S -> Prop)
    (body : nat -> S -> result S) (len : nat) :
  forall (start : nat) (s : S),
  P start s ->
  (forall i t, start <= i < start + len -> P i t ->
     exists t', body i t = Ok t' /\ P (Datatypes.S i) t') ->
  exists s', for_each_index (seq start len) body s = Ok s'
    /\ P (start + len) s'.
Proof.
  induction len as [|len IH]; intros start s Hs Hbody; simpl.
  - exists s. rewrite Nat.add_0_r. auto.
  - destruct (Hbody start s ltac:(lia) Hs) as (t & -> & Ht). simpl.
    destruct (IH (Datatypes.S start) t Ht) as (s' & Hrun & Hs').
    + intros i u Hi. apply Hbody. lia.
    + exists s'. split; [exact Hrun|].
      replace (start + Datatypes.S len) with (Datatypes.S start + len) by lia.
      exact Hs'.
Qed.

(** Writing the image of cell [k] after the images of the cells before
    it. *)
Lemma fill_step {A B : Type} (f : A -> B) (d : list A) (dflt : B)
    (k : nat) (x : A) :
  d !! k = Some x ->
  <[k := f x]> ((f <$> take k d) ++ replicate (length d - k) dflt)
  = (f <$> take (S k) d) ++ replicate (length d - S k) dflt.
Proof.
  intros Hk. pose proof (lookup_lt_Some _ _ _ Hk) as Hlt.
  rewrite insert_app_r_alt by (rewrite length_fmap, length_take; lia).
  rewrite length_fmap, length_take_le by lia. rewrite Nat.sub_diag.
  replace (length d - k) with (S (length d - S k)) by lia.
  rewrite (take_S_r _ _ _ Hk), fmap_app, <- app_assoc. reflexivity.
Qed.

Lemma zip_step {A B : Type} (f : A -> B -> B) (m : list A) (d : list B)
    (k : nat) (v : A) (old : B) :
  m !! k = Some v -> d !! k = Some old ->
  <[k := f v old]> (zip_with f (take k m) (take k d) ++ drop k d)
  = zip_with f (take (S k) m) (take (S k) d) ++ drop (S k) d.
Proof.
  intros Hm Hd.
  pose proof (lookup_lt_Some _ _ _ Hm) as Hlm.
  pose proof (lookup_lt_Some _ _ _ Hd) as Hld.
  assert (Hlen : length (zip_with f (take k m) (take k d)) = k)
    by (rewrite length_zip_with, !length_take; lia).
  rewrite insert_app_r_alt by lia. rewrite Hlen, Nat.sub_diag.
  rewrite (drop_S _ _ _ Hd). simpl.
  rewrite (take_S_r _ _ _ Hm), (take_S_r _ _ _ Hd).
  rewrite zip_with_app by (rewrite !length_take; lia).
  rewrite <- app_assoc. reflexivity.
Qed.

(** [imageRGBAToCvMatBGR] on a well-formed image: a matrix of the size of
    the image whose cells are the BGR triples of the pixels. *)
Lemma imageRGBAToCvMatBGR_map (img : Image) :
  Image_wf img ->
  imageRGBAToCvMatBGR img
  = Ok {| rows := Height img; cols := Width img;
          mdata := bgr_of_rgba <$> data img |}.
Proof.
  intros Hwf. unfold Image_wf in Hwf.
  set (Inv := fun (k : nat) (m : Mat) =>
    rows m = Height img /\ cols m = Width img
    /\ mdata m = (bgr_of_rgba <$> take k (data img))
                 ++ replicate (length (data img) - k) inhabitant).
  destruct (for_each_index_steps (fun row => Inv (row * Width img))
    (fun row mat => for_range (Width img) (fun col mat =>
       imgPixel ← Image_at img row col;
       Mat_set mat row col
         {| v0 := b imgPixel; v1 := g imgPixel; v2 := r imgPixel |}) mat)
    (Height img) 0 (Mat_create (Height img) (Width img)))
    as (mat & Hrun & Hr & Hc & Hd).
  - unfold Inv. simpl. rewrite Hwf, Nat.sub_0_r. auto.
  - intros row m Hrow Hm.
    destruct (for_each_index_steps (fun col => Inv (row * Width img + col))
      (fun col mat =>
         imgPixel ← Image_at img row col;
         Mat_set mat row col
           {| v0 := b imgPixel; v1 := g imgPixel; v2 := r imgPixel |})
      (Width img) 0 m) as (m' & Hrun' & Hm').
    + rewrite Nat.add_0_r. exact Hm.
    + intros col t Hcol (Hr & Hc & Hd).
      pose proof (cell_in_range row col (Height img) (Width img)
                    ltac:(lia) ltac:(lia)) as Hidx.
      unfold Image_at.
      destruct (lookup_lt_is_Some_2 (data img) (row * Width img + col)
                  ltac:(lia)) as [px Hpx].
      rewrite Hpx. simpl. unfold Mat_set. rewrite Hc, Hd.
      rewrite length_app, length_fmap, length_take, length_replicate.
      destruct (Nat.ltb_spec (row * Width img + col)
                  ((row * Width img + col) `min` length (data img)
                   + (length (data img) - (row * Width img + col))));
        [|lia].
      eexists. split; [reflexivity|].
      unfold Inv. simpl. split; [exact Hr|]. split; [reflexivity|].
      replace (row * Width img + S col) with (S (row * Width img + col))
        by lia.
      exact (fill_step bgr_of_rgba (data img)
               inhabitant _ px Hpx).
    + exists m'. split; [exact Hrun'|].
      replace (S row * Width img) with (row * Width img + (0 + Width img))
        by lia.
      exact Hm'.
  - etransitivity; [exact Hrun|].
    destruct mat as [mr mc md]. simpl in *. subst mr mc.
    rewrite Hd, Hwf, Nat.sub_diag, <- Hwf, firstn_all. simpl.
    rewrite app_nil_r. reflexivity.
Qed.

(** [cvMatBGRToImageRGBA] on a well-formed image and a matrix of its
    size: each pixel takes the colour of its cell and keeps its alpha. *)
Lemma cvMatBGRToImageRGBA_zip (matIn : Mat) (imageOut : Image) :
  Image_wf imageOut -> Mat_wf matIn ->
  rows matIn = Height imageOut -> cols matIn = Width imageOut ->
  cvMatBGRToImageRGBA matIn imageOut
  = Ok {| Width := Width imageOut; Height := Height imageOut;
          data := zip_with rgba_of_bgr (mdata matIn) (data imageOut) |}.
Proof.
  intros Hwf Hmwf Hrows Hcols. unfold Image_wf in Hwf. unfold Mat_wf in Hmwf.
  assert (Hlen : length (mdata matIn) = length (data imageOut))
    by (rewrite Hmwf, Hwf, Hrows, Hcols; reflexivity).
  set (Inv := fun (k : nat) (im : Image) =>
    Width im = Width imageOut /\ Height im = Height imageOut
    /\ data im = zip_with rgba_of_bgr (take k (mdata matIn))
                                       (take k (data imageOut))
                 ++ drop k (data imageOut)).
  destruct (for_each_index_steps (fun row => Inv (row * Width imageOut))
    (fun row imageOut0 => for_range (Width imageOut0) (fun col imageOut1 =>
       matPixel ← Mat_at matIn row col;
       old ← Image_at imageOut1 row col;
       Image_set imageOut1 row col
         {| r := v2 matPixel; g := v1 matPixel; b := v0 matPixel;
            a := a old |}) imageOut0)
    (Height imageOut) 0 imageOut) as (im & Hrun & Hw & Hh & Hd).
  - unfold Inv. simpl. rewrite drop_0. auto.
  - intros row im0 Hrow Him0.
    assert (Hw0 : Width im0 = Width imageOut) by apply Him0.
    rewrite Hw0.
    destruct (for_each_index_steps
      (fun col => Inv (row * Width imageOut + col))
      (fun col imageOut1 =>
         matPixel ← Mat_at matIn row col;
         old ← Image_at imageOut1 row col;
         Image_set imageOut1 row col
           {| r := v2 matPixel; g := v1 matPixel; b := v0 matPixel;
              a := a old |})
      (Width imageOut) 0 im0) as (im' & Hrun' & Him').
    + rewrite Nat.add_0_r. exact Him0.
    + intros col t Hcol (Hw & Hh & Hd).
      pose proof (cell_in_range row col (Height imageOut) (Width imageOut)
                    ltac:(lia) ltac:(lia)) as Hidx.
      set (k := row * Width imageOut + col) in *.
      destruct (lookup_lt_is_Some_2 (mdata matIn) k ltac:(lia)) as [v Hv].
      destruct (lookup_lt_is_Some_2 (data imageOut) k ltac:(lia))
        as [old Hold].
      assert (Hzl : length (zip_with rgba_of_bgr (take k (mdata matIn))
                              (take k (data imageOut))) = k)
        by (rewrite length_zip_with, !length_take; lia).
      assert (Hat : data t !! k = Some old).
      { rewrite Hd, lookup_app_r by lia.
        rewrite Hzl, Nat.sub_diag, lookup_drop, Nat.add_0_r. exact Hold. }
      unfold Mat_at. rewrite Hcols. fold k. rewrite Hv. simpl.
      unfold Image_at. rewrite Hw. fold k. rewrite Hat. simpl.
      unfold Image_set. rewrite Hw. fold k.
      destruct (Nat.ltb_spec k (length (data t)));
        [|apply lookup_lt_Some in Hat; lia].
      eexists. split; [reflexivity|].
      unfold Inv. simpl. split; [reflexivity|]. split; [exact Hh|].
      replace (row * Width imageOut + S col) with (S k) by (unfold k; lia).
      rewrite Hd.
      exact (zip_step rgba_of_bgr (mdata matIn) (data imageOut) k v old
               Hv Hold).
    + exists im'. split; [exact Hrun'|].
      replace (S row * Width imageOut)
        with (row * Width imageOut + (0 + Width imageOut)) by lia.
      exact Him'.
  - etransitivity; [exact Hrun|].
    destruct im as [w h d]. simpl in *. subst w h.
    rewrite Hd, drop_ge, app_nil_r by lia.
    rewrite !take_ge by lia. reflexivity.
Qed.

Lemma rgba_of_bgr_of_rgba (px : RGBAfColor) :
  rgba_of_bgr (bgr_of_rgba px) px = px.
Proof. destruct px. reflexivity. Qed.

Lemma zip_with_fmap_same {A B : Type} (f : B -> A -> A) (h : A -> B)
    (l : list A) :
  (forall x, f (h x) x = x) -> zip_with f (h <$> l) l = l.
Proof.
  intros Hf. induction l as [|x l IH]; [reflexivity|].
  rewrite fmap_cons. cbn [zip_with]. rewrite Hf. f_equal. exact IH.
Qed.

(** X4. On a well-formed image, [imageRGBAToCvMatBGR] returns a matrix with
    as many rows as the image is high and as many columns as it is wide,
    whose cell at each position is the (b, g, r) triple of the pixel
    there: the alpha of the image has no part in the result. *)
Theorem imageRGBAToCvMatBGR_cells (img : Image) :
  Image_wf img ->
  exists mat, imageRGBAToCvMatBGR img = Ok mat
    /\ rows mat = Height img /\ cols mat = Width img
    /\ Mat_wf mat
    /\ (forall row col px, row < Height img -> col < Width img ->
          Image_at img row col = Ok px ->
          Mat_at mat row col = Ok (bgr_of_rgba px))
    /\ (forall img', Image_wf img' ->
          Width img' = Width img -> Height img' = Height img ->
          colour <$> data img' = colour <$> data img ->
          imageRGBAToCvMatBGR img' = Ok mat).
Proof.
  intros Hwf. eexists. split; [apply imageRGBAToCvMatBGR_map, Hwf|].
  simpl. split; [reflexivity|]. split; [reflexivity|]. split.
  - unfold Mat_wf. simpl. rewrite length_fmap. exact Hwf.
  - split.
    + intros row col px _ _. unfold Image_at, Mat_at. simpl.
      rewrite list_lookup_fmap.
      destruct (data img !! _); simpl; [|discriminate].
      intros [= ->]. reflexivity.
    + intros img' Hwf' Hw Hh Hcol.
      rewrite (imageRGBAToCvMatBGR_map img' Hwf'), Hw, Hh.
      do 2 f_equal.
      assert (E : (fun c : float * float * float =>
                     {| v0 := c.2; v1 := c.1.2; v2 := c.1.1 |})
                  <$> (colour <$> data img')
                  = (fun c : float * float * float =>
                     {| v0 := c.2; v1 := c.1.2; v2 := c.1.1 |})
                  <$> (colour <$> data img)) by (rewrite Hcol; reflexivity).
      rewrite <- !list_fmap_compose in E. exact E.
Qed.

(** X5. On a well-formed image and a well-formed matrix of its size,
    [cvMatBGRToImageRGBA] returns an image of the same size in which each
    pixel has the colour of the cell at its position, red from channel 2,
    green from channel 1 and blue from channel 0, and the alpha it had. *)
Theorem cvMatBGRToImageRGBA_pixels (matIn : Mat) (imageOut : Image) :
  Image_wf imageOut -> Mat_wf matIn ->
  rows matIn = Height imageOut -> cols matIn = Width imageOut ->
  exists image', cvMatBGRToImageRGBA matIn imageOut = Ok image'
    /\ Width image' = Width imageOut /\ Height image' = Height imageOut
    /\ Image_wf image'
    /\ (forall row col v old, row < Height imageOut -> col < Width imageOut ->
          Mat_at matIn row col = Ok v ->
          Image_at imageOut row col = Ok old ->
          Image_at image' row col
          = Ok {| r := v2 v; g := v1 v; b := v0 v; a := a old |}).
Proof.
  intros Hwf Hmwf Hrows Hcols.
  eexists. split; [apply cvMatBGRToImageRGBA_zip; assumption|].
  simpl. split; [reflexivity|]. split; [reflexivity|]. split.
  - unfold Image_wf in *. unfold Mat_wf in Hmwf. simpl.
    rewrite length_zip_with. rewrite Hmwf, Hrows, Hcols, Hwf. lia.
  - intros row col v old _ _. unfold Mat_at, Image_at. simpl.
    rewrite Hcols, lookup_zip_with.
    destruct (mdata matIn !! _); simpl; [|discriminate].
    intros [= ->].
    destruct (data imageOut !! _); simpl; [|discriminate].
    intros [= ->]. reflexivity.
Qed.

(** X6. Converting a well-formed image to a BGR matrix and back into the
    same image returns the image unchanged. *)
Theorem image_mat_image_round_trip (img : Image) :
  Image_wf img ->
  (mat ← imageRGBAToCvMatBGR img; cvMatBGRToImageRGBA mat img) = Ok img.
Proof.
  intros Hwf. rewrite (imageRGBAToCvMatBGR_map img Hwf). simpl.
  rewrite cvMatBGRToImageRGBA_zip; try reflexivity; try assumption.
  - simpl. rewrite (zip_with_fmap_same _ _ _ rgba_of_bgr_of_rgba).
    destruct img. reflexivity.
  - unfold Mat_wf. simpl. rewrite length_fmap. exact Hwf.
Qed.

(** X7. Writing a well-formed matrix into a well-formed image of its size
    and converting that image back returns the matrix: the colours
    survive, whatever the alpha of the image. *)
Theorem mat_image_mat_round_trip (matIn : Mat) (imageOut : Image) :
  Image_wf imageOut -> Mat_wf matIn ->
  rows matIn = Height imageOut -> cols matIn = Width imageOut ->
  (image' ← cvMatBGRToImageRGBA matIn imageOut; imageRGBAToCvMatBGR image')
  = Ok matIn.
Proof.
  intros Hwf Hmwf Hrows Hcols.
  rewrite (cvMatBGRToImageRGBA_zip _ _ Hwf Hmwf Hrows Hcols). simpl.
  assert (Hlen : length (mdata matIn) = length (data imageOut)).
  { unfold Image_wf in Hwf. unfold Mat_wf in Hmwf.
    rewrite Hmwf, Hwf, Hrows, Hcols. reflexivity. }
  rewrite imageRGBAToCvMatBGR_map.
  - simpl. rewrite <- Hrows, <- Hcols. destruct matIn as [mr mc md].
    simpl in *. do 2 f_equal.
    clear -Hlen. revert Hlen. generalize (data imageOut).
    induction md as [|v md IH]; intros [|px d] Hlen; simpl in *;
      try discriminate; [reflexivity|].
    rewrite IH by lia. destruct v. reflexivity.
  - unfold Image_wf in *. simpl. rewrite length_zip_with. lia.
Qed.

End Conversion_facts.

(** ** [processImage]: failures and composition *)

Section Pipeline_facts.
Import ImageProcessing ImageClaims ImageSpecs.
Context `{Cfg : BuildConfig} `{Oiio : ImageBufAlgo} `{Cv : OpenCV}.

Lemma for_each_index_failure {S : Type} (P : failure -> Prop)
    (idxs : list nat) (body : nat -> S -> result S) :
  (forall i s e, body i s = Err e -> P e) ->
  forall s e, for_each_index idxs body s = Err e -> P e.
Proof.
  intros Hbody. induction idxs as [|i rest IH]; intros s e; simpl.
  - discriminate.
  - destruct (body i s) as [s1|e1] eqn:E; simpl.
    + apply IH.
    + intros [= <-]. exact (Hbody _ _ _ E).
Qed.

(** The two conversions can fail in one way only, by an access outside a
    buffer. *)
Lemma imageRGBAToCvMatBGR_failure (img : Image) (e : failure) :
  imageRGBAToCvMatBGR img = Err e -> e = OutOfBounds.
Proof.
  unfold imageRGBAToCvMatBGR, for_range.
  apply (for_each_index_failure (fun e => e = OutOfBounds)).
  intros row m e1.
  apply (for_each_index_failure (fun e => e = OutOfBounds)).
  intros col m1 e2. unfold Image_at, Mat_set.
  destruct (data img !! _); simpl; [|congruence].
  destruct (_ <? _)%nat; congruence.
Qed.

Lemma cvMatBGRToImageRGBA_failure (matIn : Mat) (imageOut : Image)
    (e : failure) :
  cvMatBGRToImageRGBA matIn imageOut = Err e -> e = OutOfBounds.
Proof.
  unfold cvMatBGRToImageRGBA, for_range.
  apply (for_each_index_failure (fun e => e = OutOfBounds)).
  intros row im e1.
  apply (for_each_index_failure (fun e => e = OutOfBounds)).
  intros col im1 e2. unfold Mat_at, Image_at, Image_set.
  destruct (mdata matIn !! _); simpl; [|congruence].
  destruct (data im1 !! _); simpl; [|congruence].
  destruct (_ <? _)%nat; congruence.
Qed.

Lemma bilateralStage_failure (pParams : ProcessingParams) (image : Image)
    (e : failure) :
  bilateralStage pParams image = Err e ->
  (ALICEVISION_HAVE_OPENCV = true /\ e = OutOfBounds)
  \/ (ALICEVISION_HAVE_OPENCV = false
      /\ bilateral_enabled (bilateralFilter pParams) = true
      /\ exists what, e = InvalidArgument what).
Proof.
  unfold bilateralStage.
  destruct (bilateral_enabled _); [|discriminate].
  destruct ALICEVISION_HAVE_OPENCV.
  - intros H. left. split; [reflexivity|].
    destruct (imageRGBAToCvMatBGR image) as [mat|e1] eqn:E; simpl in H.
    + exact (cvMatBGRToImageRGBA_failure _ _ _ H).
    + injection H as <-. exact (imageRGBAToCvMatBGR_failure _ _ E).
  - intros [= <-]. right. eauto.
Qed.

Lemma claheStage_failure (pParams : ProcessingParams) (image : Image)
    (e : failure) :
  claheStage pParams image = Err e ->
  (ALICEVISION_HAVE_OPENCV = true /\ e = OutOfBounds)
  \/ (ALICEVISION_HAVE_OPENCV = false
      /\ clahe_enabled (claheFilter pParams) = true
      /\ exists what, e = InvalidArgument what).
Proof.
  unfold claheStage.
  destruct (clahe_enabled _); [|discriminate].
  destruct ALICEVISION_HAVE_OPENCV.
  - intros H. left. split; [reflexivity|].
    destruct (imageRGBAToCvMatBGR image) as [mat|e1] eqn:E; simpl in H.
    + exact (cvMatBGRToImageRGBA_failure _ _ _ H).
    + injection H as <-. exact (imageRGBAToCvMatBGR_failure _ _ E).
  - intros [= <-]. right. eauto.
Qed.

(** X8. [processImage] throws [invalid_argument] exactly when the program
    was built without OpenCV and the bilateral filter or the CLAHE filter
    is enabled, whatever the image and the other parameters; it never
    fails an assertion. *)
Theorem processImage_invalid_argument (image : Image)
    (pParams : ProcessingParams) :
  ((exists what, processImage image pParams = Err (InvalidArgument what))
   <-> ALICEVISION_HAVE_OPENCV = false
       /\ (bilateral_enabled (bilateralFilter pParams) = true
           \/ clahe_enabled (claheFilter pParams) = true))
  /\ processImage image pParams <> Err AssertionFailed.
Proof.
  unfold processImage.
  set (image1 := sharpenStage pParams _).
  split; [split|].
  - intros [what H].
    destruct (bilateralStage pParams image1) as [image2|e] eqn:Eb;
      simpl in H.
    + destruct (claheStage pParams image2) as [image3|e] eqn:Ec;
        simpl in H; [discriminate|].
      injection H as ->.
      destruct (claheStage_failure _ _ _ Ec) as [[_ ?]|(? & ? & _)];
        [discriminate|auto].
    + injection H as ->.
      destruct (bilateralStage_failure _ _ _ Eb) as [[_ ?]|(? & ? & _)];
        [discriminate|auto].
  - intros [Hcv Hen].
    unfold bilateralStage, claheStage. rewrite Hcv.
    destruct (bilateral_enabled _); simpl; [eauto|].
    destruct (clahe_enabled _); simpl; [eauto|].
    destruct Hen; discriminate.
  - intros H.
    destruct (bilateralStage pParams image1) as [image2|e] eqn:Eb;
      simpl in H.
    + destruct (claheStage pParams image2) as [image3|e] eqn:Ec;
        simpl in H; [discriminate|].
      injection H as ->.
      destruct (claheStage_failure _ _ _ Ec) as [[_ ?]|(_ & _ & ? & ?)];
        discriminate.
    + injection H as ->.
      destruct (bilateralStage_failure _ _ _ Eb) as [[_ ?]|(_ & _ & ? & ?)];
        discriminate.
Qed.

Lemma same_alpha_wf (image image' : Image) :
  same_alpha image image' -> Image_wf image -> Image_wf image'.
Proof.
  unfold same_alpha, alpha_channel, Image_wf. intros (Hw & Hh & Ha) Hwf.
  apply (f_equal length) in Ha. rewrite !length_fmap in Ha.
  rewrite Ha, Hw, Hh. exact Hwf.
Qed.

(** X9. With the four OpenImageIO stages off (scale factor 1, contrast 1
    or an OpenImageIO older than 2.0, median filter below 3, no
    sharpening, no hole filling), OpenCV built in and keeping the sizes of
    matrices, [processImage] returns on every well-formed image, for any
    setting of the bilateral and CLAHE filters, and the image it returns
    is well-formed and has the size and the alpha plane of the image it
    was given. *)
Theorem processImage_opencv_stages `{!OpenCV_sizes} (image : Image)
    (pParams : ProcessingParams) :
  ALICEVISION_HAVE_OPENCV = true ->
  Image_wf image ->
  oiio_stages_off pParams ->
  exists image', processImage image pParams = Ok image'
    /\ Image_wf image' /\ same_alpha image image'.
Proof.
  intros Hcv Hwf (Hscale & Hcontrast & Hmedian & Hsharpen & Hfill).
  unfold processImage, scaleStage, contrastStage, medianStage, sharpenStage,
    fillHolesStage.
  rewrite Hscale, Hcontrast, Hsharpen, Hfill.
  destruct (Z.leb_spec 3 (medianFilter pParams)); [lia|].
  destruct (bilateralStage_total pParams image Hcv Hwf) as [image1 H1].
  pose proof (bilateralStage_same_alpha _ _ _ H1) as Ha1.
  pose proof (same_alpha_wf _ _ Ha1 Hwf) as Hwf1.
  destruct (claheStage_total pParams image1 Hcv Hwf1) as [image2 H2].
  pose proof (claheStage_same_alpha _ _ _ H2) as Ha2.
  exists image2. rewrite H1. simpl. rewrite H2. simpl.
  split; [reflexivity|]. split.
  - exact (same_alpha_wf _ _ Ha2 Hwf1).
  - exact (same_alpha_trans _ _ _ Ha1 Ha2).
Qed.

End Pipeline_facts.

(** ** [processImage]: the size of the rescaled image *)

Section Scale_facts.
Import ImageProcessing.
Context `{Oiio : ImageBufAlgo}.

Lemma float_of_unsigned_exact (n : nat) :
  (0 < Z.of_nat n < 2 ^ 24)%Z ->
  exists m e,
    float_of_unsigned n = S754_finite false m e
    /\ is_float (S754_finite false m e) = true
    /\ (e <= 0)%Z /\ Zpos m = (Z.of_nat n * 2 ^ (- e))%Z.
Proof.
  intros Hn. unfold float_of_unsigned, float_of_Z, is_float.
  apply (binary_normalize_exact 24 128); lia.
Qed.

(** A valid [float] between zero and one is a zero or a positive finite
    value [ms * 2^es] with [ms <= 2^(-es)]. *)
Lemma float_unit_interval (s : float) :
  is_float s = true ->
  fle (float_of_Z 0) s = true -> fle s (float_of_Z 1) = true ->
  (exists sg, s = S754_zero sg)
  \/ exists ms es, s = S754_finite false ms es
                   /\ (es <= 0)%Z /\ (Zpos ms <= 2 ^ (- es))%Z.
Proof.
  intros Hv H0 H1. destruct s as [sg|sg| |sg ms es].
  - left. exists sg. reflexivity.
  - destruct sg; discriminate.
  - discriminate.
  - destruct sg; [discriminate|]. right. exists ms, es.
    split; [reflexivity|].
    destruct (valid_canonical 24 128 false ms es Hv) as (_ & _ & Hms).
    unfold fle, SFleb in H1.
    replace (float_of_Z 1) with (S754_finite false 8388608 (-23)) in H1
      by (vm_compute; reflexivity).
    cbn [SFcompare] in H1.
    destruct (Z.compare_spec es (-23)) as [->|Hlt|Hgt]; try discriminate.
    + split; [intros Hc; discriminate Hc|].
      replace (2 ^ (- -23))%Z with 8388608%Z by (vm_compute; reflexivity).
      clear Hv H0 Hms.
      destruct (Pos.compare_cont Eq ms 8388608) eqn:Ec;
        [apply Pos.compare_eq in Ec; subst ms; apply Z.le_refl
        |apply Z.lt_le_incl; exact Ec
        |discriminate].
    + split; [lia|].
      apply Z.lt_le_incl, Z.lt_le_trans with (2 ^ 24)%Z; [exact Hms|].
      apply Z.pow_le_mono_r; lia.
Qed.

(** For a scale [s] between zero and one and an extent [n] below [2^24],
    the rescaled extent [floor(float(n) * s)] is at most [n]. *)
Lemma scaled_extent (n : nat) (s : float) :
  (Z.of_nat n < 2 ^ 24)%Z ->
  is_float s = true ->
  fle (float_of_Z 0) s = true -> fle s (float_of_Z 1) = true ->
  floor_to_unsigned
    (fmulf (float_of_unsigned n) s) <= n.
Proof.
  intros Hn Hv H0 H1.
  assert (Htr : (truncate (fmulf (float_of_unsigned n) s)
                 <= Z.of_nat n)%Z).
  { unfold fmulf. destruct (Nat.eq_dec n 0) as [->|Hne].
    - change (float_of_unsigned 0) with (S754_zero false).
      destruct (float_unit_interval s Hv H0 H1)
        as [[sg ->]|(ms & es & -> & _)]; cbn [SFmul truncate]; lia.
    - destruct (float_of_unsigned_exact n ltac:(lia))
        as (mW & eW & -> & HvW & HeW & HmW).
      destruct (float_unit_interval s Hv H0 H1)
        as [[sg ->]|(ms & es & -> & Hes & Hms)];
        [cbn [SFmul truncate]; lia|].
      destruct (SFmul_le_left 24 128 mW eW ms es HvW Hes Hms)
        as [->|(m & e & -> & He & Hm)]; [cbn [truncate]; lia|].
      apply truncate_le; [lia|lia|].
      rewrite HmW in Hm. rewrite <- Z.mul_assoc, <- Z.pow_add_r in Hm by lia.
      replace (- eW + (eW - e))%Z with (- e)%Z in Hm by lia. exact Hm. }
  unfold floor_to_unsigned.
  destruct (_ <? _)%Z; lia.
Qed.


(** X16. For a scale factor between 0 and 1 and an image less than
    [2^24] pixels wide and high, the scaling stage of [processImage]
    never asks for an enlargement: with a factor equal to [1.0f] the image
    is returned as it is, and otherwise the buffer handed to [resample]
    and [resize] is [floor(float(w) * s)] wide and [floor(float(h) * s)]
    high, the products being rounded to [float], and these are at most
    the width [w] and the height [h] of the image. *)
Theorem scaleStage_never_enlarges (pParams : ProcessingParams)
    (image : Image) :
  is_float (scaleFactor pParams) = true ->
  fle (float_of_Z 0) (scaleFactor pParams) = true ->
  fle (scaleFactor pParams) (float_of_Z 1) = true ->
  (Z.of_nat (Width image) < 2 ^ 24)%Z ->
  (Z.of_nat (Height image) < 2 ^ 24)%Z ->
  (feqb (scaleFactor pParams) (float_of_Z 1) = true ->
   scaleStage pParams image = image)
  /\ (feqb (scaleFactor pParams) (float_of_Z 1) = false ->
      exists nw nh,
        scaleStage pParams image
        = resize (resample (Image_create nw nh) image) image
        /\ nw = floor_to_unsigned
                  (fmulf (float_of_unsigned (Width image))
                         (scaleFactor pParams))
        /\ nh = floor_to_unsigned
                  (fmulf (float_of_unsigned (Height image))
                         (scaleFactor pParams))
        /\ nw <= Width image /\ nh <= Height image).
Proof.
  intros Hv H0 H1 Hw Hh. unfold scaleStage, fneb, feqb. split.
  - intros E. rewrite E. reflexivity.
  - intros E. rewrite E. cbn [negb]. eexists _, _.
    split; [reflexivity|]. split; [reflexivity|]. split; [reflexivity|].
    split; apply scaled_extent; assumption.
Qed.

End Scale_facts.

(** ** [computeWeights]: what the vector held before *)

Section Weight_facts.
Import LineKernelLoRansac.
Context `{K : LineKernel}.


(** X12. [computeWeights] resizes the vector it is given to the number of
    inliers and overwrites every entry: for every [eps], the result has
    the length of the inlier list, does not depend on what the vector
    held before, and is left unchanged by a second call. *)
Theorem computeWeights_overwrites (model : Model) (inliers : list nat)
    (v1 v2 : list double) (eps : double) :
  length (computeWeights model inliers v1 eps) = length inliers
  /\ computeWeights model inliers v1 eps
     = computeWeights model inliers v2 eps
  /\ computeWeights model inliers (computeWeights model inliers v1 eps) eps
     = computeWeights model inliers v1 eps.
Proof.
  rewrite !computeWeights_map, length_fmap. auto.
Qed.

End Weight_facts.

(** ** [lineFittingTest]: the threshold and the expected number of inliers *)

Section LineFittingTest_bounds.
Import LineFittingTest.

(** X13. Whenever [lineFittingTest] gets past its two assertions, the
    outlier ratio is in [[0, 1)], the noise level is at least zero (so not
    a NaN), and the threshold is above zero: it is [0.3] when the noise
    level is at most [2^-52], and three times the noise level otherwise,
    possibly the positive infinity. *)
Theorem lineFittingTest_threshold (numPoints : nat)
    (outlierRatio gaussianNoiseLevel : double) (c : Constants) :
  is_double gaussianNoiseLevel = true ->
  lineFittingTest numPoints outlierRatio gaussianNoiseLevel = Ok c ->
  fge outlierRatio (double_of_Z 0) && flt outlierRatio (double_of_Z 1) = true
  /\ fge gaussianNoiseLevel (double_of_Z 0) = true
  /\ threshold c
     = (if fgt gaussianNoiseLevel numeric_limits_epsilon
        then fmul (double_of_Z 3) gaussianNoiseLevel
        else double_literal 3 10)
  /\ positive_value (threshold c).
Proof.
  intros Hv. unfold lineFittingTest.
  destruct (fge outlierRatio (double_of_Z 0)
            && flt outlierRatio (double_of_Z 1)); [|discriminate].
  destruct (fge gaussianNoiseLevel (double_of_Z 0)); [|discriminate].
  cbn [negb]. intros [= <-]. cbn [threshold].
  split; [reflexivity|]. split; [reflexivity|]. split; [reflexivity|].
  destruct (fgt gaussianNoiseLevel numeric_limits_epsilon) eqn:E;
    [|exact I].
  assert (Habove : above (-104) gaussianNoiseLevel).
  { apply (SFltb_above (-104) numeric_limits_epsilon); [|exact E].
    right. exists 4503599627370496%positive, (-104)%Z.
    split; [reflexivity|lia]. }
  destruct Habove as [->|(m & e & -> & He)]; [exact I|].
  assert (Hlog : Z.log2 (Zpos m) = (53 - 1)%Z).
  { apply (valid_normal 53 1024 false m e Hv).
    change (emin 53 1024) with (-1074)%Z. lia. }
  apply (SFmul_lower 53 1024 ltac:(lia) 6755399441055744 (-51) m e).
  change (Z.log2 (Zpos 6755399441055744)) with 52%Z.
  change (emin 53 1024) with (-1074)%Z. lia.
Qed.

Lemma double_of_size_t_exact (n : nat) :
  (0 < Z.of_nat n < 2 ^ 53)%Z ->
  exists m e,
    double_of_size_t n = S754_finite false m e
    /\ is_double (S754_finite false m e) = true
    /\ (e <= 0)%Z /\ Zpos m = (Z.of_nat n * 2 ^ (- e))%Z.
Proof.
  intros Hn. unfold double_of_size_t, double_of_Z, is_double.
  apply (binary_normalize_exact 53 1024); lia.
Qed.

(** A valid [double] in [[0, 1)] is a zero or a positive finite value
    [ms * 2^es] with [ms <= 2^(-es)]. *)
Lemma double_unit_interval (r : double) :
  is_double r = true ->
  fge r (double_of_Z 0) && flt r (double_of_Z 1) = true ->
  (exists sg, r = S754_zero sg)
  \/ exists ms es, r = S754_finite false ms es
                   /\ (es <= 0)%Z /\ (Zpos ms <= 2 ^ (- es))%Z.
Proof.
  intros Hv H. apply andb_prop in H as [H0 H1].
  destruct r as [sg|sg| |sg ms es].
  - left. exists sg. reflexivity.
  - destruct sg; discriminate.
  - discriminate.
  - destruct sg; [discriminate|]. right. exists ms, es.
    split; [reflexivity|].
    destruct (valid_canonical 53 1024 false ms es Hv) as (_ & _ & Hms).
    unfold flt, SFltb in H1.
    replace (double_of_Z 1) with (S754_finite false 4503599627370496 (-52))
      in H1 by (vm_compute; reflexivity).
    cbn [SFcompare] in H1.
    destruct (Z.compare_spec es (-52)) as [->|Hlt|Hgt]; try discriminate.
    + split; [intros Hc; discriminate Hc|].
      replace (2 ^ (- -52))%Z with 4503599627370496%Z
        by (vm_compute; reflexivity).
      clear Hv H0 Hms.
      destruct (Pos.compare_cont Eq ms 4503599627370496) eqn:Ec;
        [discriminate
        |apply Z.lt_le_incl; exact Ec
        |discriminate].
    + split; [lia|].
      apply Z.lt_le_incl, Z.lt_le_trans with (2 ^ 53)%Z; [exact Hms|].
      apply Z.pow_le_mono_r; lia.
Qed.

(** For an outlier ratio in [[0, 1)] and fewer than [2^53] points, the
    integral part of [numPoints - numPoints * outlierRatio] is at most
    [numPoints]. *)
Lemma expected_at_most (n : nat) (r : double) :
  (Z.of_nat n < 2 ^ 53)%Z ->
  is_double r = true ->
  fge r (double_of_Z 0) && flt r (double_of_Z 1) = true ->
  size_t_of_double
    (fsub (double_of_size_t n)
          (fmul (double_of_size_t n) r)) <= n.
Proof.
  intros Hn Hv Hr.
  assert (Htr : (truncate (fsub (double_of_size_t n)
                                (fmul (double_of_size_t n) r))
                 <= Z.of_nat n)%Z).
  { unfold fsub, fmul. destruct (Nat.eq_dec n 0) as [->|Hne].
    - change (double_of_size_t 0) with (S754_zero false).
      destruct (double_unit_interval r Hv Hr)
        as [[sg ->]|(ms & es & -> & _)].
      + destruct sg; cbn [SFmul SFsub xorb truncate]; lia.
      + cbn [SFmul SFsub xorb truncate]. lia.
    - destruct (double_of_size_t_exact n ltac:(lia))
        as (mN & eN & -> & HvN & HeN & HmN).
      pose proof (truncate_exact mN eN (Z.of_nat n) HeN HmN) as HtrN.
      destruct (double_unit_interval r Hv Hr)
        as [[sg ->]|(ms & es & -> & Hes & Hms)].
      { cbn [SFmul SFsub]. lia. }
      destruct (SFmul_le_left 53 1024 mN eN ms es HvN Hes Hms)
        as [->|(m & e & -> & He & Hm)].
      { cbn [SFsub]. lia. }
      destruct (SFsub_le_left 53 1024 mN eN m e HvN He Hm)
        as [->|(m' & e' & -> & He' & Hm')]; [cbn [truncate]; lia|].
      apply truncate_le; [lia|lia|].
      rewrite HmN in Hm'.
      rewrite <- Z.mul_assoc, <- Z.pow_add_r in Hm' by lia.
      replace (- eN + (eN - e'))%Z with (- e')%Z in Hm' by lia. exact Hm'. }
  unfold size_t_of_double.
  destruct (_ <? _)%Z; lia.
Qed.

(** X14. Whenever [lineFittingTest] gets past its assertions with fewer
    than [2^53] points, the expected number of inliers, the integral part
    of [numPoints - numPoints * outlierRatio] with the product and the
    difference rounded to [double], never exceeds [numPoints]. *)
Theorem expectedInliers_at_most (numPoints : nat)
    (outlierRatio gaussianNoiseLevel : double) (c : Constants) :
  (Z.of_nat numPoints < 2 ^ 53)%Z ->
  is_double outlierRatio = true ->
  lineFittingTest numPoints outlierRatio gaussianNoiseLevel = Ok c ->
  expectedInliers c <= numPoints.
Proof.
  intros Hn Hv. unfold lineFittingTest.
  destruct (fge outlierRatio (double_of_Z 0)
            && flt outlierRatio (double_of_Z 1)) eqn:Hr; [|discriminate].
  destruct (fge gaussianNoiseLevel (double_of_Z 0)); [|discriminate].
  cbn [negb]. intros [= <-]. cbn [expectedInliers].
  apply expected_at_most; assumption.
Qed.

End LineFittingTest_bounds.

(** ** The stream operators on an empty stream *)

Section ParamsIO_blank.
Import ImageProcessing ParamsIO.
Local Open Scope string_scope.
Context `{NT : NumberText}.

Lemma skipws_blank (s : string) :
  count_chars (fun c => negb (isspace c)) s = 0%nat ->
  skipws s = EmptyString.
Proof.
  induction s as [|c s IH]; simpl; [reflexivity|].
  destruct (isspace c); simpl; [exact IH|discriminate].
Qed.

Lemma extract_string_blank (in_ : istream) :
  failbit in_ = true
  \/ count_chars (fun c => negb (isspace c)) (buffer in_) = 0%nat ->
  (extract_string in_).1 = EmptyString
  /\ failbit (extract_string in_).2 = true.
Proof.
  unfold extract_string. intros [Hf|Hb].
  - rewrite Hf. auto.
  - destruct (failbit in_) eqn:E; [auto|].
    rewrite (skipws_blank _ Hb). auto.
Qed.

(** X15. On a stream that has already failed, or that holds nothing but
    white space, each [operator>>] throws [invalid_argument] with its bare
    message, leaves the parameters as they were and leaves the stream
    failed. *)
Theorem read_params_blank (in_ : istream) (sParams : SharpenParams)
    (bfParams : BilateralFilterParams) (cfParams : ClaheFilterParams) :
  failbit in_ = true
  \/ count_chars (fun c => negb (isspace c)) (buffer in_) = 0%nat ->
  (thrown (read_SharpenParams in_ sParams)
     = Some (invalid_argument "Failed to parse SharpenParams from: ")
   /\ value (read_SharpenParams in_ sParams) = sParams
   /\ failbit (stream (read_SharpenParams in_ sParams)) = true)
  /\ (thrown (read_BilateralFilterParams in_ bfParams)
        = Some (invalid_argument
                  "Failed to parse BilateralFilterParams from: ")
      /\ value (read_BilateralFilterParams in_ bfParams) = bfParams
      /\ failbit (stream (read_BilateralFilterParams in_ bfParams)) = true)
  /\ (thrown (read_ClaheFilterParams in_ cfParams)
        = Some (invalid_argument "Failed to parse ClaheFilterParams from: ")
      /\ value (read_ClaheFilterParams in_ cfParams) = cfParams
      /\ failbit (stream (read_ClaheFilterParams in_ cfParams)) = true).
Proof.
  intros Hblank.
  destruct (extract_string_blank in_ Hblank) as [Htoken Hfail].
  unfold read_SharpenParams, read_BilateralFilterParams,
    read_ClaheFilterParams.
  destruct (extract_string in_) as [token rest]. simpl in Htoken, Hfail.
  subst token. simpl. auto 10.
Qed.

End ParamsIO_blank.

(** ** More concrete runs *)

Section More_runs.
Import ImageProcessing ImageClaims ImageSpecs ParamsIO Examples MoreExamples.
Local Open Scope string_scope.

(** A word of two fields is rejected by the three operators; a word of
    four fields is not rejected for its shape by the first two. *)
Lemma read_params_field_count_witness :
  read_SharpenParams (NT:=decimal_text) (istream_of "true:3 rest")
    (sharpen default_ProcessingParams)
  = {| stream := {| buffer := " rest"; failbit := false |};
       value := sharpen default_ProcessingParams;
       thrown := Some (invalid_argument
                   "Failed to parse SharpenParams from: true:3") |}
  /\ (forall what,
        thrown (read_BilateralFilterParams (NT:=decimal_text)
                  (istream_of "true:5:x:y")
                  (bilateralFilter default_ProcessingParams))
        <> Some (invalid_argument what))
  /\ thrown (read_ClaheFilterParams (NT:=decimal_text)
               (istream_of "true:5:x:y")
               (claheFilter default_ProcessingParams))
     = Some (invalid_argument
               "Failed to parse ClaheFilterParams from: true:5:x:y").
Proof.
  split; [|split].
  - apply (read_params_field_count (NT:=decimal_text)
             (istream_of "true:3 rest") (sharpen default_ProcessingParams)
             (bilateralFilter default_ProcessingParams)
             (claheFilter default_ProcessingParams)).
    vm_compute. discriminate.
  - apply (read_params_field_count (NT:=decimal_text)
             (istream_of "true:5:x:y") (sharpen default_ProcessingParams)
             (bilateralFilter default_ProcessingParams)
             (claheFilter default_ProcessingParams)).
    reflexivity.
  - rewrite (proj1 (proj2 (proj2 (proj2 (proj2
              (read_params_field_count (NT:=decimal_text)
                 (istream_of "true:5:x:y")
                 (sharpen default_ProcessingParams)
                 (bilateralFilter default_ProcessingParams)
                 (claheFilter default_ProcessingParams))))))).
    + reflexivity.
    + vm_compute. discriminate.
Defined.

(** [TrUe] enables the sharpening, also when the width is then rejected;
    [1] does not enable the CLAHE filter. *)
Lemma read_params_flag_witness :
  sharpen_enabled
    (value (read_SharpenParams (NT:=decimal_text) (istream_of "TrUe:x:1:0")
              (sharpen default_ProcessingParams))) = true
  /\ clahe_enabled
       (value (read_ClaheFilterParams (NT:=decimal_text)
                 (istream_of "1:4:8")
                 (claheFilter default_ProcessingParams))) <> true.
Proof.
  split.
  - apply (read_params_flag (NT:=decimal_text) (istream_of "TrUe:x:1:0")
             (sharpen default_ProcessingParams)
             (bilateralFilter default_ProcessingParams)
             (claheFilter default_ProcessingParams)); [reflexivity|].
    exists "T"%char, "r"%char, "U"%char, "e"%char. auto 10.
  - intros H.
    apply (read_params_flag (NT:=decimal_text) (istream_of "1:4:8")
             (sharpen default_ProcessingParams)
             (bilateralFilter default_ProcessingParams)
             (claheFilter default_ProcessingParams)) in H; [|reflexivity].
    destruct H as (c1 & c2 & c3 & c4 & H & _). discriminate H.
Defined.

(** The default sharpening parameters with the flag set, written as
    [1:3:1:0], come back with the flag cleared. *)
Lemma write_read_params_witness :
  let enabled_sharpen := set_sharpen_enabled (sharpen default_ProcessingParams) true in
  written (write_SharpenParams (NT:=decimal_text) (fresh_ostream false)
             enabled_sharpen) = "1:3:1:0"
  /\ read_SharpenParams (NT:=decimal_text)
       (istream_of (written (write_SharpenParams (NT:=decimal_text)
                               (fresh_ostream false) enabled_sharpen)))
       enabled_sharpen
     = {| stream := {| buffer := ""; failbit := false |};
          value := sharpen default_ProcessingParams;
          thrown := None |}.
Proof.
  split; [reflexivity|].
  apply (write_read_params (NT:=decimal_text) false
           (set_sharpen_enabled (sharpen default_ProcessingParams) true)
           (set_sharpen_enabled (sharpen default_ProcessingParams) true)
           (bilateralFilter default_ProcessingParams)
           (bilateralFilter default_ProcessingParams)
           (claheFilter default_ProcessingParams)
           (claheFilter default_ProcessingParams));
    split; reflexivity.
Defined.

Lemma read_params_blank_witness :
  thrown (read_SharpenParams (NT:=decimal_text) (istream_of "  ")
            (sharpen default_ProcessingParams))
  = Some (invalid_argument "Failed to parse SharpenParams from: ").
Proof.
  apply (read_params_blank (NT:=decimal_text) (istream_of "  ")
           (sharpen default_ProcessingParams)
           (bilateralFilter default_ProcessingParams)
           (claheFilter default_ProcessingParams)).
  right. reflexivity.
Defined.

Lemma imageRGBAToCvMatBGR_cells_witness :
  Image_wf checker
  /\ exists mat, imageRGBAToCvMatBGR checker = Ok mat
       /\ Mat_at mat 1 0 = Ok {| v0 := float_of_Z 22; v1 := float_of_Z 21;
                              v2 := float_of_Z 20 |}.
Proof.
  assert (Hwf : Image_wf checker) by reflexivity.
  split; [exact Hwf|].
  destruct (imageRGBAToCvMatBGR_cells checker Hwf)
    as (mat & Hrun & _ & _ & _ & Hcells & _).
  exists mat. split; [exact Hrun|].
  rewrite (Hcells 1 0 (pixel 20 (float_literal 3 4))); [| | |reflexivity].
  - vm_compute. reflexivity.
  - unfold checker. simpl. lia.
  - unfold checker. simpl. lia.
Defined.

Lemma cvMatBGRToImageRGBA_pixels_witness :
  Image_wf two_pixels /\ Mat_wf two_cells
  /\ exists image', cvMatBGRToImageRGBA two_cells two_pixels = Ok image'
       /\ Image_at image' 0 0
          = Ok {| r := float_of_Z 3; g := float_of_Z 2; b := float_of_Z 1;
                  a := float_literal 1 2 |}.
Proof.
  assert (Hwf : Image_wf two_pixels) by reflexivity.
  assert (Hmwf : Mat_wf two_cells) by reflexivity.
  split; [exact Hwf|]. split; [exact Hmwf|].
  destruct (cvMatBGRToImageRGBA_pixels two_cells two_pixels Hwf Hmwf
              eq_refl eq_refl) as (image' & Hrun & _ & _ & _ & Hpx).
  exists image'. split; [exact Hrun|].
  apply (Hpx 0 0
           {| v0 := float_of_Z 1; v1 := float_of_Z 2; v2 := float_of_Z 3 |}
           {| r := float_of_Z 7; g := float_of_Z 8; b := float_of_Z 9;
              a := float_literal 1 2 |});
    try reflexivity; unfold two_pixels; simpl; lia.
Defined.

Lemma image_mat_image_round_trip_witness :
  Image_wf checker
  /\ (mat ← imageRGBAToCvMatBGR checker; cvMatBGRToImageRGBA mat checker)
     = Ok checker.
Proof.
  assert (Hwf : Image_wf checker) by reflexivity.
  split; [exact Hwf|]. exact (image_mat_image_round_trip checker Hwf).
Defined.

Lemma mat_image_mat_round_trip_witness :
  Image_wf two_pixels /\ Mat_wf two_cells
  /\ (image' ← cvMatBGRToImageRGBA two_cells two_pixels;
      imageRGBAToCvMatBGR image') = Ok two_cells.
Proof.
  assert (Hwf : Image_wf two_pixels) by reflexivity.
  assert (Hmwf : Mat_wf two_cells) by reflexivity.
  split; [exact Hwf|]. split; [exact Hmwf|].
  exact (mat_image_mat_round_trip two_cells two_pixels Hwf Hmwf
           eq_refl eq_refl).
Defined.

(** Without OpenCV the enabled filters make [processImage] throw. *)
Lemma processImage_invalid_argument_witness :
  exists what,
    processImage (Cfg:=build_without_opencv) (Oiio:=copy_filters)
      (Cv:=toy_opencv) checker with_bilateral_and_clahe
    = Err (InvalidArgument what).
Proof.
  apply (processImage_invalid_argument (Cfg:=build_without_opencv)
           (Oiio:=copy_filters) (Cv:=toy_opencv) checker
           with_bilateral_and_clahe).
  split; [reflexivity|]. left. reflexivity.
Defined.

Lemma processImage_opencv_stages_witness :
  ALICEVISION_HAVE_OPENCV (BuildConfig:=build_with_opencv) = true
  /\ Image_wf checker
  /\ oiio_stages_off (Cfg:=build_with_opencv) with_bilateral_and_clahe
  /\ exists image',
       processImage (Cfg:=build_with_opencv) (Oiio:=copy_filters)
         (Cv:=toy_opencv) checker with_bilateral_and_clahe = Ok image'
       /\ Image_wf image' /\ same_alpha checker image'.
Proof.
  assert (Hoff : oiio_stages_off (Cfg:=build_with_opencv)
                   with_bilateral_and_clahe).
  { unfold oiio_stages_off. simpl. repeat split; reflexivity. }
  split; [reflexivity|]. split; [reflexivity|]. split; [exact Hoff|].
  exact (processImage_opencv_stages (Cfg:=build_with_opencv)
           (Oiio:=copy_filters) (Cv:=toy_opencv) checker
           with_bilateral_and_clahe eq_refl eq_refl Hoff).
Defined.

(** At scale 1/2 the 2 x 2 checker image is rescaled into a 1 x 1
    buffer. *)
Lemma scaleStage_never_enlarges_witness :
  is_float (scaleFactor half_scale) = true
  /\ fle (float_of_Z 0) (scaleFactor half_scale) = true
  /\ fle (scaleFactor half_scale) (float_of_Z 1) = true
  /\ (Z.of_nat (Width checker) < 2 ^ 24)%Z
  /\ (Z.of_nat (Height checker) < 2 ^ 24)%Z
  /\ feqb (scaleFactor half_scale) (float_of_Z 1) = false
  /\ exists nw nh,
       scaleStage (Oiio:=copy_filters) half_scale checker
       = resize (ImageBufAlgo:=copy_filters)
           (resample (ImageBufAlgo:=copy_filters) (Image_create nw nh)
              checker) checker
       /\ nw = 1 /\ nh = 1.
Proof.
  assert (Hw : (Z.of_nat (Width checker) < 2 ^ 24)%Z) by reflexivity.
  assert (Hh : (Z.of_nat (Height checker) < 2 ^ 24)%Z) by reflexivity.
  split; [reflexivity|]. split; [reflexivity|]. split; [reflexivity|].
  split; [exact Hw|]. split; [exact Hh|]. split; [reflexivity|].
  destruct (proj2 (scaleStage_never_enlarges (Oiio:=copy_filters)
                     half_scale checker eq_refl eq_refl eq_refl Hw Hh)
              eq_refl)
    as (nw & nh & Hrun & Hnw & Hnh & _ & _).
  exists nw, nh. split; [exact Hrun|].
  split; [rewrite Hnw|rewrite Hnh]; vm_compute; reflexivity.
Defined.

End More_runs.

Section More_kernel_runs.
Import LineKernelLoRansac LineFittingTest Examples.


Lemma lineFittingTest_threshold_witness :
  is_double (double_literal 1 100) = true
  /\ exists c,
       lineFittingTest 300 (double_literal 3 10) (double_literal 1 100)
       = Ok c
       /\ threshold c = double_literal 3 100
       /\ positive_value (threshold c).
Proof.
  split; [reflexivity|].
  exists {| withNoise := true; expectedInliers := 210;
            threshold := double_literal 3 100 |}.
  assert (Hrun : lineFittingTest 300 (double_literal 3 10)
                   (double_literal 1 100)
                 = Ok {| withNoise := true; expectedInliers := 210;
                         threshold := double_literal 3 100 |})
    by (vm_compute; reflexivity).
  split; [exact Hrun|]. split; [reflexivity|].
  exact (proj2 (proj2 (proj2 (lineFittingTest_threshold 300
           (double_literal 3 10) (double_literal 1 100) _ eq_refl Hrun)))).
Defined.

Lemma expectedInliers_at_most_witness :
  (Z.of_nat 100 < 2 ^ 53)%Z
  /\ is_double (double_literal 55 100) = true
  /\ exists c,
       lineFittingTest 100 (double_literal 55 100) (double_of_Z 0) = Ok c
       /\ expectedInliers c = 44 /\ expectedInliers c <= 100.
Proof.
  assert (Hn : (Z.of_nat 100 < 2 ^ 53)%Z) by reflexivity.
  split; [exact Hn|]. split; [reflexivity|].
  exists {| withNoise := false; expectedInliers := 44;
            threshold := double_literal 3 10 |}.
  assert (Hrun : lineFittingTest 100 (double_literal 55 100) (double_of_Z 0)
                 = Ok {| withNoise := false; expectedInliers := 44;
                         threshold := double_literal 3 10 |})
    by (vm_compute; reflexivity).
  split; [exact Hrun|]. split; [reflexivity|].
  exact (expectedInliers_at_most 100 (double_literal 55 100)
           (double_of_Z 0) _ Hn eq_refl Hrun).
Defined.

End More_kernel_runs.
